(** * GradientColorTextureAtlasMaker: a model of [gradient_texture_atlas.py]

    The script reads palettes of hexadecimal colours, lays the colours out
    as a grid of squares on a 2048x2048 canvas and fills the rest of the
    canvas with gradients.  This file embeds the script function by
    function and proves the properties its specification states about the
    palette loader, the layout arithmetic, the gradient synthesiser and the
    neighbour selector.

    Python values are modelled as follows.
    - [int] is [Z]; [//] and [%] with a positive divisor are [Z.div] and
      [Z.modulo].
    - [float] is IEEE-754 binary64, taken from the standard library's
      [SpecFloat] at precision 53 and maximal exponent 1024; every rounding
      of the script is performed, nothing is idealised to the reals.
    - [str] is [string]; a character stands for the code point of the same
      number, so the model covers text in the range U+0000..U+00FF.
    - a tuple [(r, g, b)] is a triple of [Z]; a list is a [list].
    - an exception is a value [Raise e] of the type [result]; statements
      are sequenced with the bind of that monad. *)

From Stdlib Require Import ZArith List Bool Lia String Ascii.
From Stdlib Require Import Permutation Sorted.
From Stdlib Require Import Reals Lra.
From Stdlib Require Import Floats.SpecFloat.
Import ListNotations.
Local Open Scope Z_scope.

Set Implicit Arguments.

(* ================================================================= *)
(** * Part I: the Python runtime the script relies on *)

(** ** Exceptions *)

Inductive exn : Type :=
| ValueError
| OverflowError
| ZeroDivisionError
| IndexError.

Inductive result (A : Type) : Type :=
| Ok (a : A)
| Raise (e : exn).

Arguments Ok {A} a.
Arguments Raise {A} e.

Definition bind {A B : Type} (m : result A) (k : A -> result B) : result B :=
  match m with
  | Ok a => k a
  | Raise e => Raise e
  end.

Declare Scope py_scope.
Delimit Scope py_scope with py.
Notation "x <- m ;; k" := (bind m (fun x => k))
  (at level 61, m at next level, right associativity) : py_scope.
Notation "' pat <- m ;; k" := (bind m (fun v => match v with pat => k end))
  (at level 61, pat pattern, m at next level, right associativity) : py_scope.
Local Open Scope py_scope.

(** A list comprehension whose element expression may raise. *)
Fixpoint mapM {A B : Type} (f : A -> result B) (l : list A) : result (list B) :=
  match l with
  | [] => Ok []
  | a :: l' => b <- f a ;; bs <- mapM f l' ;; Ok (b :: bs)
  end.

(** A [for] loop over [l] whose body updates the loop state [s]. *)
Fixpoint for_each {A S : Type} (l : list A) (body : A -> S -> result S) (s : S)
  : result S :=
  match l with
  | [] => Ok s
  | a :: l' => s' <- body a s ;; for_each l' body s'
  end.

(** ** Sequences *)

Definition len {A : Type} (l : list A) : Z := Z.of_nat (List.length l).

(** [range(a, b)]. *)
Definition py_range (a b : Z) : list Z :=
  map (fun k => a + Z.of_nat k) (seq 0 (Z.to_nat (b - a))).

(** [l[i]]: a negative index counts from the end. *)
Definition py_getitem {A : Type} (l : list A) (i : Z) : result A :=
  let j := if i <? 0 then i + len l else i in
  if (0 <=? j) && (j <? len l) then
    match nth_error l (Z.to_nat j) with
    | Some a => Ok a
    | None => Raise IndexError
    end
  else Raise IndexError.

(** [enumerate(l)]. *)
Definition enumerate {A : Type} (l : list A) : list (Z * A) :=
  combine (py_range 0 (len l)) l.

(** [x // y]. *)
Definition py_floordiv (x y : Z) : result Z :=
  if y =? 0 then Raise ZeroDivisionError else Ok (x / y).

(** [list.sort()] and [sorted]: the sort is stable and compares with [<]
    only.  Whenever [<] is a strict weak order, which is the case for every
    key the script sorts by, the outcome is the one of an insertion sort
    that puts an element before the first one not smaller than it. *)
Section Sort.
Variable A : Type.
Variable lt : A -> A -> bool.

Fixpoint sort_insert (x : A) (l : list A) : list A :=
  match l with
  | [] => [x]
  | y :: l' => if lt y x then y :: sort_insert x l' else x :: y :: l'
  end.

Fixpoint py_sort (l : list A) : list A :=
  match l with
  | [] => []
  | x :: l' => sort_insert x (py_sort l')
  end.
End Sort.

(** ** Floating point: binary64 *)

Definition prec : Z := 53.
Definition emax : Z := 1024.
Definition float : Type := spec_float.

Definition is_infinity (f : float) : bool :=
  match f with S754_infinity _ => true | _ => false end.

Definition is_zero (f : float) : bool :=
  match f with S754_zero _ => true | _ => false end.

(** The integer [z] as an unrounded binary number. *)
Definition exact_int (z : Z) : float :=
  match z with
  | Z0 => S754_zero false
  | Zpos p => S754_finite false p 0
  | Zneg p => S754_finite true p 0
  end.

(** The conversion of an [int] operand to [float] (round to nearest even);
    CPython raises [OverflowError] when the integer is out of range. *)
Definition float_of_int (z : Z) : result float :=
  let f := binary_normalize prec emax z 0 false in
  if is_infinity f then Raise OverflowError else Ok f.

(** [a / b] on two [int]s: the correctly rounded quotient. *)
Definition int_truediv (a b : Z) : result float :=
  if b =? 0 then Raise ZeroDivisionError
  else
    let q := SFdiv prec emax (exact_int a) (exact_int b) in
    if is_infinity q then Raise OverflowError else Ok q.

(** [x / y] on two [float]s. *)
Definition float_truediv (x y : float) : result float :=
  if is_zero y then Raise ZeroDivisionError else Ok (SFdiv prec emax x y).

Definition float_mul (x y : float) : float := SFmul prec emax x y.
Definition float_add (x y : float) : float := SFadd prec emax x y.
Definition float_sub (x y : float) : float := SFsub prec emax x y.
Definition float_lt (x y : float) : bool := SFltb x y.
Definition float_eq (x y : float) : bool := SFeqb x y.

(** A decimal literal [num/den]: the double nearest to the rational. *)
Definition float_literal (num den : Z) : float :=
  SFdiv prec emax (exact_int num) (exact_int den).

(** [int(x)]: truncation towards zero. *)
Definition int_of_float (x : float) : result Z :=
  match x with
  | S754_zero _ => Ok 0
  | S754_finite s m e => Ok (cond_Zopp s (Z.shiftl (Zpos m) e))
  | S754_infinity _ => Raise OverflowError
  | S754_nan => Raise ValueError
  end.

(** [math.floor(x)]. *)
Definition math_floor (x : float) : result Z :=
  match x with
  | S754_zero _ => Ok 0
  | S754_finite s m e => Ok (Z.shiftl (cond_Zopp s (Zpos m)) e)
  | S754_infinity _ => Raise OverflowError
  | S754_nan => Raise ValueError
  end.

(** [math.ceil(x)]. *)
Definition math_ceil (x : float) : result Z :=
  match x with
  | S754_zero _ => Ok 0
  | S754_finite s m e => Ok (- Z.shiftl (cond_Zopp (negb s) (Zpos m)) e)
  | S754_infinity _ => Raise OverflowError
  | S754_nan => Raise ValueError
  end.

(** [math.sqrt(n)] on an [int]. *)
Definition math_sqrt (n : Z) : result float :=
  x <- float_of_int n ;;
  if n <? 0 then Raise ValueError else Ok (SFsqrt prec emax x).

(** ** Strings *)

Definition code (c : ascii) : Z := Z.of_N (N_of_ascii c).

(** [str.isspace] on one character. *)
Definition is_space (c : ascii) : bool :=
  let n := code c in
  ((9 <=? n) && (n <=? 13)) || ((28 <=? n) && (n <=? 32))
  || (n =? 133) || (n =? 160).

Fixpoint lstrip (s : list ascii) : list ascii :=
  match s with
  | c :: s' => if is_space c then lstrip s' else s
  | [] => []
  end.

Definition strip_chars (s : list ascii) : list ascii :=
  rev (lstrip (rev (lstrip s))).

(** [s.strip()]. *)
Definition strip (s : string) : string :=
  string_of_list_ascii (strip_chars (list_ascii_of_string s)).

Definition str_len (s : string) : Z := Z.of_nat (String.length s).

(** [s[i:i+2]]. *)
Definition slice2 (s : string) (i : nat) : string := substring i 2 s.

(** *** [int(s, 16)] *)

(** The value of a base-16 digit. *)
Definition hex_digit (c : ascii) : option Z :=
  let n := code c in
  if (48 <=? n) && (n <=? 57) then Some (n - 48)
  else if (97 <=? n) && (n <=? 102) then Some (n - 87)
  else if (65 <=? n) && (n <=? 70) then Some (n - 55)
  else None.

(** White space that [int] skips around the number: the C white space,
    and the two other spaces of the range, which CPython first rewrites to
    a blank. *)
Definition int_space (c : ascii) : bool :=
  let n := code c in
  ((9 <=? n) && (n <=? 13)) || (n =? 32) || (n =? 133) || (n =? 160).

Fixpoint skip_int_space (s : list ascii) : list ascii :=
  match s with
  | c :: s' => if int_space c then skip_int_space s' else s
  | [] => []
  end.

Definition is_underscore (c : ascii) : bool := code c =? 95.

(** The digits of the number: at least one, single underscores allowed
    between two digits.  [acc] is the value read so far, [prev_us] tells
    whether the previous character was an underscore; the result is the
    value and the unread rest. *)
Fixpoint scan_digits (s : list ascii) (acc : Z) (prev_us : bool)
  : option (Z * list ascii) :=
  match s with
  | c :: s' =>
      match hex_digit c with
      | Some d => scan_digits s' (16 * acc + d) false
      | None =>
          if is_underscore c then
            if prev_us then None else scan_digits s' acc true
          else if prev_us then None else Some (acc, s)
      end
  | [] => if prev_us then None else Some (acc, s)
  end.

Definition starts_with_digit (s : list ascii) : bool :=
  match s with
  | c :: _ => match hex_digit c with Some _ => true | None => false end
  | [] => false
  end.

(** After the sign: an optional [0x] or [0X], which one underscore may
    follow, then the digits. *)
Definition strip_prefix (s : list ascii) : list ascii :=
  match s with
  | z :: x :: s' =>
      if (code z =? 48) && ((code x =? 120) || (code x =? 88)) then
        match s' with
        | u :: s'' => if is_underscore u then s'' else s'
        | [] => s'
        end
      else s
  | _ => s
  end.

Definition parse_int16 (s : list ascii) : option Z :=
  let s1 := skip_int_space s in
  let '(neg, s2) :=
    match s1 with
    | c :: s' =>
        if code c =? 43 then (false, s')
        else if code c =? 45 then (true, s')
        else (false, s1)
    | [] => (false, s1)
    end in
  let s3 := strip_prefix s2 in
  if starts_with_digit s3 then
    match scan_digits s3 0 false with
    | Some (v, rest) =>
        match skip_int_space rest with
        | [] => Some (if neg then - v else v)
        | _ :: _ => None
        end
    | None => None
    end
  else None.

Definition int16 (s : string) : result Z :=
  match parse_int16 (list_ascii_of_string s) with
  | Some v => Ok v
  | None => Raise ValueError
  end.

(** *** [os.path] (POSIX) *)

Definition is_char (n : Z) (c : ascii) : bool := code c =? n.

Fixpoint take_until (p : ascii -> bool) (s : list ascii) : list ascii :=
  match s with
  | c :: s' => if p c then [] else c :: take_until p s'
  | [] => []
  end.

(** [os.path.basename(p)]: what follows the last slash. *)
Definition basename (p : string) : string :=
  string_of_list_ascii
    (rev (take_until (is_char 47) (rev (list_ascii_of_string p)))).

(** [os.path.splitext(p)[0]] for a name without a slash: the name up to its
    last dot, unless only dots come before that dot. *)
Definition splitext_root (p : string) : string :=
  let r := rev (list_ascii_of_string p) in
  let ext := take_until (is_char 46) r in
  match skipn (List.length ext) r with
  | [] => p
  | _ :: before =>
      if forallb (is_char 46) before then p
      else string_of_list_ascii (rev before)
  end.

(* ================================================================= *)
(** * Part II: the script *)

(** ** Colours *)

Definition color : Type := (Z * Z * Z)%type.

(** [c1 == c2] on tuples. *)
Definition color_eqb (c1 c2 : color) : bool :=
  let '(r1, g1, b1) := c1 in
  let '(r2, g2, b2) := c2 in
  (r1 =? r2) && (g1 =? g2) && (b1 =? b2).

(** [c1 < c2] on tuples: the first differing component decides. *)
Definition color_ltb (c1 c2 : color) : bool :=
  let '(r1, g1, b1) := c1 in
  let '(r2, g2, b2) := c2 in
  if negb (r1 =? r2) then r1 <? r2
  else if negb (g1 =? g2) then g1 <? g2
  else b1 <? b2.

(** ** [hex_to_rgb] *)

Definition hex_to_rgb (hex_color : string) : result color :=
  r <- int16 (slice2 hex_color 0) ;;
  g <- int16 (slice2 hex_color 2) ;;
  b <- int16 (slice2 hex_color 4) ;;
  Ok (r, g, b).

(** ** [rgb_distance] *)

Definition rgb_distance (color1 color2 : color) : result float :=
  let '(r1, g1, b1) := color1 in
  let '(r2, g2, b2) := color2 in
  math_sqrt (0 + (r1 - r2) ^ 2 + (g1 - g2) ^ 2 + (b1 - b2) ^ 2).

(** ** [find_neighbors] *)

(** [<] on the pairs [(distance, color)] that [distances.sort()] compares:
    the colours decide when the distances are equal. *)
Definition entry_ltb (e1 e2 : float * color) : bool :=
  if float_eq (fst e1) (fst e2) then color_ltb (snd e1) (snd e2)
  else float_lt (fst e1) (fst e2).

(** The list [distances] before it is sorted. *)
Definition distance_list (target_color : color) (colors : list color)
  : result (list (float * color)) :=
  mapM (fun c => d <- rgb_distance target_color c ;; Ok (d, c))
       (filter (fun c => negb (color_eqb c target_color)) colors).

(** The list [distances] after [distances.sort()]. *)
Definition sorted_distances (target_color : color) (colors : list color)
  : result (list (float * color)) :=
  distances <- distance_list target_color colors ;;
  Ok (py_sort entry_ltb distances).

Definition find_neighbors (target_color : color) (colors : list color)
  (max_neighbors min_distance : Z) : result (list color) :=
  distances <- sorted_distances target_color colors ;;
  let start_index := min_distance in
  for_each
    (py_range start_index
       (Z.min (start_index + max_neighbors) (len distances)))
    (fun i selected =>
       if i <? len distances then
         e <- py_getitem distances i ;; Ok (selected ++ [snd e])
       else Ok selected)
    [].

(** ** [get_lightest_darkest] *)

Definition lit_0_299 : float := Eval vm_compute in float_literal 299 1000.
Definition lit_0_587 : float := Eval vm_compute in float_literal 587 1000.
Definition lit_0_114 : float := Eval vm_compute in float_literal 114 1000.
Definition lit_1_0 : float := Eval vm_compute in float_literal 1 1.
Definition lit_0_0 : float := S754_zero false.

Definition luminance (c : color) : result float :=
  let '(r, g, b) := c in
  fr <- float_of_int r ;;
  fg <- float_of_int g ;;
  fb <- float_of_int b ;;
  Ok (float_add (float_add (float_mul lit_0_299 fr) (float_mul lit_0_587 fg))
                (float_mul lit_0_114 fb)).

Definition key_ltb (e1 e2 : float * color) : bool :=
  float_lt (fst e1) (fst e2).

Definition get_lightest_darkest (colors : list color)
  : result (color * color) :=
  keyed <- mapM (fun c => k <- luminance c ;; Ok (k, c)) colors ;;
  let sorted_colors := map snd (py_sort key_ltb keyed) in
  darkest <- py_getitem sorted_colors 0 ;;
  lightest <- py_getitem sorted_colors (-1) ;;
  Ok (darkest, lightest).

(** ** [create_gradient] *)

(** An image is known by its size and by its pixels in row-major order;
    [Solid] is [Image.new] with a fill colour, [Pixels] an image filled by
    [putdata]. *)
Inductive image : Type :=
| Solid (width height : Z) (fill : color)
| Pixels (width height : Z) (data : list color).

(** One channel of a pixel, before and after the conversion to [int]:
    [int(c1 + (c2 - c1) * local_pos)]. *)
Definition interpolate_float (c1 c2 : Z) (local_pos : float) : result float :=
  d <- float_of_int (c2 - c1) ;;
  f1 <- float_of_int c1 ;;
  Ok (float_add f1 (float_mul d local_pos)).

Definition interpolate (c1 c2 : Z) (local_pos : float) : result Z :=
  v <- interpolate_float c1 c2 local_pos ;;
  int_of_float v.

(** The first half of the body of the two nested loops: the position of
    the pixel of column [x] and row [y] along the gradient, the segment it
    falls in and its position inside that segment; [num_colors] is
    [len(colors)].  Where the script sets [pos] to the integer [0], both
    expressions that read [pos] convert it to the float [0.0]. *)
Definition locate (num_colors width height : Z) (vertical : bool) (x y : Z)
  : result (Z * float) :=
  pos <- (if vertical then
            if height >? 1 then int_truediv y (height - 1) else Ok lit_0_0
          else
            if width >? 1 then int_truediv x (width - 1) else Ok lit_0_0) ;;
  n1 <- float_of_int (num_colors - 1) ;;
  segment_size <- float_truediv lit_1_0 n1 ;;
  q <- float_truediv pos segment_size ;;
  segment <- int_of_float q ;;
  let segment := Z.min segment (num_colors - 2) in
  fseg <- float_of_int segment ;;
  local_pos <-
    float_truediv (float_sub pos (float_mul fseg segment_size)) segment_size ;;
  Ok (segment, local_pos).

(** The second half: the two colours of the segment and their mix. *)
Definition blend (colors : list color) (segment : Z) (local_pos : float)
  : result color :=
  color1 <- py_getitem colors segment ;;
  color2 <- py_getitem colors (segment + 1) ;;
  let '(r1, g1, b1) := color1 in
  let '(r2, g2, b2) := color2 in
  r <- interpolate r1 r2 local_pos ;;
  g <- interpolate g1 g2 local_pos ;;
  b <- interpolate b1 b2 local_pos ;;
  Ok (r, g, b).

(** The whole body: the pixel appended to [pixels]. *)
Definition gradient_pixel (colors : list color) (width height : Z)
  (vertical : bool) (x y : Z) : result color :=
  '(segment, local_pos) <- locate (len colors) width height vertical x y ;;
  blend colors segment local_pos.

(** The list [pixels] that the function hands to [putdata]. *)
Definition gradient_pixels (colors : list color) (width height : Z)
  (vertical : bool) : result (list color) :=
  if len colors =? 1 then
    c <- py_getitem colors 0 ;;
    Ok (repeat c (Z.to_nat (width * height)))
  else
    for_each (py_range 0 height)
      (fun y pixels =>
         for_each (py_range 0 width)
           (fun x pixels =>
              p <- gradient_pixel colors width height vertical x y ;;
              Ok (pixels ++ [p]))
           pixels)
      [].

Definition create_gradient (colors : list color) (width height : Z)
  (vertical : bool) : result image :=
  pixels <- gradient_pixels colors width height vertical ;;
  Ok (Pixels width height pixels).

(** ** [process_hex_file]: the palette loader *)

(** [hex_colors = [line.strip() for line in f if line.strip()]] *)
Definition hex_colors (lines : list string) : list string :=
  map strip (filter (fun line => negb (str_len (strip line) =? 0)) lines).

(** The strings that reach [hex_to_rgb]:
    [... for hex_color in hex_colors if len(hex_color) == 6]. *)
Definition accepted_lines (lines : list string) : list string :=
  filter (fun hex_color => str_len hex_color =? 6) (hex_colors lines).

(** [rgb_colors = [hex_to_rgb(hex_color) for ...]] *)
Definition load_palette (lines : list string) : result (list color) :=
  mapM hex_to_rgb (accepted_lines lines).

(** ** [process_hex_file]: the layout *)

Definition canvas_size : Z := 2048.
Definition main_gradient_width : Z := 100.
Definition gradient_start_y : Z := 600.
Definition available_gradient_height : Z := canvas_size - gradient_start_y.
Definition gradient_height : Z := available_gradient_height / 2.
Definition total_content_width : Z := canvas_size - main_gradient_width.
Definition num_gradients : Z := 11.
Definition gradient_width : Z := total_content_width / (num_gradients + 1).
Definition total_gradient_width : Z := gradient_width * (num_gradients + 1).
Definition available_width_for_squares : Z := total_gradient_width.
Definition target_square_size : Z := 100.
Definition max_cols : Z := available_width_for_squares / target_square_size.
Definition actual_main_gradient_width : Z := canvas_size - total_gradient_width.

(** The grid, for a palette of [num_colors] colours.  The layout is only
    computed for a palette that is not empty, so that [grid_cols] is
    positive wherever the script divides by it. *)
Definition grid_cols (num_colors : Z) : Z :=
  let cols := Z.min max_cols num_colors in
  if cols >=? num_colors then num_colors else cols.

Definition grid_rows (num_colors : Z) : result Z :=
  let cols := Z.min max_cols num_colors in
  if cols >=? num_colors then Ok 1
  else
    q <- int_truediv num_colors cols ;;
    math_ceil q.

Definition square_width (num_colors : Z) : Z :=
  total_gradient_width / grid_cols num_colors.

Definition remaining_width_per_row (num_colors : Z) : Z :=
  total_gradient_width mod grid_cols num_colors.

Definition square_height (num_colors : Z) : result Z :=
  rows <- grid_rows num_colors ;;
  q <- py_floordiv gradient_start_y rows ;;
  Ok (Z.min (square_width num_colors) q).

(** The square of the colour of index [i]: its column, its row, the
    abscissa of its left edge and its width. *)
Definition square_col (num_colors i : Z) : Z := i mod grid_cols num_colors.
Definition square_row (num_colors i : Z) : Z := i / grid_cols num_colors.

Definition square_x (num_colors i : Z) : Z :=
  let col := square_col num_colors i in
  let x := col * square_width num_colors in
  if col <? remaining_width_per_row num_colors then x + col
  else x + remaining_width_per_row num_colors.

Definition current_square_width (num_colors i : Z) : Z :=
  let col := square_col num_colors i in
  if col <? remaining_width_per_row num_colors
  then square_width num_colors + 1
  else square_width num_colors.

(** ** [process_hex_file]: the canvas *)

(** [canvas.paste(img, (x, y))]. *)
Record paste : Type := Paste { pasted : image; at_x : Z; at_y : Z }.

(** The canvas is the white image it starts as, followed by the pastes
    made on it, in order. *)
Record canvas : Type := Canvas { background : image; pastes : list paste }.

Definition new_canvas : canvas :=
  Canvas (Solid canvas_size canvas_size (255, 255, 255)) [].

Definition canvas_paste (cv : canvas) (img : image) (x y : Z) : canvas :=
  Canvas (background cv) (pastes cv ++ [Paste img x y]).

(** The body of the loop that draws the colour grid. *)
Definition draw_square (num_colors sq_height : Z) (entry : Z * color)
  (cv : canvas) : canvas :=
  let '(i, c) := entry in
  let y := square_row num_colors i * sq_height in
  let square := Solid (current_square_width num_colors i) sq_height c in
  canvas_paste cv square (square_x num_colors i) y.

(** [l[:k]]. *)
Definition slice_to {A : Type} (l : list A) (k : Z) : list A :=
  firstn (Z.to_nat (if k <? 0 then Z.max 0 (k + len l) else k)) l.

Definition is_empty {A : Type} (l : list A) : bool :=
  match l with [] => true | _ :: _ => false end.

(** What the script makes observable: the lines it prints and the images
    it saves. *)
Inductive event : Type :=
| Print (text : string)
| Save (path : string) (img : canvas).

Section Script.

(** The module [random] is a source of choices with a state of its own. *)
Variable rng : Type.
Variable random_choice : list color -> rng -> color * rng.
Variable random_randint : Z -> Z -> rng -> Z * rng.
Variable random_sample : list color -> Z -> rng -> list color * rng.

(** The body of the loop over the first row of bottom gradients. *)
Definition neighbor_gradient (rgb_colors : list color) (i : Z)
  (st : canvas * rng) : result (canvas * rng) :=
  let '(cv, g) := st in
  let '(start_color, g) := random_choice rgb_colors g in
  let '(max_neighbors, g) := random_randint 1 3 g in
  let '(min_distance, g) := random_randint 2 4 g in
  neighbors <-
    find_neighbors start_color rgb_colors max_neighbors min_distance ;;
  let '(gradient_colors, g) :=
    if is_empty neighbors then ([start_color], g)
    else
      let '(k, g) := random_randint 1 (Z.min 2 (len neighbors)) g in
      (start_color :: slice_to neighbors k, g) in
  gradient <-
    create_gradient gradient_colors gradient_width gradient_height true ;;
  Ok (canvas_paste cv gradient ((i + 1) * gradient_width) gradient_start_y,
      g).

(** The body of the loop over the second row of bottom gradients. *)
Definition random_gradient (rgb_colors : list color) (i : Z)
  (st : canvas * rng) : result (canvas * rng) :=
  let '(cv, g) := st in
  let '(num_random_colors, g) := random_randint 2 3 g in
  let '(gradient_colors, g) :=
    random_sample rgb_colors (Z.min num_random_colors (len rgb_colors)) g in
  gradient <-
    create_gradient gradient_colors gradient_width gradient_height true ;;
  Ok (canvas_paste cv gradient (i * gradient_width)
        (gradient_start_y + gradient_height),
      g).

(** From the creation of the canvas to the last paste, for a palette that
    is not empty. *)
Definition compose_atlas (rgb_colors : list color) (g : rng)
  : result (canvas * rng) :=
  let cv := new_canvas in
  let num_colors := len rgb_colors in
  sq_height <- square_height num_colors ;;
  let cv :=
    fold_left (fun cv entry => draw_square num_colors sq_height entry cv)
              (enumerate rgb_colors) cv in
  main_gradient <-
    create_gradient rgb_colors actual_main_gradient_width canvas_size true ;;
  let cv := canvas_paste cv main_gradient total_gradient_width 0 in
  '(darkest, lightest) <- get_lightest_darkest rgb_colors ;;
  first_gradient <-
    create_gradient [lightest; darkest] gradient_width gradient_height true ;;
  let cv := canvas_paste cv first_gradient 0 gradient_start_y in
  st <- for_each (py_range 0 num_gradients)
          (neighbor_gradient rgb_colors) (cv, g) ;;
  for_each (py_range 0 (num_gradients + 1))
    (random_gradient rgb_colors) st.

Definition output_path (hex_file_path : string) : string :=
  (splitext_root (basename hex_file_path) ++ "-cta.png")%string.

(** A run yields the events it caused and either the state of [random]
    it ends in or the exception that ended it.  [lines] is what iterating
    over the open file gives. *)
Definition process_hex_file (hex_file_path : string) (lines : list string)
  (g : rng) : list event * result rng :=
  match load_palette lines with
  | Raise e => ([], Raise e)
  | Ok rgb_colors =>
      if is_empty rgb_colors then
        ([Print ("No valid colors found in " ++ hex_file_path)%string], Ok g)
      else
        match compose_atlas rgb_colors g with
        | Raise e => ([], Raise e)
        | Ok (cv, g') =>
            ([Save (output_path hex_file_path) cv;
              Print ("Created texture atlas: "
                       ++ output_path hex_file_path)%string],
             Ok g')
        end
  end.

(** ** [main] *)

(** The loop over the files: each is a path with the lines it holds. *)
Fixpoint process_files (hex_files : list (string * list string)) (g : rng)
  : list event * result rng :=
  match hex_files with
  | [] => ([], Ok g)
  | (hex_file, lines) :: rest =>
      let announce := Print ("Processing " ++ hex_file ++ "...")%string in
      match process_hex_file hex_file lines g with
      | (events, Raise e) => (announce :: events, Raise e)
      | (events, Ok g') =>
          let '(events', r) := process_files rest g' in
          (announce :: events ++ events', r)
      end
  end.

(** [hex_files] is what [glob.glob] finds. *)
Definition main (hex_files : list (string * list string)) (g : rng)
  : list event * result rng :=
  if is_empty hex_files then
    ([Print "No .hex files found in the current directory"%string], Ok g)
  else process_files hex_files g.

End Script.

(* ================================================================= *)
(** * Part III: the vocabulary of the specification *)

(** ** Colours and palettes *)

(** A channel as the data model has it: an integer in [0, 255]. *)
Definition byte (c : Z) : Prop := 0 <= c <= 255.

Definition byte_color (c : color) : Prop :=
  let '(r, g, b) := c in byte r /\ byte g /\ byte b.

(** The colours [find_neighbors] ranks: those of the palette that differ
    from the target. *)
Definition candidates (target_color : color) (colors : list color)
  : list color :=
  filter (fun c => negb (color_eqb c target_color)) colors.

(** The square of the Euclidean distance of two colours. *)
Definition dist2 (c1 c2 : color) : Z :=
  let '(r1, g1, b1) := c1 in
  let '(r2, g2, b2) := c2 in
  (r1 - r2) ^ 2 + (g1 - g2) ^ 2 + (b1 - b2) ^ 2.

(** [c1 <= c2] on tuples. *)
Definition color_le (c1 c2 : color) : Prop :=
  c1 = c2 \/ color_ltb c1 c2 = true.

(** The order [distances.sort()] leaves two entries in: by distance, and
    by colour when the distances are equal. *)
Definition entry_le (e1 e2 : float * color) : Prop :=
  float_lt (fst e1) (fst e2) = true
  \/ (float_eq (fst e1) (fst e2) = true /\ color_le (snd e1) (snd e2)).

(** The same order, told by the exact distances to the target. *)
Definition nearer_or_tied (target_color c1 c2 : color) : Prop :=
  dist2 target_color c1 < dist2 target_color c2
  \/ (dist2 target_color c1 = dist2 target_color c2 /\ color_le c1 c2).

(** ** The colour grid *)

Definition Zsum (l : list Z) : Z := fold_right Z.add 0 l.

(** The widths of the squares of one full row of the grid, from left to
    right. *)
Definition row_widths (num_colors row : Z) : list Z :=
  map (current_square_width num_colors)
      (py_range (row * grid_cols num_colors)
                ((row + 1) * grid_cols num_colors)).

(** ** The gradient, in the words of the specification *)

(** [pos]: the index over the last index of the axis, and [0] on an axis
    of length one. *)
Definition spec_position (axis_length index : Z) : result float :=
  if axis_length =? 1 then Ok lit_0_0
  else int_truediv index (axis_length - 1).

(** The pixel of column [x] and row [y] as the specification computes it:
    the segment is the floor of [pos / segment_size], clamped, and each
    channel is the truncated linear mix of the two colours of the
    segment. *)
Definition spec_pixel (colors : list color) (width height : Z)
  (vertical : bool) (x y : Z) : result color :=
  pos <- (if vertical then spec_position height y
          else spec_position width x) ;;
  n1 <- float_of_int (len colors - 1) ;;
  segment_size <- float_truediv lit_1_0 n1 ;;
  q <- float_truediv pos segment_size ;;
  fl <- math_floor q ;;
  let segment := Z.min fl (len colors - 2) in
  fseg <- float_of_int segment ;;
  local_pos <-
    float_truediv (float_sub pos (float_mul fseg segment_size)) segment_size ;;
  color1 <- py_getitem colors segment ;;
  color2 <- py_getitem colors (segment + 1) ;;
  r <- interpolate (fst (fst color1)) (fst (fst color2)) local_pos ;;
  g <- interpolate (snd (fst color1)) (snd (fst color2)) local_pos ;;
  b <- interpolate (snd color1) (snd color2) local_pos ;;
  Ok (r, g, b).

(** The buffer in row-major order: the pixel of index [i] is the one of
    column [i mod width] and row [i / width]. *)
Definition spec_buffer (colors : list color) (width height : Z)
  (vertical : bool) : result (list color) :=
  mapM (fun i => spec_pixel colors width height vertical
                   (i mod width) (i / width))
       (py_range 0 (width * height)).

(** ** The values of floating-point numbers *)

(** The exponent of the last place of a number of magnitude [2^e]. *)
Definition fexp64 (e : Z) : Z := Z.max (e - 53) (-1074).

Definition exact_record (r : shr_record) : Prop :=
  shr_r r = false /\ shr_s r = false.

Definition mk_float (s : bool) (m e : Z) : float :=
  match m with
  | Z0 => S754_zero s
  | Zpos p => S754_finite s p e
  | Zneg _ => S754_nan
  end.

Definition bpow (e : Z) : R := powerRZ 2 e.

(** The real number a float stands for. *)
Definition F2R (x : float) : R :=
  match x with
  | S754_finite s m e => (IZR (cond_Zopp s (Zpos m)) * bpow e)%R
  | _ => 0%R
  end.

(** Finite and in canonical form. *)
Definition ok_float (x : float) : Prop :=
  match x with
  | S754_zero _ => True
  | S754_finite _ m e => fexp64 (Zdigits2 (Zpos m) + e) = e /\ e <= 971
  | _ => False
  end.

(** Not a negative number. *)
Definition sign_ok (x : float) : Prop :=
  match x with
  | S754_finite true _ _ => False
  | _ => True
  end.

(** What a distance can be: zero, a positive number or plus infinity. *)
Definition dist_float (x : float) : Prop :=
  match x with
  | S754_zero _ | S754_finite false _ _ | S754_infinity false => True
  | _ => False
  end.

(** A key that orders such numbers as [<] does. *)
Definition fkey (x : float) : Z * Z * Z :=
  match x with
  | S754_zero _ => (0, 0, 0)
  | S754_finite _ m e => (1, e, Zpos m)
  | S754_infinity _ => (2, 0, 0)
  | S754_nan => (3, 0, 0)
  end.

Definition lex3 (k1 k2 : Z * Z * Z) : Prop :=
  fst (fst k1) < fst (fst k2)
  \/ (fst (fst k1) = fst (fst k2)
      /\ (snd (fst k1) < snd (fst k2)
          \/ (snd (fst k1) = snd (fst k2) /\ snd k1 < snd k2))).

(** An entry of [distances] with a distance of that kind. *)
Definition dist_entry (e : float * color) : Prop := dist_float (fst e).

(** A source of choices for the examples: it always takes the first. *)
Definition first_choice (colors : list color) (g : unit) : color * unit :=
  (hd (0, 0, 0) colors, g).
Definition lowest_int (a b : Z) (g : unit) : Z * unit := (a, g).
Definition first_sample (colors : list color) (k : Z) (g : unit)
  : list color * unit :=
  (firstn (Z.to_nat k) colors, g).

(** ** Luminance *)

(** [c1] has a lower luminance than [c2], and [c1] has a luminance that is
    not above the one of [c2], by the luminance and the comparison of
    [get_lightest_darkest]. *)
Definition darker (c1 c2 : color) : Prop :=
  exists l1 l2,
    luminance c1 = Ok l1 /\ luminance c2 = Ok l2 /\ float_lt l1 l2 = true.

Definition not_lighter (c1 c2 : color) : Prop :=
  exists l1 l2,
    luminance c1 = Ok l1 /\ luminance c2 = Ok l2 /\ float_lt l2 l1 = false.

(** ** The atlas *)

Definition image_width (img : image) : Z :=
  match img with Solid w _ _ | Pixels w _ _ => w end.

Definition image_height (img : image) : Z :=
  match img with Solid _ h _ | Pixels _ h _ => h end.

(** The rectangle a paste covers lies within the canvas. *)
Definition inside_canvas (p : paste) : Prop :=
  0 <= at_x p /\ 0 <= at_y p
  /\ at_x p + image_width (pasted p) <= canvas_size
  /\ at_y p + image_height (pasted p) <= canvas_size.

(** The rectangles of two pastes have no pixel in common. *)
Definition apart (p q : paste) : Prop :=
  at_x p + image_width (pasted p) <= at_x q
  \/ at_x q + image_width (pasted q) <= at_x p
  \/ at_y p + image_height (pasted p) <= at_y q
  \/ at_y q + image_height (pasted q) <= at_y p.

(** The square of the colour [c] of index [i]. *)
Definition square_paste (num_colors sq_height : Z) (entry : Z * color)
  : paste :=
  Paste (Solid (current_square_width num_colors (fst entry)) sq_height
               (snd entry))
        (square_x num_colors (fst entry))
        (square_row num_colors (fst entry) * sq_height).

(** The bottom gradients form a table of two rows of twelve cells. *)
Definition gradient_cell (column row : Z) (data : list color) : paste :=
  Paste (Pixels gradient_width gradient_height data)
        (column * gradient_width)
        (gradient_start_y + row * gradient_height).

(** What the script relies on of the module [random]: [choice] returns an
    element of the list, [randint] an integer of the range, and [sample]
    as many elements of the list as asked. *)
Definition random_module (rng : Type)
  (random_choice : list color -> rng -> color * rng)
  (random_randint : Z -> Z -> rng -> Z * rng)
  (random_sample : list color -> Z -> rng -> list color * rng) : Prop :=
  (forall l g, l <> [] -> In (fst (random_choice l g)) l)
  /\ (forall a b g, a <= b -> a <= fst (random_randint a b g) <= b)
  /\ (forall l k g, 0 <= k <= len l ->
        len (fst (random_sample l k g)) = k
        /\ incl (fst (random_sample l k g)) l).

(** A line of six hexadecimal digits. *)
Definition hex_line (s : string) : Prop :=
  exists c0 c1 c2 c3 c4 c5,
    s = String c0 (String c1 (String c2 (String c3
          (String c4 (String c5 EmptyString)))))
    /\ Forall (fun c => hex_digit c <> None) [c0; c1; c2; c3; c4; c5].

(** The string [s] does not hold the character of code [n]. *)
Definition without (n : Z) (s : string) : Prop :=
  Forall (fun c => is_char n c = false) (list_ascii_of_string s).

(** A channel as [hex_to_rgb] can return it. *)
Definition wide_channel (v : Z) : Prop := -15 <= v <= 255.

Definition wide_color (c : color) : Prop :=
  let '(r, g, b) := c in wide_channel r /\ wide_channel g /\ wide_channel b.

(** The paths of the images a run saves, in order. *)
Definition saved_paths (events : list event) : list string :=
  flat_map (fun ev => match ev with Save p _ => [p] | Print _ => [] end)
           events.

(** The bound on the error of one rounding of the real [v]. *)
Definition rnd_err (v : R) : R := (Rabs v * bpow (-52) + bpow (-1074))%R.

Definition eps : R := (/ 4503599627370496)%R.
Definition tiny : R := (/ 1267650600228229401496703205376)%R.
Definition tau : R := (/ 512)%R.

Ltac flra := unfold eps, tiny, tau in *; lra.

(** The layout in numbers, for linear arithmetic on rectangles. *)
Ltac layout_numbers :=
  change gradient_width with 162 in *;
  change gradient_height with 724 in *;
  change total_gradient_width with 1944 in *;
  change gradient_start_y with 600 in *;
  change canvas_size with 2048 in *;
  change actual_main_gradient_width with 104 in *;
  change num_gradients with 11 in *.

Ltac geom :=
  unfold inside_canvas, apart, gradient_cell, square_paste in *;
  cbn [at_x at_y pasted image_width image_height fst snd] in *;
  layout_numbers; lia.

(* ================================================================= *)
(** * Part IV: binary64 arithmetic *)

(** The operations of [SpecFloat] round to nearest.  This part relates
    their results to the real numbers: an operation whose exact result [v]
    is below [2^1023] in magnitude returns a finite number within
    [rnd_err v] of [v]. *)

(** ** Mantissas and their number of digits *)

Lemma fexp64_eq e : fexp prec emax e = fexp64 e.
Proof. reflexivity. Qed.

Lemma digits2_pos_size p : digits2_pos p = Pos.size p.
Proof. induction p; simpl; congruence. Qed.

Lemma Zdigits2_log2 m : 0 < m -> Zdigits2 m = Z.log2 m + 1.
Proof.
  destruct m as [|p|p]; try lia; intros _.
  destruct p; simpl; rewrite ?digits2_pos_size; lia.
Qed.

Lemma Zdigits2_bounds m : 0 < m -> 2 ^ (Zdigits2 m - 1) <= m < 2 ^ Zdigits2 m.
Proof.
  intros H. rewrite (Zdigits2_log2 H).
  replace (Z.log2 m + 1 - 1) with (Z.log2 m) by lia.
  replace (Z.log2 m + 1) with (Z.succ (Z.log2 m)) by lia.
  apply Z.log2_spec; exact H.
Qed.

Lemma Zdigits2_unique m k : 0 < m -> 2 ^ (k - 1) <= m < 2 ^ k -> Zdigits2 m = k.
Proof.
  intros Hm [Hlo Hhi].
  assert (Hk : 1 <= k).
  { destruct (Z_lt_le_dec k 1) as [Hk|Hk]; [|exact Hk].
    exfalso. assert (2 ^ k <= 2 ^ 0).
    { destruct (Z_lt_le_dec k 0) as [Hn|Hn].
      - rewrite (Z.pow_neg_r 2 k Hn). simpl; lia.
      - apply Z.pow_le_mono_r; lia. }
    simpl in *; lia. }
  rewrite (Zdigits2_log2 Hm).
  assert (Z.log2 m = k - 1); [|lia].
  apply Z.log2_unique; [lia|]. replace (Z.succ (k - 1)) with k by lia. lia.
Qed.

Lemma Zdigits2_nonneg m : 0 <= Zdigits2 m.
Proof. destruct m; simpl; lia. Qed.

Lemma Zdigits2_pos m : 0 < m -> 1 <= Zdigits2 m.
Proof. destruct m; simpl; lia. Qed.

Lemma iter_twice (A : Type) (f : A -> A) n x :
  Nat.iter n f (Nat.iter n f x) = Nat.iter (n + n) f x.
Proof. symmetry; apply Nat.iter_add. Qed.

Lemma iter_pos_nat (A : Type) (f : A -> A) p x :
  iter_pos f p x = Nat.iter (Pos.to_nat p) f x.
Proof.
  revert x; induction p as [p IH|p IH|]; intros x.
  - change (iter_pos f p~1 x) with (iter_pos f p (iter_pos f p (f x))).
    rewrite !IH, iter_twice, <- Nat.iter_succ_r.
    f_equal. rewrite Pos2Nat.inj_xI. lia.
  - change (iter_pos f p~0 x) with (iter_pos f p (iter_pos f p x)).
    rewrite !IH, iter_twice. f_equal. rewrite Pos2Nat.inj_xO. lia.
  - reflexivity.
Qed.

Lemma shr_1_m r : 0 <= shr_m r -> shr_m (shr_1 r) = shr_m r / 2.
Proof.
  destruct r as [m rb sb]; simpl; intros H.
  destruct m as [|p|p]; try lia.
  - reflexivity.
  - destruct p; simpl shr_m.
    + rewrite Pos2Z.inj_xI. apply Z.div_unique with 1; lia.
    + rewrite Pos2Z.inj_xO. apply Z.div_unique with 0; lia.
    + reflexivity.
Qed.

Lemma shr_iter_m n r :
  0 <= shr_m r -> shr_m (Nat.iter n shr_1 r) = shr_m r / 2 ^ Z.of_nat n.
Proof.
  intros H; induction n as [|n IH].
  - simpl. rewrite Z.div_1_r. reflexivity.
  - rewrite Nat2Z.inj_succ, Z.pow_succ_r by lia. simpl Nat.iter.
    rewrite shr_1_m.
    + rewrite IH, Z.div_div by (try apply Z.pow_pos_nonneg; lia).
      rewrite Z.mul_comm. reflexivity.
    + rewrite IH. apply Z.div_pos; [exact H | apply Z.pow_pos_nonneg; lia].
Qed.


Lemma shr_1_exact r :
  0 <= shr_m r -> exact_record r -> shr_m r mod 2 = 0 -> exact_record (shr_1 r).
Proof.
  destruct r as [m rb sb]; simpl; intros H [Hr Hs] Hm; simpl in *; subst.
  destruct m as [|p|p]; try lia.
  - split; reflexivity.
  - destruct p; simpl.
    + rewrite Pos2Z.inj_xI in Hm. exfalso.
      rewrite Z.add_comm, Z.mul_comm, Z.mod_add in Hm by lia. discriminate.
    + split; reflexivity.
    + discriminate.
Qed.

Lemma shr_iter_exact n r :
  0 <= shr_m r -> exact_record r -> shr_m r mod 2 ^ Z.of_nat n = 0 ->
  exact_record (Nat.iter n shr_1 r).
Proof.
  intros H He; induction n as [|n IH]; intros Hm.
  - exact He.
  - rewrite Nat2Z.inj_succ, Z.pow_succ_r in Hm by lia.
    assert (Hp : 0 < 2 ^ Z.of_nat n) by (apply Z.pow_pos_nonneg; lia).
    simpl Nat.iter.
    assert (Hd : shr_m r = 2 * 2 ^ Z.of_nat n * (shr_m r / (2 * 2 ^ Z.of_nat n))).
    { apply Z.div_exact in Hm; lia. }
    apply shr_1_exact.
    + rewrite shr_iter_m by exact H. apply Z.div_pos; lia.
    + apply IH. rewrite Hd.
      replace (2 * 2 ^ Z.of_nat n * (shr_m r / (2 * 2 ^ Z.of_nat n)))
        with ((2 * (shr_m r / (2 * 2 ^ Z.of_nat n))) * 2 ^ Z.of_nat n) by ring.
      apply Z.mod_mul; lia.
    + rewrite shr_iter_m by exact H.
      rewrite Hd at 1.
      replace (2 * 2 ^ Z.of_nat n * (shr_m r / (2 * 2 ^ Z.of_nat n)))
        with ((2 * (shr_m r / (2 * 2 ^ Z.of_nat n))) * 2 ^ Z.of_nat n) by ring.
      rewrite Z.div_mul by lia. rewrite Z.mul_comm. apply Z.mod_mul; lia.
Qed.

Lemma round_nearest_even_cases r :
  let m' := round_nearest_even (shr_m r) (loc_of_shr_record r) in
  m' = shr_m r \/ m' = shr_m r + 1.
Proof.
  destruct r as [m [|] [|]]; simpl; auto.
  destruct (Z.even m); auto.
Qed.

Lemma round_nearest_even_exact r :
  exact_record r ->
  round_nearest_even (shr_m r) (loc_of_shr_record r) = shr_m r.
Proof. destruct r as [m rb sb]; intros [Hr Hs]; simpl in *; subst; reflexivity. Qed.

Lemma shr_record_of_loc_m m l : shr_m (shr_record_of_loc m l) = m.
Proof. destruct l as [|[| |]]; reflexivity. Qed.

Lemma shr_record_of_loc_exact m : exact_record (shr_record_of_loc m loc_Exact).
Proof. split; reflexivity. Qed.

(** [shr] with a non-negative mantissa. *)
Lemma shr_spec r e n :
  0 <= shr_m r ->
  let '(r', e') := shr r e n in
  shr_m r' = shr_m r / 2 ^ Z.max n 0 /\ e' = e + Z.max n 0 /\ 0 <= shr_m r'
  /\ (exact_record r -> shr_m r mod 2 ^ Z.max n 0 = 0 -> exact_record r').
Proof.
  intros H. destruct n as [|p|p]; simpl shr.
  - cbn [Z.max Z.compare]. rewrite Z.div_1_r.
    split; [reflexivity|]. split; [lia|]. split; [exact H|]. intros He _; exact He.
  - rewrite iter_pos_nat.
    replace (Z.max (Zpos p) 0) with (Z.of_nat (Pos.to_nat p)) by lia.
    rewrite shr_iter_m by exact H.
    split; [reflexivity|]. split; [lia|]. split.
    + apply Z.div_pos; [exact H | apply Z.pow_pos_nonneg; lia].
    + intros; apply shr_iter_exact; assumption.
  - replace (Z.max (Zneg p) 0) with 0 by lia. rewrite Z.div_1_r.
    split; [reflexivity|]. split; [lia|]. split; [exact H|]. intros He _; exact He.
Qed.

Lemma pow2_pos k : 0 <= k -> 0 < 2 ^ k.
Proof. intros; apply Z.pow_pos_nonneg; lia. Qed.

Lemma pow2_lt_inv a b : 0 <= b -> 2 ^ a < 2 ^ b -> a < b.
Proof. intros Hb H. apply (Z.pow_lt_mono_r_iff 2); try lia. Qed.

Lemma pow2_split a b : 0 <= a -> 0 <= b -> 2 ^ (a + b) = 2 ^ a * 2 ^ b.
Proof. intros; apply Z.pow_add_r; assumption. Qed.

Lemma div_pow2_digits m n :
  0 < m -> 0 <= n -> 0 < m / 2 ^ n -> Zdigits2 (m / 2 ^ n) = Zdigits2 m - n.
Proof.
  intros Hm Hn Hq.
  pose proof (Zdigits2_bounds Hm) as [Hlo Hhi].
  pose proof (pow2_pos Hn) as Hp.
  assert (Hge : 2 ^ n <= m).
  { destruct (Z_lt_le_dec m (2 ^ n)) as [Hlt|Hle]; [|exact Hle].
    rewrite Z.div_small in Hq by lia. lia. }
  assert (Hd : n < Zdigits2 m).
  { apply pow2_lt_inv; [apply Zdigits2_nonneg | lia]. }
  apply Zdigits2_unique; [exact Hq|]. split.
  - apply Z.div_le_lower_bound; [exact Hp|].
    rewrite <- pow2_split by lia.
    replace (n + (Zdigits2 m - n - 1)) with (Zdigits2 m - 1) by lia. exact Hlo.
  - apply Z.div_lt_upper_bound; [exact Hp|].
    rewrite <- pow2_split by lia.
    replace (n + (Zdigits2 m - n)) with (Zdigits2 m) by lia. exact Hhi.
Qed.

Lemma div_pow2_zero m n :
  0 <= m -> 0 <= n -> m / 2 ^ n = 0 -> Zdigits2 m <= n.
Proof.
  intros Hm Hn Hq.
  destruct (Z.eq_dec m 0) as [->|Hne]; [simpl; lia|].
  assert (Hpos : 0 < m) by lia.
  pose proof (Zdigits2_bounds Hpos) as [Hlo Hhi].
  pose proof (pow2_pos Hn) as Hp.
  assert (Hlt : m < 2 ^ n).
  { destruct (Z_lt_le_dec m (2 ^ n)) as [Hlt|Hle]; [exact Hlt|].
    assert (1 <= m / 2 ^ n); [|lia].
    apply Z.div_le_lower_bound; lia. }
  pose proof (Zdigits2_pos Hpos).
  assert (Zdigits2 m - 1 < n); [|lia].
  apply pow2_lt_inv; lia.
Qed.


Lemma succ_digits m :
  0 < m -> Zdigits2 (m + 1) = Zdigits2 m
           \/ (Zdigits2 (m + 1) = Zdigits2 m + 1 /\ m + 1 = 2 ^ Zdigits2 m).
Proof.
  intros Hm. pose proof (Zdigits2_bounds Hm) as [Hlo Hhi].
  pose proof (Zdigits2_pos Hm) as Hd.
  destruct (Z.eq_dec (m + 1) (2 ^ Zdigits2 m)) as [He|Hne].
  - right. split; [|exact He]. apply Zdigits2_unique; [lia|].
    replace (Zdigits2 m + 1 - 1) with (Zdigits2 m) by lia.
    rewrite Z.pow_add_r by lia. simpl. lia.
  - left. apply Zdigits2_unique; lia.
Qed.

Lemma binary_round_aux_spec s mx ex lx :
  0 <= mx ->
  ex <= fexp64 (Zdigits2 mx + ex) -> Zdigits2 mx + ex <= 1023 ->
  exists m3 e3,
    binary_round_aux prec emax s mx ex lx = mk_float s m3 e3
    /\ 0 <= m3
    /\ (m3 * 2 ^ (e3 - fexp64 (Zdigits2 mx + ex))
          = mx / 2 ^ (fexp64 (Zdigits2 mx + ex) - ex)
        \/ m3 * 2 ^ (e3 - fexp64 (Zdigits2 mx + ex))
          = mx / 2 ^ (fexp64 (Zdigits2 mx + ex) - ex) + 1)
    /\ fexp64 (Zdigits2 mx + ex) <= e3 <= fexp64 (Zdigits2 mx + ex) + 1
    /\ (0 < m3 -> fexp64 (Zdigits2 m3 + e3) = e3 /\ e3 <= 971)
    /\ (lx = loc_Exact -> mx mod 2 ^ (fexp64 (Zdigits2 mx + ex) - ex) = 0 ->
        m3 * 2 ^ (e3 - fexp64 (Zdigits2 mx + ex))
          = mx / 2 ^ (fexp64 (Zdigits2 mx + ex) - ex)).
Proof.
  intros Hmx Hex HM.
  set (M := Zdigits2 mx + ex) in *.
  set (e1 := fexp64 M) in *.
  set (n := e1 - ex) in *.
  set (m1 := mx / 2 ^ n).
  assert (Hn : 0 <= n) by (unfold n; lia).
  assert (Hm1 : 0 <= m1) by (apply Z.div_pos; [exact Hmx | apply pow2_pos; exact Hn]).
  (* first shift *)
  unfold binary_round_aux, shr_fexp. rewrite !fexp64_eq.
  fold M. fold e1. fold n.
  pose proof (@shr_spec (shr_record_of_loc mx lx) ex n) as Hs1.
  rewrite shr_record_of_loc_m in Hs1. specialize (Hs1 Hmx).
  destruct (shr (shr_record_of_loc mx lx) ex n) as [r1 e1'].
  replace (Z.max n 0) with n in Hs1 by lia.
  destruct Hs1 as (Hr1 & He1' & Hr1pos & Hexact1).
  assert (He1 : e1' = e1) by (unfold n in He1'; lia). clear He1'. subst e1'.
  fold m1 in Hr1.
  (* rounding *)
  pose proof (round_nearest_even_cases r1) as Hrnd. cbv zeta in Hrnd.
  set (m2 := round_nearest_even (shr_m r1) (loc_of_shr_record r1)) in *.
  rewrite Hr1 in Hrnd.
  assert (Hm2 : 0 <= m2) by lia.
  (* what the first shift leaves *)
  assert (Hcase : (m1 = 0 /\ e1 = -1074) \/ (0 < m1 /\ Zdigits2 m1 + e1 = M)).
  { destruct (Z.eq_dec m1 0) as [Hz|Hnz].
    - left. split; [exact Hz|].
      pose proof (div_pow2_zero Hmx Hn Hz) as Hd.
      unfold n, e1, M, fexp64 in *. lia.
    - right. assert (Hp : 0 < m1) by lia. split; [exact Hp|].
      assert (Hmxp : 0 < mx).
      { destruct (Z.eq_dec mx 0) as [Hz|Hz]; [|lia].
        unfold m1 in Hp. rewrite Hz, Z.div_0_l in Hp; [lia|].
        pose proof (pow2_pos Hn); lia. }
      unfold m1. rewrite (div_pow2_digits Hmxp Hn Hp). unfold n, M. lia. }
  (* second shift *)
  set (n2 := fexp64 (Zdigits2 m2 + e1) - e1).
  assert (Hn2 : (n2 = 0 /\ (0 < m2 -> fexp64 (Zdigits2 m2 + e1) = e1))
                \/ (n2 = 1 /\ 0 < m2 /\ m2 = 2 * 2 ^ (Zdigits2 m2 - 2)
                    /\ 2 <= Zdigits2 m2)).
  { unfold n2.
    destruct Hcase as [[Hz He]|[Hp Hd]].
    - (* everything was shifted out *)
      left. destruct Hrnd as [Hm|Hm]; rewrite Hm, Hz; simpl Zdigits2;
        unfold fexp64; rewrite He; split; lia.
    - destruct Hrnd as [Hm|Hm].
      + left. rewrite Hm, Hd. fold e1. split; lia.
      + rewrite Hm.
        destruct (succ_digits Hp) as [Hsame|[Hmore Hpow]].
        * left. rewrite Hsame, Hd. fold e1. split; lia.
        * rewrite Hmore.
          replace (Zdigits2 m1 + 1 + e1) with (M + 1) by lia.
          pose proof (Zdigits2_pos Hp) as Hd1.
          destruct (Z.eq_dec (fexp64 (M + 1)) e1) as [Heq|Hneq].
          -- left. split; lia.
          -- right. split; [unfold e1, fexp64 in *; lia|].
             split; [lia|]. split; [|lia].
             rewrite Hpow.
             replace (Zdigits2 m1 + 1 - 2) with (Zdigits2 m1 - 1) by lia.
             rewrite <- Z.pow_succ_r by lia. f_equal; lia. }
  pose proof (@shr_spec (shr_record_of_loc m2 loc_Exact) e1 n2) as Hs2.
  rewrite shr_record_of_loc_m in Hs2. specialize (Hs2 Hm2).
  change (fexp prec emax (Zdigits2 m2 + e1) - e1) with n2.
  destruct (shr (shr_record_of_loc m2 loc_Exact) e1 n2) as [r2 e2].
  destruct Hs2 as (Hr2 & He2 & Hr2pos & _).
  exists (shr_m r2), e2.
  assert (Hout : match shr_m r2 with
                 | 0 => S754_zero s
                 | Z.pos m => if e2 <=? emax - prec then S754_finite s m e2
                              else S754_infinity s
                 | Z.neg _ => S754_nan
                 end = mk_float s (shr_m r2) e2
                 /\ (0 < shr_m r2 -> fexp64 (Zdigits2 (shr_m r2) + e2) = e2 /\ e2 <= 971)
                 /\ shr_m r2 * 2 ^ (e2 - e1) = m2 /\ e1 <= e2 <= e1 + 1).
  { assert (He1b : e1 <= 970) by (unfold e1, fexp64; lia).
    destruct Hn2 as [[Hz Hcan]|(Hone & Hp2 & Hpow & Hd2)].
    - rewrite Hz in Hr2, He2. cbn [Z.max Z.compare] in Hr2, He2.
      rewrite Z.div_1_r in Hr2. rewrite Z.add_0_r in He2. subst e2. rewrite Hr2.
      replace (e1 - e1) with 0 by lia. rewrite Z.mul_1_r.
      split; [|split; [|split; [reflexivity | lia]]].
      + destruct m2; try reflexivity. unfold mk_float.
        replace (e1 <=? emax - prec) with true; [reflexivity|].
        symmetry; apply Z.leb_le. unfold emax, prec; lia.
      + intros Hp. split; [apply Hcan; exact Hp | lia].
    - rewrite Hone in Hr2, He2. cbn [Z.max Z.compare] in Hr2, He2.
      change (2 ^ 1) with 2 in Hr2.
      assert (Hhalf : m2 / 2 = 2 ^ (Zdigits2 m2 - 2)).
      { rewrite Hpow at 1. rewrite Z.mul_comm, Z.div_mul by lia. reflexivity. }
      rewrite Hhalf in Hr2.
      pose proof (@pow2_pos (Zdigits2 m2 - 2)) as Hpp. specialize (Hpp ltac:(lia)).
      subst e2. rewrite Hr2.
      replace (e1 + 1 - e1) with 1 by lia. change (2 ^ 1) with 2.
      split; [|split; [|split; [lia | lia]]].
      + destruct (2 ^ (Zdigits2 m2 - 2)) eqn:Hv; try lia. unfold mk_float.
        replace (e1 + 1 <=? emax - prec) with true; [reflexivity|].
        symmetry; apply Z.leb_le. unfold emax, prec; lia.
      + intros _. split; [|lia].
        assert (Hdig : Zdigits2 (2 ^ (Zdigits2 m2 - 2)) = Zdigits2 m2 - 1).
        { apply Zdigits2_unique; [lia|].
          replace (Zdigits2 m2 - 1 - 1) with (Zdigits2 m2 - 2) by lia.
          split; [lia|].
          replace (Zdigits2 m2 - 1) with (Z.succ (Zdigits2 m2 - 2)) by lia.
          rewrite Z.pow_succ_r by lia. lia. }
        rewrite Hdig. unfold n2 in Hone.
        replace (Zdigits2 m2 - 1 + (e1 + 1)) with (Zdigits2 m2 + e1) by lia. lia. }
  destruct Hout as (Hout & Hcan & Hval & He2b).
  split; [exact Hout|]. split; [exact Hr2pos|].
  split; [rewrite Hval; exact Hrnd|]. split; [exact He2b|]. split; [exact Hcan|].
  intros Hl Hmod. rewrite Hval. unfold m2.
  rewrite round_nearest_even_exact; [exact Hr1|].
  apply Hexact1; [subst lx; apply shr_record_of_loc_exact | exact Hmod].
Qed.

(** ** Rounding, over the reals *)

Local Open Scope R_scope.

Lemma bpow_pos e : 0 < bpow e.
Proof. apply powerRZ_lt; lra. Qed.

Lemma bpow_add a b : bpow (a + b) = bpow a * bpow b.
Proof. apply powerRZ_add; lra. Qed.

Lemma bpow_IZR k : (0 <= k)%Z -> bpow k = IZR (2 ^ k).
Proof.
  intros Hk. unfold bpow.
  rewrite <- (Z2Nat.id k Hk) at 1 2.
  rewrite <- pow_powerRZ, pow_IZR. reflexivity.
Qed.

Lemma bpow_0 : bpow 0 = 1.
Proof. unfold bpow; simpl; reflexivity. Qed.

Lemma bpow_ge_1 k : (0 <= k)%Z -> 1 <= bpow k.
Proof.
  intros Hk. rewrite (bpow_IZR Hk). apply IZR_le.
  pose proof (pow2_pos Hk). lia.
Qed.

Lemma bpow_le a b : (a <= b)%Z -> bpow a <= bpow b.
Proof.
  intros H. replace b with (a + (b - a))%Z by lia. rewrite bpow_add.
  pose proof (bpow_pos a). pose proof (@bpow_ge_1 (b - a) ltac:(lia)). nra.
Qed.

Lemma bpow_lt a b : (a < b)%Z -> bpow a < bpow b.
Proof.
  intros H. replace b with (a + (b - a))%Z by lia. rewrite bpow_add.
  pose proof (bpow_pos a).
  assert (2 <= bpow (b - a)).
  { rewrite bpow_IZR by lia. apply IZR_le.
    replace (b - a)%Z with (Z.succ (b - a - 1)) by lia.
    rewrite Z.pow_succ_r by lia.
    pose proof (@pow2_pos (b - a - 1) ltac:(lia)). lia. }
  nra.
Qed.

Lemma bpow_lt_inv a b : bpow a < bpow b -> (a < b)%Z.
Proof.
  intros H. destruct (Z_lt_le_dec a b) as [Hlt|Hle]; [exact Hlt|].
  pose proof (bpow_le Hle). lra.
Qed.

Lemma bpow_succ a : bpow (a + 1) = 2 * bpow a.
Proof. rewrite bpow_add. replace (bpow 1) with 2 by (unfold bpow; simpl; lra). ring. Qed.

Lemma bpow_opp a : bpow (- a) = / bpow a.
Proof. apply powerRZ_neg'. Qed.

Lemma F2R_mk_float s m e :
  (0 <= m)%Z -> F2R (mk_float s m e) = IZR (cond_Zopp s m) * bpow e.
Proof.
  intros H. destruct m as [|p|p]; try lia; simpl.
  - destruct s; simpl; ring.
  - reflexivity.
Qed.

Lemma IZR_cond_Zopp s m :
  IZR (cond_Zopp s m) = if s then - IZR m else IZR m.
Proof. destruct s; simpl; [apply opp_IZR | reflexivity]. Qed.

Lemma ok_mk_float s m e :
  (0 <= m)%Z ->
  ((0 < m)%Z -> fexp64 (Zdigits2 m + e) = e /\ (e <= 971)%Z) ->
  ok_float (mk_float s m e).
Proof.
  intros Hm H. destruct m as [|p|p]; try lia; simpl; auto.
  apply H; lia.
Qed.

(** Division by a power of two, over the reals. *)
Lemma div_pow2_R m n :
  (0 <= m)%Z -> (0 <= n)%Z ->
  IZR (m / 2 ^ n) * bpow n <= IZR m < (IZR (m / 2 ^ n) + 1) * bpow n.
Proof.
  intros Hm Hn. rewrite (bpow_IZR Hn).
  pose proof (pow2_pos Hn) as Hp.
  pose proof (Z.div_mod m (2 ^ n) ltac:(lia)) as Hdm.
  pose proof (Z.mod_pos_bound m (2 ^ n) Hp) as Hb.
  rewrite <- plus_IZR, <- !mult_IZR. split.
  - apply IZR_le. nia.
  - apply IZR_lt. nia.
Qed.

Lemma digits_bpow m :
  (0 < m)%Z -> bpow (Zdigits2 m - 1) <= IZR m < bpow (Zdigits2 m).
Proof.
  intros Hm. pose proof (Zdigits2_bounds Hm) as [Hlo Hhi].
  pose proof (Zdigits2_pos Hm).
  rewrite !bpow_IZR by lia. split; [apply IZR_le | apply IZR_lt]; assumption.
Qed.

(** The rounding step, over the reals: [v] is the magnitude to round, known
    through a mantissa [mx] at exponent [ex] that encloses it. *)
Lemma binary_round_aux_R s mx ex lx v :
  (0 <= mx)%Z ->
  (ex <= fexp64 (Zdigits2 mx + ex))%Z ->
  IZR mx * bpow ex <= v < (IZR mx + 1) * bpow ex ->
  v < bpow 1023 ->
  exists a,
    ok_float (binary_round_aux prec emax s mx ex lx)
    /\ F2R (binary_round_aux prec emax s mx ex lx) = (if s then - a else a)
    /\ 0 <= a
    /\ Rabs (a - v) <= bpow (fexp64 (Zdigits2 mx + ex))
    /\ bpow (fexp64 (Zdigits2 mx + ex)) <= rnd_err v
    /\ (lx = loc_Exact ->
        (mx mod 2 ^ (fexp64 (Zdigits2 mx + ex) - ex) = 0)%Z ->
        a = IZR mx * bpow ex).
Proof.
  intros Hmx Hex Hv Hmax.
  assert (HM : (Zdigits2 mx + ex <= 1023)%Z).
  { destruct (Z.eq_dec mx 0) as [->|Hne].
    - simpl in *. unfold fexp64 in Hex. lia.
    - assert (Hp : (0 < mx)%Z) by lia.
      pose proof (digits_bpow Hp) as [Hlo _].
      assert (bpow (Zdigits2 mx - 1 + ex) < bpow 1023).
      { rewrite bpow_add. pose proof (bpow_pos ex). nra. }
      apply bpow_lt_inv in H. lia. }
  destruct (binary_round_aux_spec s lx Hmx Hex HM)
    as (m3 & e3 & Hres & Hm3 & Hval & He3 & Hcan & Hexact).
  set (e1 := fexp64 (Zdigits2 mx + ex)) in *.
  set (n := (e1 - ex)%Z) in *.
  set (m1 := (mx / 2 ^ n)%Z) in *.
  assert (Hn : (0 <= n)%Z) by (unfold n; lia).
  exists (IZR m3 * bpow e3).
  rewrite Hres.
  assert (Ha : forall m2 : Z, (m3 * 2 ^ (e3 - e1))%Z = m2 ->
               IZR m3 * bpow e3 = IZR m2 * bpow e1).
  { intros m2 <-. rewrite mult_IZR, <- bpow_IZR by lia.
    replace e3 with (e3 - e1 + e1)%Z at 1 by lia. rewrite bpow_add. ring. }
  pose proof (div_pow2_R Hmx Hn) as [Hdlo Hdhi]. fold m1 in Hdlo, Hdhi.
  assert (Hbe : bpow e1 = bpow n * bpow ex).
  { rewrite <- bpow_add. f_equal. unfold n; lia. }
  pose proof (bpow_pos ex) as Hpex. pose proof (bpow_pos e1) as Hpe1.
  pose proof (bpow_pos n) as Hpn.
  assert (Hm1lo : IZR m1 * bpow e1 <= v) by (rewrite Hbe; nra).
  assert (Hm1hi : v < (IZR m1 + 1) * bpow e1).
  { rewrite Hbe.
    assert (IZR mx + 1 <= (IZR m1 + 1) * bpow n).
    { rewrite (bpow_IZR Hn) in *. rewrite <- !plus_IZR, <- mult_IZR in *.
      apply IZR_le. apply lt_IZR in Hdhi. lia. }
    nra. }
  assert (Hm1pos : 0 <= IZR m1).
  { apply IZR_le. apply Z.div_pos; [exact Hmx | apply pow2_pos; exact Hn]. }
  split; [apply ok_mk_float; assumption|].
  split; [rewrite F2R_mk_float, IZR_cond_Zopp by exact Hm3; destruct s; ring|].
  split; [apply Rmult_le_pos; [apply IZR_le; exact Hm3 | pose proof (bpow_pos e3); lra]|].
  split.
  - destruct Hval as [Hval|Hval]; rewrite (Ha _ Hval); try rewrite plus_IZR;
      apply Rabs_le; split; nra.
  - split.
    + unfold rnd_err. pose proof (bpow_pos (-1074)) as Hmin.
      assert (Hvpos : 0 <= v) by nra.
      rewrite (Rabs_pos_eq _ Hvpos).
      destruct (Z.eq_dec e1 (-1074)) as [->|Hne].
      * pose proof (bpow_pos (-52)). nra.
      * assert (He1 : e1 = (Zdigits2 mx + ex - 53)%Z) by (unfold e1, fexp64 in *; lia).
        assert (Hp : (0 < mx)%Z).
        { destruct (Z.eq_dec mx 0) as [Hz|Hz]; [|lia].
          exfalso. rewrite Hz in *. simpl in *. unfold e1, fexp64 in *. lia. }
        pose proof (digits_bpow Hp) as [Hlo _].
        replace e1 with ((Zdigits2 mx - 1) + ex + (-52))%Z by lia.
        rewrite !bpow_add. pose proof (bpow_pos (-52)).
        assert (bpow (Zdigits2 mx - 1) * bpow ex <= v) by nra.
        nra.
    + intros Hl Hmod. rewrite (Ha _ (Hexact Hl Hmod)). rewrite Hbe.
      assert (Hm : mx = (m1 * 2 ^ n)%Z).
      { unfold m1. apply Z.div_exact in Hmod; [lia|].
        pose proof (pow2_pos Hn); lia. }
      assert (HR : IZR mx = IZR m1 * bpow n).
      { rewrite (bpow_IZR Hn), <- mult_IZR. f_equal. exact Hm. }
      rewrite HR. ring.
Qed.

Local Open Scope Z_scope.

Lemma mul_pow2_digits m k :
  0 < m -> 0 <= k -> Zdigits2 (m * 2 ^ k) = Zdigits2 m + k.
Proof.
  intros Hm Hk. pose proof (Zdigits2_bounds Hm) as [Hlo Hhi].
  pose proof (Zdigits2_pos Hm) as Hd. pose proof (pow2_pos Hk) as Hp.
  apply Zdigits2_unique; [nia|].
  replace (Zdigits2 m + k - 1) with ((Zdigits2 m - 1) + k) by lia.
  rewrite !pow2_split by lia. split; nia.
Qed.

Lemma digits_mul_lower a b :
  0 < a -> 0 < b -> Zdigits2 a + Zdigits2 b - 1 <= Zdigits2 (a * b).
Proof.
  intros Ha Hb.
  pose proof (Zdigits2_bounds Ha) as [Hal _].
  pose proof (Zdigits2_bounds Hb) as [Hbl _].
  assert (Hab : 0 < a * b) by nia.
  pose proof (Zdigits2_bounds Hab) as [_ Hh].
  pose proof (Zdigits2_pos Ha). pose proof (Zdigits2_pos Hb).
  assert (2 ^ (Zdigits2 a - 1 + (Zdigits2 b - 1)) < 2 ^ Zdigits2 (a * b)).
  { rewrite pow2_split by lia.
    pose proof (@pow2_pos (Zdigits2 a - 1) ltac:(lia)).
    pose proof (@pow2_pos (Zdigits2 b - 1) ltac:(lia)). nia. }
  apply pow2_lt_inv in H1; [lia | apply Zdigits2_nonneg].
Qed.

Lemma pos_iter_xO m d : Zpos (Pos.iter xO m d) = Zpos m * 2 ^ Zpos d.
Proof.
  induction d as [|d IH] using Pos.peano_ind.
  - simpl. lia.
  - rewrite Pos.iter_succ, Pos2Z.inj_xO, IH, Pos2Z.inj_succ, Z.pow_succ_r by lia.
    ring.
Qed.

Lemma shl_align_spec mx ex ex' :
  let '(mz, ez) := shl_align mx ex ex' in
  ez = Z.min ex ex' /\ Zpos mz = Zpos mx * 2 ^ (ex - ez).
Proof.
  unfold shl_align. destruct (ex' - ex) as [|d|d] eqn:Hd.
  - split; [lia|]. replace (ex - ex) with 0 by lia. simpl; lia.
  - split; [lia|]. replace (ex - ex) with 0 by lia. simpl; lia.
  - split; [lia|]. rewrite pos_iter_xO. f_equal. f_equal. lia.
Qed.

Local Open Scope R_scope.

Lemma rnd_err_pos v : 0 < rnd_err v.
Proof.
  unfold rnd_err. pose proof (Rabs_pos v). pose proof (bpow_pos (-52)).
  pose proof (bpow_pos (-1074)). nra.
Qed.

Lemma rnd_err_opp v : rnd_err (- v) = rnd_err v.
Proof. unfold rnd_err. rewrite Rabs_Ropp. reflexivity. Qed.

(** [binary_round]: a positive mantissa at any exponent. *)
Lemma binary_round_R s mx ex :
  IZR (Zpos mx) * bpow ex < bpow 1023 ->
  exists a,
    ok_float (binary_round prec emax s mx ex)
    /\ F2R (binary_round prec emax s mx ex) = (if s then - a else a)
    /\ 0 <= a
    /\ Rabs (a - IZR (Zpos mx) * bpow ex) <= rnd_err (IZR (Zpos mx) * bpow ex)
    /\ ((fexp64 (Zdigits2 (Zpos mx) + ex) <= ex)%Z ->
        a = IZR (Zpos mx) * bpow ex).
Proof.
  intros Hmax. unfold binary_round. rewrite fexp64_eq.
  change (Zpos (digits2_pos mx)) with (Zdigits2 (Zpos mx)).
  set (M := (Zdigits2 (Zpos mx) + ex)%Z).
  pose proof (shl_align_spec mx ex (fexp64 M)) as Hsh.
  destruct (shl_align mx ex (fexp64 M)) as [mz ez]. destruct Hsh as [Hez Hmz].
  assert (Hk : (0 <= ex - ez)%Z) by lia.
  assert (HMz : (Zdigits2 (Zpos mz) + ez = M)%Z).
  { rewrite Hmz, mul_pow2_digits by lia. unfold M; lia. }
  assert (Hv : IZR (Zpos mz) * bpow ez = IZR (Zpos mx) * bpow ex).
  { rewrite Hmz, mult_IZR, <- bpow_IZR by exact Hk.
    replace ex with (ex - ez + ez)%Z at 2 by lia. rewrite bpow_add. ring. }
  destruct (@binary_round_aux_R s (Zpos mz) ez loc_Exact (IZR (Zpos mx) * bpow ex))
    as (a & Hok & HF & Ha & Herr & Hle & Hexact).
  - lia.
  - rewrite HMz. lia.
  - rewrite <- Hv. pose proof (bpow_pos ez). split; nra.
  - exact Hmax.
  - exists a. split; [exact Hok|]. split; [exact HF|]. split; [exact Ha|].
    split; [lra|].
    intros Hfe. rewrite <- Hv. apply Hexact; [reflexivity|].
    rewrite HMz. replace (fexp64 M - ez)%Z with 0%Z by lia.
    apply Z.mod_1_r.
Qed.

Lemma F2R_finite s m e :
  F2R (S754_finite s m e) = (if s then - (IZR (Zpos m) * bpow e) else IZR (Zpos m) * bpow e).
Proof. unfold F2R. rewrite IZR_cond_Zopp. destruct s; ring. Qed.

(** [binary_normalize]: any mantissa. *)
Lemma binary_normalize_R m e :
  Rabs (IZR m * bpow e) < bpow 1023 ->
  ok_float (binary_normalize prec emax m e false)
  /\ Rabs (F2R (binary_normalize prec emax m e false) - IZR m * bpow e)
     <= rnd_err (IZR m * bpow e)
  /\ ((fexp64 (Zdigits2 m + e) <= e)%Z ->
      F2R (binary_normalize prec emax m e false) = IZR m * bpow e).
Proof.
  intros Hmax. pose proof (bpow_pos e) as Hpe.
  destruct m as [|p|p]; simpl binary_normalize.
  - simpl. rewrite Rmult_0_l, Rminus_0_r, Rabs_R0.
    split; [exact I|]. split; [left; apply rnd_err_pos | reflexivity].
  - assert (Hp : 0 < IZR (Zpos p)) by (apply IZR_lt; lia).
    rewrite Rabs_pos_eq in Hmax by nra.
    destruct (@binary_round_R false p e Hmax) as (a & Hok & HF & Ha & Herr & Hex).
    rewrite HF. split; [exact Hok|]. split; [exact Herr | exact Hex].
  - assert (Hp : 0 < IZR (Zpos p)) by (apply IZR_lt; lia).
    assert (Hneg : IZR (Zneg p) * bpow e = - (IZR (Zpos p) * bpow e)).
    { change (Zneg p) with (- Zpos p)%Z. rewrite opp_IZR. ring. }
    rewrite Hneg in *. rewrite Rabs_Ropp, Rabs_pos_eq in Hmax by nra.
    destruct (@binary_round_R true p e Hmax) as (a & Hok & HF & Ha & Herr & Hex).
    rewrite HF, rnd_err_opp. split; [exact Hok|]. split.
    + replace (- a - - (IZR (Zpos p) * bpow e)) with (- (a - IZR (Zpos p) * bpow e)) by ring.
      rewrite Rabs_Ropp. exact Herr.
    + intros Hfe. rewrite Hex; [reflexivity | exact Hfe].
Qed.

Lemma ok_not_infinity x : ok_float x -> is_infinity x = false.
Proof. destruct x; simpl; intros H; try reflexivity; contradiction. Qed.

(** Integers of at most 53 bits convert exactly. *)
Lemma float_of_int_spec z :
  Rabs (IZR z) < bpow 1023 ->
  exists f, float_of_int z = Ok f /\ ok_float f
            /\ Rabs (F2R f - IZR z) <= rnd_err (IZR z)
            /\ ((Z.abs z < 2 ^ 53)%Z -> F2R f = IZR z).
Proof.
  intros Hmax. unfold float_of_int.
  destruct (@binary_normalize_R z 0) as (Hok & Herr & Hex).
  - rewrite bpow_0, Rmult_1_r. exact Hmax.
  - rewrite bpow_0, Rmult_1_r in *.
    exists (binary_normalize prec emax z 0 false).
    rewrite (ok_not_infinity _ Hok).
    split; [reflexivity|]. split; [exact Hok|]. split; [exact Herr|].
    intros Hz. apply Hex.
    assert (Zdigits2 z <= 53)%Z; [|unfold fexp64; lia].
    destruct (Z.eq_dec z 0) as [->|Hne]; [simpl; lia|].
    assert (Hd : Zdigits2 z = Zdigits2 (Z.abs z)) by (destruct z; reflexivity).
    rewrite Hd.
    assert (Hp : (0 < Z.abs z)%Z) by lia.
    pose proof (Zdigits2_bounds Hp) as [Hlo _].
    assert (2 ^ (Zdigits2 (Z.abs z) - 1) < 2 ^ 53)%Z by lia.
    apply pow2_lt_inv in H; lia.
Qed.

Lemma F2R_abs_finite s m e :
  Rabs (F2R (S754_finite s m e)) = IZR (Zpos m) * bpow e.
Proof.
  rewrite F2R_finite.
  assert (0 < IZR (Zpos m) * bpow e).
  { apply Rmult_lt_0_compat; [apply IZR_lt; lia | apply bpow_pos]. }
  destruct s; [rewrite Rabs_Ropp|]; apply Rabs_pos_eq; lra.
Qed.

Lemma signed_err (s : bool) a v e :
  Rabs (a - v) <= e ->
  Rabs ((if s then - a else a) - (if s then - v else v)) <= e.
Proof.
  intros H. destruct s; [|exact H].
  replace (- a - - v) with (- (a - v)) by ring. rewrite Rabs_Ropp. exact H.
Qed.

Lemma signed_abs (s : bool) v : 0 <= v -> Rabs (if s then - v else v) = v.
Proof. intros H. destruct s; [rewrite Rabs_Ropp|]; apply Rabs_pos_eq; exact H. Qed.

(** ** Multiplication *)
Lemma float_mul_spec x y :
  ok_float x -> ok_float y ->
  Rabs (F2R x * F2R y) < bpow 1023 ->
  ok_float (float_mul x y)
  /\ Rabs (F2R (float_mul x y) - F2R x * F2R y) <= rnd_err (F2R x * F2R y).
Proof.
  intros Hx Hy Hmax. unfold float_mul.
  destruct x as [sx|sx| |sx mx ex]; try contradiction;
    destruct y as [sy|sy| |sy my ey]; try contradiction; simpl SFmul;
    try (simpl F2R; rewrite ?Rmult_0_l, ?Rmult_0_r, Rminus_0_r, Rabs_R0;
         split; [exact I | left; apply rnd_err_pos]).
  destruct Hx as [Hcx Hbx]. destruct Hy as [Hcy Hby].
  set (v := IZR (Zpos mx) * bpow ex * (IZR (Zpos my) * bpow ey)).
  assert (Hvpos : 0 < v).
  { unfold v. pose proof (bpow_pos ex). pose proof (bpow_pos ey).
    assert (0 < IZR (Zpos mx)) by (apply IZR_lt; lia).
    assert (0 < IZR (Zpos my)) by (apply IZR_lt; lia).
    apply Rmult_lt_0_compat; apply Rmult_lt_0_compat; assumption. }
  assert (Hprod : F2R (S754_finite sx mx ex) * F2R (S754_finite sy my ey)
                  = (if xorb sx sy then - v else v)).
  { rewrite !F2R_finite. unfold v. destruct sx, sy; simpl; ring. }
  rewrite Hprod in *. rewrite signed_abs in Hmax by lra.
  assert (Hv : v = IZR (Zpos (mx * my)) * bpow (ex + ey)).
  { unfold v. rewrite Pos2Z.inj_mul, mult_IZR, bpow_add. ring. }
  destruct (@binary_round_aux_R (xorb sx sy) (Zpos (mx * my)) (ex + ey) loc_Exact v)
    as (a & Hok & HF & Ha & Herr & Hle & _).
  - lia.
  - pose proof (@digits_mul_lower (Zpos mx) (Zpos my) ltac:(lia) ltac:(lia)) as Hd.
    rewrite Pos2Z.inj_mul.
    pose proof (@Zdigits2_pos (Zpos mx) ltac:(lia)).
    pose proof (@Zdigits2_pos (Zpos my) ltac:(lia)).
    unfold fexp64 in *. lia.
  - rewrite <- Hv. pose proof (bpow_pos (ex + ey)). split; nra.
  - exact Hmax.
  - rewrite HF. split; [exact Hok|].
    replace (rnd_err (if xorb sx sy then - v else v)) with (rnd_err v)
      by (destruct (xorb sx sy); [rewrite rnd_err_opp|]; reflexivity).
    apply signed_err. lra.
Qed.

(** ** Division *)
Local Open Scope Z_scope.

Lemma shift_match m s :
  0 <= s ->
  match s with Z.pos _ => Z.shiftl m s | 0 => m | Z.neg _ => 0 end = m * 2 ^ s.
Proof.
  intros Hs. destruct s as [|p|p]; [lia | | lia].
  apply Z.shiftl_mul_pow2; lia.
Qed.

Lemma div_core_spec m1 e1 m2 e2 :
  0 < m1 -> 0 < m2 ->
  let '(q, e', l) := SFdiv_core_binary prec emax m1 e1 m2 e2 in
  0 <= q /\ e' <= fexp64 (Zdigits2 q + e')
  /\ (IZR q * bpow e' <= (IZR m1 * bpow e1) / (IZR m2 * bpow e2)
      < (IZR q + 1) * bpow e')%R.
Proof.
  intros H1 H2. unfold SFdiv_core_binary. rewrite fexp64_eq.
  set (d1 := Zdigits2 m1). set (d2 := Zdigits2 m2).
  set (e' := Z.min (fexp64 (d1 + e1 - (d2 + e2))) (e1 - e2)).
  set (s := e1 - e2 - e').
  assert (Hs : 0 <= s) by (unfold s, e'; lia).
  set (m' := match s with Z.pos _ => Z.shiftl m1 s | 0 => m1 | Z.neg _ => 0 end).
  assert (Hm' : m' = m1 * 2 ^ s) by (apply shift_match; exact Hs).
  pose proof (Z_div_mod m' m2 ltac:(lia)) as Hdm.
  destruct (Z.div_eucl m' m2) as [q r]. destruct Hdm as [Hdm Hr].
  pose proof (pow2_pos Hs) as Hps.
  assert (Hq : 0 <= q) by nia.
  split; [exact Hq|]. split.
  - destruct (Z_le_gt_dec e' (-1074)) as [Hle|Hgt]; [unfold fexp64; lia|].
    assert (He' : e' <= d1 + e1 - (d2 + e2) - 53) by (unfold e', fexp64 in *; lia).
    assert (Hs53 : 53 - d1 + d2 <= s) by (unfold s; lia).
    pose proof (Zdigits2_bounds H1) as [Hl1 _]. fold d1 in Hl1.
    pose proof (Zdigits2_bounds H2) as [_ Hh2]. fold d2 in Hh2.
    pose proof (Zdigits2_pos H1) as Hd1. fold d1 in Hd1.
    pose proof (Zdigits2_pos H2) as Hd2. fold d2 in Hd2.
    assert (Hbig : 2 ^ 52 * m2 <= m').
    { rewrite Hm'.
      assert (2 ^ (52 + d2) <= m1 * 2 ^ s).
      { assert (2 ^ (52 + d2) <= 2 ^ ((d1 - 1) + s)) by (apply Z.pow_le_mono_r; lia).
        rewrite (@pow2_split (d1 - 1) s) in H by lia.
        assert (2 ^ (d1 - 1) * 2 ^ s <= m1 * 2 ^ s)
          by (apply Z.mul_le_mono_nonneg_r; lia).
        lia. }
      rewrite (@pow2_split 52 d2) in H by lia.
      assert (2 ^ 52 * m2 <= 2 ^ 52 * 2 ^ d2) by (apply Z.mul_le_mono_nonneg_l; lia).
      lia. }
    assert (Hq52 : 2 ^ 52 <= q).
    { destruct (Z_le_gt_dec (2 ^ 52) q) as [Hok|Hbad]; [exact Hok|].
      assert (m2 * q <= m2 * (2 ^ 52 - 1)) by (apply Z.mul_le_mono_nonneg_l; lia).
      lia. }
    assert (Hdq : 53 <= Zdigits2 q).
    { assert (Hqp : 0 < q) by lia.
      pose proof (Zdigits2_bounds Hqp) as [_ Hhq].
      assert (2 ^ 52 < 2 ^ Zdigits2 q) by lia.
      apply pow2_lt_inv in H; [lia | apply Zdigits2_nonneg]. }
    unfold fexp64. lia.
  - assert (Hm2R : (0 < IZR m2)%R) by (apply IZR_lt; exact H2).
    pose proof (bpow_pos e1) as Hp1. pose proof (bpow_pos e2) as Hp2.
    pose proof (bpow_pos e') as Hpe'.
    assert (Hquot : ((IZR m1 * bpow e1) / (IZR m2 * bpow e2)
                     = IZR m' / IZR m2 * bpow e')%R).
    { rewrite Hm', mult_IZR, <- bpow_IZR by exact Hs.
      replace e1 with (s + e' + e2) by (unfold s; lia).
      rewrite !bpow_add. field. split; lra. }
    rewrite Hquot.
    assert (HqR : (IZR q <= IZR m' / IZR m2 < IZR q + 1)%R).
    { split.
      - apply Rmult_le_reg_r with (IZR m2); [exact Hm2R|].
        replace (IZR m' / IZR m2 * IZR m2)%R with (IZR m') by (field; lra).
        rewrite <- mult_IZR. apply IZR_le. nia.
      - apply Rmult_lt_reg_r with (IZR m2); [exact Hm2R|].
        replace (IZR m' / IZR m2 * IZR m2)%R with (IZR m') by (field; lra).
        rewrite <- plus_IZR, <- mult_IZR. apply IZR_lt. nia. }
    split; nra.
Qed.

Local Open Scope R_scope.

(** The quotient of two finite numbers that need not be canonical. *)
Lemma SFdiv_finite_spec sx mx ex sy my ey :
  let x := S754_finite sx mx ex in
  let y := S754_finite sy my ey in
  Rabs (F2R x / F2R y) < bpow 1023 ->
  ok_float (SFdiv prec emax x y)
  /\ Rabs (F2R (SFdiv prec emax x y) - F2R x / F2R y) <= rnd_err (F2R x / F2R y)
  /\ (0 <= F2R x / F2R y -> 0 <= F2R (SFdiv prec emax x y)).
Proof.
  intros x y Hmax. unfold x, y in *. simpl SFdiv.
  pose proof (@div_core_spec (Zpos mx) ex (Zpos my) ey ltac:(lia) ltac:(lia)) as Hc.
  destruct (SFdiv_core_binary prec emax (Zpos mx) ex (Zpos my) ey) as [[q e'] l].
  destruct Hc as (Hq & He' & Hencl).
  set (v := (IZR (Zpos mx) * bpow ex) / (IZR (Zpos my) * bpow ey)) in *.
  assert (Hdx : 0 < IZR (Zpos mx) * bpow ex).
  { apply Rmult_lt_0_compat; [apply IZR_lt; lia | apply bpow_pos]. }
  assert (Hdy : 0 < IZR (Zpos my) * bpow ey).
  { apply Rmult_lt_0_compat; [apply IZR_lt; lia | apply bpow_pos]. }
  assert (Hvpos : 0 < v) by (unfold v; apply Rdiv_lt_0_compat; assumption).
  assert (Hquot : F2R (S754_finite sx mx ex) / F2R (S754_finite sy my ey)
                  = (if xorb sx sy then - v else v)).
  { rewrite !F2R_finite. unfold v.
    assert (0 < IZR (Zpos my)) by (apply IZR_lt; lia).
    pose proof (bpow_pos ey).
    destruct sx, sy; simpl; field; repeat split; lra. }
  rewrite Hquot in *. rewrite signed_abs in Hmax by lra.
  destruct (@binary_round_aux_R (xorb sx sy) q e' l v Hq He' Hencl Hmax)
    as (a & Hok & HF & Ha & Herr & Hle & _).
  rewrite HF. split; [exact Hok|]. split.
  - replace (rnd_err (if xorb sx sy then - v else v)) with (rnd_err v)
      by (destruct (xorb sx sy); [rewrite rnd_err_opp|]; reflexivity).
    apply signed_err. lra.
  - destruct (xorb sx sy); lra.
Qed.

Lemma F2R_zero_iff x : ok_float x -> (F2R x = 0 <-> is_zero x = true).
Proof.
  intros Hx. destruct x as [s|s| |s m e]; try contradiction; simpl is_zero.
  - simpl; split; auto.
  - split; [|discriminate]. intros H.
    pose proof (F2R_abs_finite s m e) as Ha. rewrite H, Rabs_R0 in Ha.
    assert (0 < IZR (Zpos m) * bpow e).
    { apply Rmult_lt_0_compat; [apply IZR_lt; lia | apply bpow_pos]. }
    lra.
Qed.

Lemma float_truediv_spec x y :
  ok_float x -> ok_float y -> F2R y <> 0 ->
  Rabs (F2R x / F2R y) < bpow 1023 ->
  exists z, float_truediv x y = Ok z /\ ok_float z
            /\ Rabs (F2R z - F2R x / F2R y) <= rnd_err (F2R x / F2R y)
            /\ (0 <= F2R x / F2R y -> 0 <= F2R z).
Proof.
  intros Hx Hy Hny Hmax. unfold float_truediv.
  assert (Hz : is_zero y = false).
  { destruct (is_zero y) eqn:E; [|reflexivity].
    apply (F2R_zero_iff y Hy) in E. contradiction. }
  rewrite Hz. exists (SFdiv prec emax x y). split; [reflexivity|].
  destruct y as [sy|sy| |sy my ey]; try contradiction; try discriminate.
  destruct x as [sx|sx| |sx mx ex]; try contradiction.
  - simpl SFdiv. simpl F2R at 1 2 3 4. unfold Rdiv. rewrite Rmult_0_l, Rminus_0_r, Rabs_R0.
    split; [exact I|]. split; [left; apply rnd_err_pos | intros _; simpl; lra].
  - apply SFdiv_finite_spec. exact Hmax.
Qed.

Lemma F2R_exact_int z : F2R (exact_int z) = IZR z.
Proof.
  destruct z as [|p|p]; simpl; unfold bpow; simpl; try ring.
Qed.

Lemma int_truediv_spec a b :
  b <> 0%Z -> Rabs (IZR a / IZR b) < bpow 1023 ->
  exists z, int_truediv a b = Ok z /\ ok_float z
            /\ Rabs (F2R z - IZR a / IZR b) <= rnd_err (IZR a / IZR b)
            /\ (0 <= IZR a / IZR b -> 0 <= F2R z).
Proof.
  intros Hb Hmax. unfold int_truediv.
  replace (b =? 0)%Z with false by (symmetry; apply Z.eqb_neq; exact Hb).
  assert (Hres : ok_float (SFdiv prec emax (exact_int a) (exact_int b))
                 /\ Rabs (F2R (SFdiv prec emax (exact_int a) (exact_int b))
                          - IZR a / IZR b) <= rnd_err (IZR a / IZR b)
                 /\ (0 <= IZR a / IZR b
                     -> 0 <= F2R (SFdiv prec emax (exact_int a) (exact_int b)))).
  { rewrite <- (F2R_exact_int a), <- (F2R_exact_int b) in *.
    destruct b as [|pb|pb]; [contradiction| |];
      (destruct a as [|pa|pa];
       [ simpl SFdiv; simpl F2R at 1 2 3 4; unfold Rdiv;
         rewrite Rmult_0_l, Rminus_0_r, Rabs_R0;
         split; [exact I|]; split; [left; apply rnd_err_pos | intros _; simpl; lra]
       | apply SFdiv_finite_spec; exact Hmax
       | apply SFdiv_finite_spec; exact Hmax ]). }
  destruct Hres as (Hok & Herr & Hsign).
  rewrite (ok_not_infinity _ Hok).
  eexists; split; [reflexivity|]. split; [exact Hok|]. split; assumption.
Qed.

(** ** Addition and subtraction *)
Lemma aligned_mantissa s m e ez :
  (ez <= e)%Z ->
  IZR (cond_Zopp s (Zpos (fst (shl_align m e ez)))) * bpow ez
  = F2R (S754_finite s m e).
Proof.
  intros Hle. pose proof (shl_align_spec m e ez) as Hsh.
  destruct (shl_align m e ez) as [mz ez']. destruct Hsh as [Hez Hmz]. simpl fst.
  rewrite Z.min_r in Hez by exact Hle. subst ez'.
  assert (Hb : bpow e = bpow (e - ez) * bpow ez).
  { rewrite <- bpow_add. f_equal. lia. }
  unfold F2R. rewrite !IZR_cond_Zopp, Hmz, mult_IZR, <- bpow_IZR by lia.
  rewrite Hb. destruct s; ring.
Qed.

Lemma float_add_spec x y :
  ok_float x -> ok_float y ->
  Rabs (F2R x + F2R y) < bpow 1023 ->
  ok_float (float_add x y)
  /\ Rabs (F2R (float_add x y) - (F2R x + F2R y)) <= rnd_err (F2R x + F2R y).
Proof.
  intros Hx Hy Hmax. unfold float_add.
  assert (Hexact : forall z, ok_float z -> F2R z = F2R x + F2R y ->
                   ok_float z
                   /\ Rabs (F2R z - (F2R x + F2R y)) <= rnd_err (F2R x + F2R y)).
  { intros z Hz ->. split; [exact Hz|].
    rewrite Rminus_diag, Rabs_R0.
    left; apply rnd_err_pos. }
  destruct x as [sx|sx| |sx mx ex]; try contradiction;
    destruct y as [sy|sy| |sy my ey]; try contradiction; simpl SFadd.
  - destruct sx, sy; apply Hexact; simpl; auto; ring.
  - apply Hexact; [exact Hy | simpl F2R; ring].
  - apply Hexact; [exact Hx | simpl F2R; ring].
  - set (ez := Z.min ex ey).
    set (m := (cond_Zopp sx (Zpos (fst (shl_align mx ex ez)))
               + cond_Zopp sy (Zpos (fst (shl_align my ey ez))))%Z).
    assert (Hm : IZR m * bpow ez
                 = F2R (S754_finite sx mx ex) + F2R (S754_finite sy my ey)).
    { unfold m. rewrite plus_IZR, Rmult_plus_distr_r.
      rewrite !aligned_mantissa by (unfold ez; lia). reflexivity. }
    rewrite <- Hm in *.
    destruct (@binary_normalize_R m ez Hmax) as (Hok & Herr & _).
    split; assumption.
Qed.

Lemma float_sub_spec x y :
  ok_float x -> ok_float y ->
  Rabs (F2R x - F2R y) < bpow 1023 ->
  ok_float (float_sub x y)
  /\ Rabs (F2R (float_sub x y) - (F2R x - F2R y)) <= rnd_err (F2R x - F2R y).
Proof.
  intros Hx Hy Hmax. unfold float_sub.
  assert (Hexact : forall z, ok_float z -> F2R z = F2R x - F2R y ->
                   ok_float z
                   /\ Rabs (F2R z - (F2R x - F2R y)) <= rnd_err (F2R x - F2R y)).
  { intros z Hz ->. split; [exact Hz|].
    rewrite Rminus_diag, Rabs_R0.
    left; apply rnd_err_pos. }
  destruct x as [sx|sx| |sx mx ex]; try contradiction;
    destruct y as [sy|sy| |sy my ey]; try contradiction; simpl SFsub.
  - destruct sx, sy; apply Hexact; simpl; auto; ring.
  - apply Hexact; [exact Hy|]. rewrite !F2R_finite. simpl F2R.
    destruct sy; simpl; ring.
  - apply Hexact; [exact Hx | simpl F2R; ring].
  - set (ez := Z.min ex ey).
    set (m := (cond_Zopp sx (Zpos (fst (shl_align mx ex ez)))
               - cond_Zopp sy (Zpos (fst (shl_align my ey ez))))%Z).
    assert (Hm : IZR m * bpow ez
                 = F2R (S754_finite sx mx ex) - F2R (S754_finite sy my ey)).
    { unfold m. rewrite minus_IZR, Rmult_minus_distr_r.
      rewrite !aligned_mantissa by (unfold ez; lia). reflexivity. }
    rewrite <- Hm in *.
    destruct (@binary_normalize_R m ez Hmax) as (Hok & Herr & _).
    split; assumption.
Qed.

(** ** Conversions to integers *)
Lemma shiftl_floor a e :
  IZR (Z.shiftl a e) <= IZR a * bpow e < IZR (Z.shiftl a e) + 1.
Proof.
  destruct (Z_le_gt_dec 0 e) as [He|He].
  - rewrite Z.shiftl_mul_pow2, mult_IZR, <- bpow_IZR by exact He. lra.
  - rewrite Z.shiftl_div_pow2 by lia.
    assert (Hn : (0 <= - e)%Z) by lia.
    pose proof (pow2_pos Hn) as Hp.
    pose proof (Z.div_mod a (2 ^ (- e)) ltac:(lia)) as Hdm.
    pose proof (Z.mod_pos_bound a (2 ^ (- e)) Hp) as Hb.
    set (q := (a / 2 ^ (- e))%Z) in *.
    assert (Hbe : bpow e = / IZR (2 ^ (- e))).
    { rewrite <- bpow_IZR by exact Hn. rewrite <- bpow_opp. f_equal; lia. }
    assert (Hpr : 0 < IZR (2 ^ (- e))) by (apply IZR_lt; exact Hp).
    assert (Hlo : IZR q * IZR (2 ^ (- e)) <= IZR a).
    { rewrite <- mult_IZR. apply IZR_le. lia. }
    assert (Hhi : IZR a < (IZR q + 1) * IZR (2 ^ (- e))).
    { rewrite <- plus_IZR, <- mult_IZR. apply IZR_lt. lia. }
    rewrite Hbe. split.
    + apply Rmult_le_reg_r with (IZR (2 ^ (- e))); [exact Hpr|].
      rewrite Rmult_assoc, Rinv_l by lra. lra.
    + apply Rmult_lt_reg_r with (IZR (2 ^ (- e))); [exact Hpr|].
      rewrite Rmult_assoc, Rinv_l by lra. lra.
Qed.

Lemma int_of_float_spec x :
  ok_float x ->
  exists k, int_of_float x = Ok k
            /\ (0 <= F2R x -> IZR k <= F2R x < IZR k + 1)
            /\ (F2R x <= 0 -> IZR k - 1 < F2R x <= IZR k).
Proof.
  intros Hx. destruct x as [s|s| |s m e]; try contradiction; simpl int_of_float.
  - exists 0%Z. simpl F2R. split; [reflexivity|]. split; intros; lra.
  - eexists; split; [reflexivity|].
    pose proof (shiftl_floor (Zpos m) e) as [Hlo Hhi].
    assert (Hpos : 0 < IZR (Zpos m) * bpow e).
    { apply Rmult_lt_0_compat; [apply IZR_lt; lia | apply bpow_pos]. }
    rewrite F2R_finite, IZR_cond_Zopp. destruct s; split; intros; lra.
Qed.

Lemma math_ceil_spec x :
  ok_float x ->
  exists k, math_ceil x = Ok k /\ F2R x <= IZR k < F2R x + 1.
Proof.
  intros Hx. destruct x as [s|s| |s m e]; try contradiction; simpl math_ceil.
  - exists 0%Z. simpl F2R. split; [reflexivity | lra].
  - eexists; split; [reflexivity|].
    pose proof (shiftl_floor (cond_Zopp (negb s) (Zpos m)) e) as [Hlo Hhi].
    rewrite opp_IZR. rewrite IZR_cond_Zopp in Hlo, Hhi.
    rewrite F2R_finite. destruct s; simpl negb in *; cbv iota in *; lra.
Qed.

(** ** The arithmetic of one gradient pixel *)

Local Open Scope R_scope.


Lemma bpow_neg_numeral k :
  (0 <= k)%Z -> bpow (- k) = / IZR (2 ^ k).
Proof. intros Hk. rewrite bpow_opp, bpow_IZR by exact Hk. reflexivity. Qed.

Lemma eps_eq : bpow (-52) = eps.
Proof. change (-52)%Z with (Z.opp 52). rewrite bpow_neg_numeral by lia. reflexivity. Qed.

Lemma bpow_m100 : bpow (-100) = tiny.
Proof. change (-100)%Z with (Z.opp 100). rewrite bpow_neg_numeral by lia. reflexivity. Qed.

Lemma eta_tiny : 0 < bpow (-1074) <= tiny.
Proof.
  split; [apply bpow_pos|]. rewrite <- bpow_m100. apply bpow_le. lia.
Qed.

(** [2^40 * eta] is still negligible. *)
Lemma scaled_eta_tiny N :
  0 <= N <= 2199023255552 -> N * bpow (-1074) <= tiny.
Proof.
  intros [H0 H1].
  assert (Hb : 2199023255552 = bpow 41).
  { rewrite bpow_IZR by lia. reflexivity. }
  rewrite <- bpow_m100.
  apply Rle_trans with (bpow 41 * bpow (-1074)).
  - pose proof (bpow_pos (-1074)). rewrite <- Hb. nra.
  - rewrite <- bpow_add. apply bpow_le. lia.
Qed.

Lemma Rabs_le_inv x a : Rabs x <= a -> - a <= x <= a.
Proof. unfold Rabs. destruct (Rcase_abs x); lra. Qed.

Lemma rnd_bounds r v :
  Rabs (r - v) <= rnd_err v -> 0 <= v ->
  v * (1 - eps) - bpow (-1074) <= r <= v * (1 + eps) + bpow (-1074).
Proof.
  intros H Hv. unfold rnd_err in H. rewrite eps_eq in H.
  rewrite (Rabs_pos_eq v Hv) in H.
  apply Rabs_le_inv in H. lra.
Qed.

Lemma rnd_bounds_abs r v B :
  Rabs (r - v) <= rnd_err v -> Rabs v <= B ->
  v - (B * eps + bpow (-1074)) <= r <= v + (B * eps + bpow (-1074)).
Proof.
  intros H Hv. unfold rnd_err in H. rewrite eps_eq in H.
  apply Rabs_le_inv in H.
  assert (0 < eps) by (unfold eps; lra).
  assert (Rabs v * eps <= B * eps) by nra.
  lra.
Qed.

Lemma below_max v : Rabs v <= 1267650600228229401496703205376 -> Rabs v < bpow 1023.
Proof.
  intros H. apply Rle_lt_trans with (bpow 100).
  - rewrite bpow_IZR by lia. exact H.
  - apply bpow_lt. lia.
Qed.

Lemma ok_lit_1_0 : ok_float lit_1_0 /\ F2R lit_1_0 = 1.
Proof.
  split.
  - split; [reflexivity | lia].
  - unfold lit_1_0. rewrite F2R_finite, eps_eq. unfold eps. lra.
Qed.

Lemma ok_lit_0_0 : ok_float lit_0_0 /\ F2R lit_0_0 = 0.
Proof. split; [exact I | reflexivity]. Qed.

(** The position along the axis. *)
Lemma position_spec a b :
  (0 <= a <= b)%Z -> (0 < b)%Z ->
  exists pos, int_truediv a b = Ok pos /\ ok_float pos
              /\ 0 <= F2R pos <= 1 + 2 * eps.
Proof.
  intros Ha Hb.
  assert (HbR : 0 < IZR b) by (apply IZR_lt; exact Hb).
  assert (HaR : 0 <= IZR a <= IZR b) by (split; apply IZR_le; lia).
  assert (HP : 0 <= IZR a / IZR b <= 1).
  { split.
    - apply Rmult_le_pos; [lra | left; apply Rinv_0_lt_compat; exact HbR].
    - apply Rmult_le_reg_r with (IZR b); [exact HbR|].
      unfold Rdiv. rewrite Rmult_assoc, Rinv_l by lra. lra. }
  destruct (@int_truediv_spec a b) as (pos & Hp & Hok & Herr & Hsign).
  - lia.
  - apply below_max. rewrite Rabs_pos_eq by lra. lra.
  - exists pos. split; [exact Hp|]. split; [exact Hok|].
    pose proof (@rnd_bounds _ _ Herr (proj1 HP)) as [_ Hhi].
    pose proof eta_tiny as [_ He].
    split; [apply Hsign; lra|].
    unfold eps, tiny in *. lra.
Qed.



Lemma scale_err a b c e h :
  Rabs (a - b) <= Rabs b * e + h -> 0 < c ->
  Rabs (a * c - b * c) <= Rabs (b * c) * e + h * c.
Proof.
  intros H Hc.
  replace (a * c - b * c) with ((a - b) * c) by ring.
  rewrite !Rabs_mult, (Rabs_pos_eq c) by lra.
  replace (Rabs b * c * e + h * c) with ((Rabs b * e + h) * c) by ring.
  apply Rmult_le_compat_r; lra.
Qed.

Lemma local_pos_spec n1 pos :
  (1 <= n1 <= 2 ^ 40)%Z -> ok_float pos -> 0 <= F2R pos <= 1 + 2 * eps ->
  exists f1 ss q seg0 fseg lp,
    float_of_int n1 = Ok f1
    /\ float_truediv lit_1_0 f1 = Ok ss
    /\ float_truediv pos ss = Ok q
    /\ int_of_float q = Ok seg0
    /\ (0 <= Z.min seg0 (n1 - 1) <= n1 - 1)%Z
    /\ float_of_int (Z.min seg0 (n1 - 1)) = Ok fseg
    /\ float_truediv (float_sub pos (float_mul fseg ss)) ss = Ok lp
    /\ ok_float lp /\ - tau <= F2R lp <= 1 + tau.
Proof.
  intros Hn Hpos Hp.
  set (N := IZR n1). set (p := F2R pos) in *.
  assert (HN : 1 <= N <= 1099511627776).
  { unfold N. split; [apply IZR_le; lia|].
    change 1099511627776 with (IZR (2 ^ 40)). apply IZR_le; lia. }
  pose proof eta_tiny as [Heta0 Heta].
  assert (HNeta : N * bpow (-1074) <= tiny) by (apply scaled_eta_tiny; flra).
  set (eta := bpow (-1074)) in *.
  assert (Heps : eps = / 4503599627370496) by reflexivity.
  assert (Htiny : tiny = / 1267650600228229401496703205376) by reflexivity.
  (* n1 as a float *)
  destruct (@float_of_int_spec n1) as (f1 & Hf1 & Hokf1 & _ & Hexf1).
  { apply below_max. fold N. rewrite Rabs_pos_eq; flra. }
  assert (HF1 : F2R f1 = N) by (apply Hexf1; lia).
  (* segment_size *)
  destruct ok_lit_1_0 as [Hok1 HF1_0].
  set (r := / N).
  assert (Hr : 0 < r /\ r * N = 1 /\ r <= 1).
  { unfold r. split; [apply Rinv_0_lt_compat; flra|]. split; [apply Rinv_l; flra|].
    rewrite <- Rinv_1. apply Rinv_le_contravar; flra. }
  destruct Hr as (Hr0 & HrN & Hr1).
  destruct (@float_truediv_spec lit_1_0 f1 Hok1 Hokf1) as (ss & Hss & Hokss & Herrss & _).
  { rewrite HF1; flra. }
  { rewrite HF1_0, HF1. unfold Rdiv. rewrite Rmult_1_l. fold r.
    apply below_max. rewrite Rabs_pos_eq; flra. }
  rewrite HF1_0, HF1 in Herrss. unfold Rdiv in Herrss. rewrite Rmult_1_l in Herrss.
  fold r in Herrss.
  set (S := F2R ss) in *.
  pose proof (@rnd_bounds _ _ Herrss (Rlt_le _ _ Hr0)) as [HSlo HShi]. fold eta in HSlo, HShi.
  assert (HNS : 1 - 2 * eps <= N * S <= 1 + 2 * eps).
  { assert (N * (r * (1 - eps) - eta) <= N * S) by (apply Rmult_le_compat_l; flra).
    assert (N * S <= N * (r * (1 + eps) + eta)) by (apply Rmult_le_compat_l; flra).
    replace (N * (r * (1 - eps) - eta)) with (r * N * (1 - eps) - N * eta) in H by ring.
    replace (N * (r * (1 + eps) + eta)) with (r * N * (1 + eps) + N * eta) in H0 by ring.
    rewrite HrN in H, H0. flra. }
  assert (HS0 : 0 < S).
  { destruct (Rlt_le_dec 0 S) as [Hlt|Hle]; [exact Hlt|].
    assert (N * S <= 0) by nra. flra. }
  set (iS := / S).
  assert (HiS : 0 < iS /\ S * iS = 1).
  { unfold iS. split; [apply Rinv_0_lt_compat; exact HS0 | apply Rinv_r; flra]. }
  destruct HiS as [HiS0 HiS1].
  assert (HiSN : iS <= 2 * N).
  { assert (iS * (1 / 2) <= iS * (N * S)) by (apply Rmult_le_compat_l; flra).
    replace (iS * (N * S)) with (N * (S * iS)) in H by ring. rewrite HiS1 in H. flra. }
  assert (Hk : eta * iS <= 2 * tiny).
  { assert (eta * iS <= eta * (2 * N)) by (apply Rmult_le_compat_l; flra). flra. }
  (* the quotient pos / segment_size *)
  set (Q := p * iS).
  assert (HQ0 : 0 <= Q) by (unfold Q; apply Rmult_le_pos; flra).
  assert (HQN : Q <= N * (1 + 5 * eps)).
  { assert (Q * (1 - 2 * eps) <= Q * (N * S)) by (apply Rmult_le_compat_l; flra).
    replace (Q * (N * S)) with (N * p * (S * iS)) in H by (unfold Q; ring).
    rewrite HiS1, Rmult_1_r in H.
    assert (N * p <= N * (1 + 2 * eps)) by (apply Rmult_le_compat_l; flra).
    flra. }
  destruct (@float_truediv_spec pos ss Hpos Hokss) as (q & Hq & Hokq & Herrq & Hsignq).
  { fold S; flra. }
  { fold p S. change (p / S) with Q. apply below_max. rewrite Rabs_pos_eq; flra. }
  fold p S in Herrq, Hsignq. change (p / S) with Q in Herrq, Hsignq.
  pose proof (@rnd_bounds _ _ Herrq HQ0) as [Hqlo Hqhi]. fold eta in Hqlo, Hqhi.
  specialize (Hsignq HQ0).
  (* the segment *)
  destruct (@int_of_float_spec q Hokq) as (seg0 & Hseg0 & Hs0 & _).
  specialize (Hs0 Hsignq). destruct Hs0 as [Hs0lo Hs0hi].
  assert (Hseg0pos : (0 <= seg0)%Z).
  { assert (-1 < IZR seg0) by flra. apply lt_IZR in H. lia. }
  set (seg := Z.min seg0 (n1 - 1)).
  assert (Hseg : (0 <= seg <= n1 - 1)%Z) by (unfold seg; lia).
  set (s := IZR seg).
  assert (Hs : 0 <= s <= N - 1).
  { unfold s, N. split; [apply IZR_le; lia|].
    rewrite <- minus_IZR. apply IZR_le; lia. }
  assert (HD : - (2 * N * eps) <= Q - s <= 1 + 6 * N * eps).
  { destruct (Z_le_gt_dec seg0 (n1 - 1)) as [Hle|Hgt].
    - assert (Hsame : s = IZR seg0) by (unfold s, seg; f_equal; lia).
      rewrite Hsame. flra.
    - assert (Hlast : s = N - 1).
      { unfold s, seg, N. rewrite <- minus_IZR. f_equal; lia. }
      assert (N <= IZR seg0) by (unfold N; apply IZR_le; lia).
      rewrite Hlast. flra. }
  destruct (@float_of_int_spec seg) as (fseg & Hfseg & Hokfseg & _ & Hexseg).
  { apply below_max. fold s. rewrite Rabs_pos_eq; flra. }
  assert (HFseg : F2R fseg = s) by (apply Hexseg; lia).
  (* segment * segment_size *)
  assert (HsS : 0 <= s * S <= 2).
  { split; [apply Rmult_le_pos; flra|].
    assert (s * S <= N * S) by (apply Rmult_le_compat_r; flra). flra. }
  destruct (@float_mul_spec fseg ss Hokfseg Hokss) as [Hokt Herrt].
  { rewrite HFseg. fold S. apply below_max. rewrite Rabs_pos_eq; flra. }
  rewrite HFseg in Herrt. fold S in Herrt.
  set (tf := float_mul fseg ss) in *. set (t := F2R tf) in *.
  pose proof (@rnd_bounds _ _ Herrt (proj1 HsS)) as [Htlo Hthi]. fold eta in Htlo, Hthi.
  (* pos - segment * segment_size *)
  destruct (@float_sub_spec pos tf Hpos Hokt) as [Hoku Herru].
  { fold p t. apply below_max. apply Rabs_le. flra. }
  fold p t in Herru.
  set (uf := float_sub pos tf) in *. set (u := F2R uf) in *.
  (* in units of segment_size *)
  set (W := (p - t) * iS).
  assert (HW : - (3 * N * eps) - 2 * tiny <= W <= 1 + 7 * N * eps + 2 * tiny).
  { assert (HT : s * (1 - eps) - eta * iS <= t * iS <= s * (1 + eps) + eta * iS).
    { split.
      - replace (s * (1 - eps) - eta * iS)
          with ((s * S * (1 - eps) - eta) * iS)
          by (replace (s * (1 - eps)) with (s * (S * iS) * (1 - eps))
                by (rewrite HiS1; ring); ring).
        apply Rmult_le_compat_r; flra.
      - replace (s * (1 + eps) + eta * iS)
          with ((s * S * (1 + eps) + eta) * iS)
          by (replace (s * (1 + eps)) with (s * (S * iS) * (1 + eps))
                by (rewrite HiS1; ring); ring).
        apply Rmult_le_compat_r; flra. }
    replace W with (Q - t * iS) by (unfold W, Q; ring).
    assert (s * eps <= N * eps) by (apply Rmult_le_compat_r; flra).
    flra. }
  assert (HWabs : Rabs W <= 2) by (apply Rabs_le; flra).
  set (U := u * iS).
  assert (HU : Rabs (U - W) <= Rabs W * eps + eta * iS).
  { unfold U, W. apply scale_err; [|exact HiS0].
    unfold rnd_err in Herru. rewrite eps_eq in Herru. exact Herru. }
  apply Rabs_le_inv in HU.
  assert (HUb : - (3 * N * eps) - 4 * tiny - 2 * eps <= U
                <= 1 + 7 * N * eps + 4 * tiny + 2 * eps).
  { assert (Rabs W * eps <= 2 * eps) by (apply Rmult_le_compat_r; flra). flra. }
  assert (HUabs : Rabs U <= 2) by (apply Rabs_le; flra).
  (* local_pos *)
  destruct (@float_truediv_spec uf ss Hoku Hokss) as (lp & Hlp & Hoklp & Herrlp & _).
  { fold S; flra. }
  { fold u S. change (u / S) with U. apply below_max.
    apply Rle_trans with 2; [exact HUabs | flra]. }
  fold u S in Herrlp. change (u / S) with U in Herrlp.
  pose proof (@rnd_bounds_abs _ _ 2 Herrlp HUabs) as [Hlplo Hlphi].
  fold eta in Hlplo, Hlphi.
  exists f1, ss, q, seg0, fseg, lp.
  split; [exact Hf1|]. split; [exact Hss|]. split; [exact Hq|].
  split; [exact Hseg0|]. split; [exact Hseg|]. split; [exact Hfseg|].
  split; [exact Hlp|]. split; [exact Hoklp|].
  unfold tau. flra.
Qed.

Lemma mix_bounds C1 C2 L :
  0 <= C1 <= 255 -> 0 <= C2 <= 255 -> - tau <= L <= 1 + tau ->
  - (255 * tau) <= C1 + (C2 - C1) * L <= 255 + 255 * tau.
Proof.
  intros H1 H2 HL. unfold tau in *.
  destruct (Rle_dec L 0) as [Hneg|Hpos].
  - assert (0 <= (C2 - C1 + 255) * (- L)) by (apply Rmult_le_pos; lra).
    assert (0 <= (255 - (C2 - C1)) * (- L)) by (apply Rmult_le_pos; lra).
    lra.
  - destruct (Rle_dec L 1) as [Hle|Hgt].
    + assert (0 <= C1 * (1 - L)) by (apply Rmult_le_pos; lra).
      assert (0 <= C2 * L) by (apply Rmult_le_pos; lra).
      assert (0 <= (255 - C1) * (1 - L)) by (apply Rmult_le_pos; lra).
      assert (0 <= (255 - C2) * L) by (apply Rmult_le_pos; lra).
      lra.
    + assert (0 <= (C2 - C1 + 255) * (L - 1)) by (apply Rmult_le_pos; lra).
      assert (0 <= (255 - (C2 - C1)) * (L - 1)) by (apply Rmult_le_pos; lra).
      lra.
Qed.

Lemma interpolate_float_range c1 c2 lp :
  (0 <= c1 <= 255)%Z -> (0 <= c2 <= 255)%Z ->
  ok_float lp -> - tau <= F2R lp <= 1 + tau ->
  exists v, interpolate_float c1 c2 lp = Ok v /\ ok_float v /\ -1 < F2R v < 256.
Proof.
  intros Hc1 Hc2 Hok HL. unfold interpolate_float.
  pose proof eta_tiny as [Heta0 Heta].
  set (eta := bpow (-1074)) in *.
  set (C1 := IZR c1). set (C2 := IZR c2). set (L := F2R lp) in *.
  assert (HC1 : 0 <= C1 <= 255) by (unfold C1; split; apply IZR_le; lia).
  assert (HC2 : 0 <= C2 <= 255) by (unfold C2; split; apply IZR_le; lia).
  destruct (@float_of_int_spec (c2 - c1)) as (fd & Hfd & Hokd & _ & Hexd).
  { apply below_max. rewrite minus_IZR. fold C1 C2. apply Rabs_le. lra. }
  assert (HFd : F2R fd = C2 - C1).
  { rewrite Hexd by lia. apply minus_IZR. }
  destruct (@float_of_int_spec c1) as (f1 & Hf1 & Hok1 & _ & Hex1).
  { apply below_max. fold C1. apply Rabs_le. lra. }
  assert (HF1 : F2R f1 = C1) by (apply Hex1; lia).
  rewrite Hfd, Hf1. simpl bind.
  pose proof (@mix_bounds C1 C2 L HC1 HC2 HL) as Hmix.
  assert (HDL : Rabs ((C2 - C1) * L) <= 512).
  { apply Rabs_le. unfold tau in *. lra. }
  destruct (@float_mul_spec fd lp Hokd Hok) as [Hokw Herrw].
  { rewrite HFd. fold L. apply below_max. lra. }
  rewrite HFd in Herrw. fold L in Herrw.
  set (wf := float_mul fd lp) in *. set (w := F2R wf) in *.
  pose proof (@rnd_bounds_abs _ _ 512 Herrw HDL) as [Hwlo Hwhi].
  fold eta in Hwlo, Hwhi.
  assert (Hsum : Rabs (C1 + w) <= 1024).
  { apply Rabs_le. unfold tau, eps, tiny in *. lra. }
  destruct (@float_add_spec f1 wf Hok1 Hokw) as [Hokv Herrv].
  { rewrite HF1. fold w. apply below_max. lra. }
  rewrite HF1 in Herrv. fold w in Herrv.
  set (vf := float_add f1 wf) in *. set (v := F2R vf) in *.
  pose proof (@rnd_bounds_abs _ _ 1024 Herrv Hsum) as [Hvlo Hvhi].
  fold eta in Hvlo, Hvhi.
  exists vf. split; [reflexivity|]. split; [exact Hokv|].
  fold v. unfold tau, eps, tiny in *. lra.
Qed.

Lemma int_of_float_byte v :
  ok_float v -> -1 < F2R v < 256 ->
  exists k, int_of_float v = Ok k /\ (0 <= k <= 255)%Z.
Proof.
  intros Hok Hv.
  destruct (@int_of_float_spec v Hok) as (k & Hk & Hkpos & Hkneg).
  exists k. split; [exact Hk|].
  assert (Hkr : -1 < IZR k < 256).
  { destruct (Rle_dec 0 (F2R v)) as [Hp|Hn].
    - specialize (Hkpos Hp). lra.
    - assert (Hn' : F2R v <= 0) by lra. specialize (Hkneg Hn'). lra. }
  destruct Hkr as [Hk1 Hk2]. apply lt_IZR in Hk1, Hk2. lia.
Qed.

Lemma interpolate_range c1 c2 lp :
  (0 <= c1 <= 255)%Z -> (0 <= c2 <= 255)%Z ->
  ok_float lp -> - tau <= F2R lp <= 1 + tau ->
  exists k, interpolate c1 c2 lp = Ok k /\ (0 <= k <= 255)%Z.
Proof.
  intros Hc1 Hc2 Hok HL. unfold interpolate.
  destruct (@interpolate_float_range c1 c2 lp Hc1 Hc2 Hok HL)
    as (v & Hv & Hokv & Hrange).
  rewrite Hv. simpl bind. apply int_of_float_byte; assumption.
Qed.

Local Open Scope Z_scope.

(* ================================================================= *)
(** * Part V: the script meets its specification *)

(** ** Comprehensions, loops and ranges *)

Lemma bind_Ok (A B : Type) (m : result A) (k : A -> result B) (b : B) :
  bind m k = Ok b -> exists a, m = Ok a /\ k a = Ok b.
Proof.
  destruct m as [a | e]; simpl; intros H.
  - exists a; split; [reflexivity | exact H].
  - discriminate H.
Qed.

Lemma len_nonneg (A : Type) (l : list A) : 0 <= len l.
Proof. unfold len; lia. Qed.

Lemma len_app (A : Type) (l1 l2 : list A) : len (l1 ++ l2) = len l1 + len l2.
Proof. unfold len; rewrite length_app; lia. Qed.

Lemma len_repeat (A : Type) (a : A) (n : nat) : len (repeat a n) = Z.of_nat n.
Proof. unfold len; rewrite repeat_length; reflexivity. Qed.

Lemma mapM_length (A B : Type) (f : A -> result B) l bs :
  mapM f l = Ok bs -> List.length bs = List.length l.
Proof.
  revert bs; induction l as [|a l IH]; simpl; intros bs H.
  - inversion H; reflexivity.
  - apply bind_Ok in H. destruct H as (b & _ & H).
    apply bind_Ok in H. destruct H as (bs' & Hbs & H).
    inversion H; subst. simpl. f_equal. apply IH; exact Hbs.
Qed.

Lemma mapM_nth (A B : Type) (f : A -> result B) l bs k a :
  mapM f l = Ok bs -> nth_error l k = Some a ->
  exists b, nth_error bs k = Some b /\ f a = Ok b.
Proof.
  revert bs k; induction l as [|a0 l IH]; simpl; intros bs k H Hn.
  - destruct k; discriminate.
  - apply bind_Ok in H. destruct H as (b & Hb & H).
    apply bind_Ok in H. destruct H as (bs' & Hbs & H).
    inversion H; subst. destruct k as [|k]; simpl in *.
    + inversion Hn; subst. exists b; split; [reflexivity | exact Hb].
    + apply IH; assumption.
Qed.

Lemma mapM_In (A B : Type) (f : A -> result B) l bs b :
  mapM f l = Ok bs -> In b bs -> exists a, In a l /\ f a = Ok b.
Proof.
  revert bs; induction l as [|a0 l IH]; simpl; intros bs H Hin.
  - inversion H; subst. contradiction.
  - apply bind_Ok in H. destruct H as (b0 & Hb & H).
    apply bind_Ok in H. destruct H as (bs' & Hbs & H).
    inversion H; subst. destruct Hin as [<-|Hin].
    + exists a0; split; [left; reflexivity | exact Hb].
    + destruct (IH _ Hbs Hin) as (a & Ha & Hfa).
      exists a; split; [right; exact Ha | exact Hfa].
Qed.

Lemma mapM_Raise_In (A B : Type) (f : A -> result B) l e :
  mapM f l = Raise e -> exists a, In a l /\ f a = Raise e.
Proof.
  induction l as [|a l IH]; simpl; [discriminate|].
  destruct (f a) as [b|e0] eqn:E; simpl.
  - destruct (mapM f l) as [bs|e1]; simpl; [discriminate|].
    intros H; inversion H; subst.
    destruct (IH eq_refl) as (a' & Hin & Ha'). exists a'. auto.
  - intros H; inversion H; subst. exists a. auto.
Qed.

Lemma mapM_Forall2 (A B : Type) (f : A -> result B) l bs :
  mapM f l = Ok bs -> Forall2 (fun a b => f a = Ok b) l bs.
Proof.
  revert bs; induction l as [|a l IH]; simpl; intros bs H.
  - inversion H; subst. constructor.
  - apply bind_Ok in H. destruct H as (b & Hb & H).
    apply bind_Ok in H. destruct H as (bs' & Hbs & H).
    inversion H; subst. constructor; [exact Hb | apply IH; exact Hbs].
Qed.

Lemma mapM_total (A B : Type) (f : A -> result B) l :
  (forall a, In a l -> exists b, f a = Ok b) -> exists bs, mapM f l = Ok bs.
Proof.
  induction l as [|a l IH]; simpl; intros H.
  - exists []; reflexivity.
  - destruct (H a (or_introl eq_refl)) as (b & Hb).
    destruct IH as (bs & Hbs); [intros a' Ha'; apply H; right; exact Ha'|].
    exists (b :: bs). rewrite Hb, Hbs. reflexivity.
Qed.

Lemma mapM_ext (A B : Type) (f g : A -> result B) l :
  (forall a, In a l -> f a = g a) -> mapM f l = mapM g l.
Proof.
  induction l as [|a l IH]; simpl; intros H; [reflexivity|].
  rewrite (H a (or_introl eq_refl)), IH; [reflexivity|].
  intros a' Ha'; apply H; right; exact Ha'.
Qed.

Lemma mapM_map (A B C : Type) (f : B -> result C) (g : A -> B) l :
  mapM f (map g l) = mapM (fun a => f (g a)) l.
Proof. induction l as [|a l IH]; simpl; [reflexivity | rewrite IH; reflexivity]. Qed.

Lemma mapM_app (A B : Type) (f : A -> result B) l1 l2 :
  mapM f (l1 ++ l2)
  = bind (mapM f l1) (fun bs1 => bind (mapM f l2) (fun bs2 => Ok (bs1 ++ bs2))).
Proof.
  induction l1 as [|a l1 IH]; simpl.
  - destruct (mapM f l2); reflexivity.
  - destruct (f a) as [b|e]; simpl; [|reflexivity].
    rewrite IH. destruct (mapM f l1) as [bs1|e]; simpl; [|reflexivity].
    destruct (mapM f l2); reflexivity.
Qed.

(** A loop that appends one element per iteration is a comprehension. *)
Lemma for_each_append (A B : Type) (f : A -> result B) l acc :
  for_each l (fun a pixels => bind (f a) (fun b => Ok (pixels ++ [b]))) acc
  = bind (mapM f l) (fun bs => Ok (acc ++ bs)).
Proof.
  revert acc; induction l as [|a l IH]; simpl; intros acc.
  - rewrite app_nil_r; reflexivity.
  - destruct (f a) as [b|e]; simpl; [|reflexivity].
    rewrite IH. destruct (mapM f l) as [bs|e]; simpl; [|reflexivity].
    rewrite <- app_assoc. reflexivity.
Qed.

Lemma py_range_length a b : List.length (py_range a b) = Z.to_nat (b - a).
Proof. unfold py_range. rewrite length_map, length_seq. reflexivity. Qed.

Lemma len_py_range a b : a <= b -> len (py_range a b) = b - a.
Proof. intros H. unfold len. rewrite py_range_length. lia. Qed.

Lemma py_range_In a b i : In i (py_range a b) <-> a <= i < b.
Proof.
  unfold py_range. rewrite in_map_iff. split.
  - intros (k & <- & Hk). apply in_seq in Hk. lia.
  - intros H. exists (Z.to_nat (i - a)). split; [lia|]. apply in_seq. lia.
Qed.

Lemma py_range_nth a b k :
  (k < Z.to_nat (b - a))%nat ->
  nth_error (py_range a b) k = Some (a + Z.of_nat k).
Proof.
  intros H. unfold py_range.
  rewrite nth_error_map, nth_error_seq.
  destruct (Nat.ltb_spec k (Z.to_nat (b - a))) as [_|Hge]; [reflexivity | lia].
Qed.

Lemma py_range_empty a b : b <= a -> py_range a b = [].
Proof.
  intros H. unfold py_range. replace (Z.to_nat (b - a)) with 0%nat by lia.
  reflexivity.
Qed.

Lemma seq_from (s n : nat) : seq s n = map (fun k => (s + k)%nat) (seq 0 n).
Proof.
  revert s; induction n as [|n IH]; intros s; simpl; [reflexivity|].
  f_equal; [lia|]. rewrite (IH (S s)), <- seq_shift, map_map.
  apply map_ext. intros k. lia.
Qed.

Lemma py_range_app a b c :
  a <= b -> b <= c -> py_range a c = py_range a b ++ py_range b c.
Proof.
  intros Hab Hbc. unfold py_range.
  replace (Z.to_nat (c - a)) with (Z.to_nat (b - a) + Z.to_nat (c - b))%nat by lia.
  rewrite seq_app, map_app. f_equal.
  rewrite (seq_from (0 + Z.to_nat (b - a))), map_map.
  apply map_ext. intros k. lia.
Qed.

Lemma py_range_succ a b : a <= b -> py_range a (b + 1) = py_range a b ++ [b].
Proof.
  intros H. rewrite (@py_range_app a b (b + 1)) by lia. f_equal.
  unfold py_range. replace (Z.to_nat (b + 1 - b)) with 1%nat by lia.
  simpl. f_equal. lia.
Qed.

Lemma py_getitem_Ok (A : Type) (l : list A) i :
  0 <= i < len l ->
  exists a, py_getitem l i = Ok a /\ nth_error l (Z.to_nat i) = Some a.
Proof.
  intros H. unfold py_getitem.
  replace (i <? 0) with false by (symmetry; apply Z.ltb_ge; lia).
  replace ((0 <=? i) && (i <? len l)) with true
    by (symmetry; apply andb_true_iff; split; [apply Z.leb_le | apply Z.ltb_lt]; lia).
  destruct (nth_error l (Z.to_nat i)) as [a|] eqn:E.
  - exists a; split; reflexivity.
  - apply nth_error_None in E. unfold len in H. lia.
Qed.

(** ** The palette loader *)

Lemma str_len_nonneg s : 0 <= str_len s.
Proof. unfold str_len; lia. Qed.

(** The filter on blank lines never changes what the filter on the length
    keeps. *)
Lemma accepted_lines_filter lines :
  accepted_lines lines
  = filter (fun hex_color => str_len hex_color =? 6) (map strip lines).
Proof.
  unfold accepted_lines, hex_colors.
  induction lines as [|line lines IH]; simpl; [reflexivity|].
  destruct (str_len (strip line) =? 0) eqn:Eblank; simpl.
  - apply Z.eqb_eq in Eblank. rewrite Eblank. simpl. exact IH.
  - destruct (str_len (strip line) =? 6); rewrite IH; reflexivity.
Qed.

Lemma hex_digit_facts c d :
  hex_digit c = Some d ->
  int_space c = false /\ (code c =? 43) = false /\ (code c =? 45) = false
  /\ (code c =? 120) = false /\ (code c =? 88) = false
  /\ is_underscore c = false /\ 0 <= d <= 15.
Proof.
  destruct c as [[|] [|] [|] [|] [|] [|] [|] [|]]; vm_compute;
    intros H; try discriminate H; inversion H; subst;
    repeat split; discriminate.
Qed.

Lemma hex_digit_range c d : hex_digit c = Some d -> 0 <= d <= 15.
Proof. intros H. apply (hex_digit_facts _ H). Qed.

Lemma int16_two_digits c0 c1 d0 d1 :
  hex_digit c0 = Some d0 -> hex_digit c1 = Some d1 ->
  int16 (String c0 (String c1 EmptyString)) = Ok (16 * d0 + d1).
Proof.
  intros H0 H1.
  destruct (hex_digit_facts _ H0) as (Hs0 & Hp0 & Hm0 & _ & _ & _ & _).
  destruct (hex_digit_facts _ H1) as (_ & _ & _ & Hx1 & HX1 & _ & _).
  unfold int16, parse_int16. simpl list_ascii_of_string.
  simpl skip_int_space. rewrite Hs0, Hp0, Hm0.
  unfold strip_prefix. rewrite Hx1, HX1, andb_false_r.
  simpl starts_with_digit. rewrite H0.
  simpl scan_digits. rewrite H0, H1. simpl. reflexivity.
Qed.

Lemma hex_to_rgb_six_digits c0 c1 c2 c3 c4 c5 d0 d1 d2 d3 d4 d5 :
  hex_digit c0 = Some d0 -> hex_digit c1 = Some d1 ->
  hex_digit c2 = Some d2 -> hex_digit c3 = Some d3 ->
  hex_digit c4 = Some d4 -> hex_digit c5 = Some d5 ->
  hex_to_rgb (String c0 (String c1 (String c2 (String c3
                (String c4 (String c5 EmptyString))))))
  = Ok (16 * d0 + d1, 16 * d2 + d3, 16 * d4 + d5)
  /\ byte_color (16 * d0 + d1, 16 * d2 + d3, 16 * d4 + d5).
Proof.
  intros H0 H1 H2 H3 H4 H5. split.
  - unfold hex_to_rgb, slice2. simpl substring.
    rewrite (int16_two_digits _ _ H0 H1), (int16_two_digits _ _ H2 H3),
      (int16_two_digits _ _ H4 H5).
    reflexivity.
  - pose proof (hex_digit_range _ H0). pose proof (hex_digit_range _ H1).
    pose proof (hex_digit_range _ H2). pose proof (hex_digit_range _ H3).
    pose proof (hex_digit_range _ H4). pose proof (hex_digit_range _ H5).
    unfold byte_color, byte. lia.
Qed.

Lemma accepted_lines_In lines s :
  In s (accepted_lines lines)
  <-> exists line, In line lines /\ s = strip line /\ str_len s = 6.
Proof.
  rewrite accepted_lines_filter, filter_In, in_map_iff. split.
  - intros [(line & Hs & Hin) Hlen]. exists line.
    split; [exact Hin|]. split; [symmetry; exact Hs | apply Z.eqb_eq; exact Hlen].
  - intros (line & Hin & Hs & Hlen). split.
    + exists line. split; [symmetry; exact Hs | exact Hin].
    + apply Z.eqb_eq; exact Hlen.
Qed.

(** The channels [hex_to_rgb] can return: [int(s, 16)] is checked on every
    string of at most two characters. *)
Lemma in_all_ascii a : In a (map ascii_of_nat (seq 0 256)).
Proof.
  rewrite <- (ascii_nat_embedding a). apply in_map. apply in_seq.
  pose proof (nat_ascii_bounded a). lia.
Qed.

(** [int(s, 16)] on each string of one and of two characters. *)
Lemma parse_int16_table :
  forallb (fun a =>
             match parse_int16 [a] with
             | Some v => (-15 <=? v) && (v <=? 255)
             | None => true
             end
             && forallb (fun b =>
                           match parse_int16 [a; b] with
                           | Some v => (-15 <=? v) && (v <=? 255)
                           | None => true
                           end)
                        (map ascii_of_nat (seq 0 256)))
          (map ascii_of_nat (seq 0 256))
  = true.
Proof. vm_compute. reflexivity. Qed.

Lemma substring_length n m s : (String.length (substring n m s) <= m)%nat.
Proof.
  revert n m. induction s as [|c s IH]; intros [|n] [|m]; simpl; try lia.
  - specialize (IH 0%nat m). lia.
  - apply IH.
  - apply IH.
Qed.

Lemma int16_slice_range s i :
  match int16 (slice2 s i) with
  | Ok v => wide_channel v
  | Raise e => e = ValueError
  end.
Proof.
  unfold slice2, int16. pose proof (substring_length i 2 s) as Hlen.
  pose proof parse_int16_table as Htab. rewrite forallb_forall in Htab.
  destruct (substring i 2 s) as [|a [|b [|c t]]]; simpl in Hlen; try lia;
    simpl list_ascii_of_string.
  - reflexivity.
  - specialize (Htab a (in_all_ascii a)). apply andb_true_iff in Htab.
    destruct Htab as [H1 _].
    destruct (parse_int16 [a]) as [v|]; [|reflexivity].
    unfold wide_channel. lia.
  - specialize (Htab a (in_all_ascii a)). apply andb_true_iff in Htab.
    destruct Htab as [_ H2]. rewrite forallb_forall in H2.
    specialize (H2 b (in_all_ascii b)).
    destruct (parse_int16 [a; b]) as [v|]; [|reflexivity].
    unfold wide_channel. lia.
Qed.

Lemma hex_to_rgb_range s :
  match hex_to_rgb s with
  | Ok c => wide_color c
  | Raise e => e = ValueError
  end.
Proof.
  unfold hex_to_rgb.
  pose proof (int16_slice_range s 0) as H0.
  pose proof (int16_slice_range s 2) as H2.
  pose proof (int16_slice_range s 4) as H4.
  destruct (int16 (slice2 s 0)) as [r|e]; cbn [bind]; [|exact H0].
  destruct (int16 (slice2 s 2)) as [g|e]; cbn [bind]; [|exact H2].
  destruct (int16 (slice2 s 4)) as [b|e]; cbn [bind]; [|exact H4].
  repeat split; assumption || apply H0 || apply H2 || apply H4.
Qed.

(** C7, as the specification states it, does not hold: a line that the
    loader accepts need not be read as three bytes.  The line ["-f+a 9"]
    has six characters once its end of line is stripped, so it is
    accepted; [int(s, 16)] reads its chunks ["-f"], ["+a"] and [" 9"] as
    -15, 10 and 9, and the palette holds the colour [(-15, 10, 9)], whose
    first channel is no byte. *)
Lemma accepted_line_is_not_read_as_three_bytes :
  accepted_lines ["-f+a 9
"%string] = ["-f+a 9"%string]
  /\ hex_to_rgb "-f+a 9" = Ok (-15, 10, 9)
  /\ ~ byte_color (-15, 10, 9)
  /\ load_palette ["-f+a 9
"%string] = Ok [(-15, 10, 9)].
Proof.
  split; [vm_compute; reflexivity|].
  split; [vm_compute; reflexivity|].
  split; [|vm_compute; reflexivity].
  unfold byte_color, byte. lia.
Qed.

(** C7, amended.  The loader keeps a line exactly when the line, stripped
    of its surrounding white space, has six characters (a blank line has
    none), and hands the lines kept to [hex_to_rgb], in order: the palette
    holds one colour per line kept, the one [hex_to_rgb] returns for it,
    and the loader raises only when [hex_to_rgb] raises on a line kept.
    On any string [hex_to_rgb] either raises [ValueError] or returns
    channels from -15 to 255, which need not be bytes.  Six hexadecimal
    digits are read as three bytes, two digits each, so that ["ff0000"] is
    [(255, 0, 0)] and ["00ff00"] is [(0, 255, 0)]. *)
Theorem palette_loader_reads_accepted_lines :
  (forall lines,
      accepted_lines lines
      = filter (fun s => str_len s =? 6) (map strip lines))
  /\ (forall lines s,
         In s (accepted_lines lines)
         <-> exists line, In line lines /\ s = strip line /\ str_len s = 6)
  /\ (forall lines,
         match load_palette lines with
         | Ok rgb_colors =>
             Forall2 (fun s c => hex_to_rgb s = Ok c)
                     (accepted_lines lines) rgb_colors
         | Raise e =>
             e = ValueError
             /\ exists s, In s (accepted_lines lines)
                          /\ hex_to_rgb s = Raise ValueError
         end)
  /\ (forall s,
         match hex_to_rgb s with
         | Ok c => wide_color c
         | Raise e => e = ValueError
         end)
  /\ (forall c0 c1 c2 c3 c4 c5 d0 d1 d2 d3 d4 d5,
         hex_digit c0 = Some d0 -> hex_digit c1 = Some d1 ->
         hex_digit c2 = Some d2 -> hex_digit c3 = Some d3 ->
         hex_digit c4 = Some d4 -> hex_digit c5 = Some d5 ->
         hex_to_rgb (String c0 (String c1 (String c2 (String c3
                       (String c4 (String c5 EmptyString))))))
         = Ok (16 * d0 + d1, 16 * d2 + d3, 16 * d4 + d5)
         /\ byte_color (16 * d0 + d1, 16 * d2 + d3, 16 * d4 + d5))
  /\ hex_to_rgb "ff0000" = Ok (255, 0, 0)
  /\ hex_to_rgb "00ff00" = Ok (0, 255, 0).
Proof.
  split; [exact accepted_lines_filter|].
  split; [exact accepted_lines_In|].
  split.
  { intros lines. unfold load_palette.
    destruct (mapM hex_to_rgb (accepted_lines lines)) as [colors|e] eqn:E.
    - apply mapM_Forall2. exact E.
    - apply mapM_Raise_In in E. destruct E as (s & Hin & Hs).
      pose proof (hex_to_rgb_range s) as Hr. rewrite Hs in Hr. subst e.
      split; [reflexivity|]. exists s. split; assumption. }
  split; [exact hex_to_rgb_range|].
  split; [exact hex_to_rgb_six_digits|].
  split; reflexivity.
Qed.

Lemma palette_loader_reads_accepted_lines_witness :
  hex_to_rgb "ff00a9" = Ok (255, 0, 169) /\ byte_color (255, 0, 169).
Proof.
  destruct palette_loader_reads_accepted_lines as (_ & _ & _ & _ & H & _).
  apply (H "f"%char "f"%char "0"%char "0"%char "a"%char "9"%char
           15 15 0 0 10 9); reflexivity.
Defined.

(** [hex_to_rgb] raises nothing but [ValueError]. *)
Lemma hex_to_rgb_raises s e : hex_to_rgb s = Raise e -> e = ValueError.
Proof.
  unfold hex_to_rgb, int16. intros H.
  destruct (parse_int16 (list_ascii_of_string (slice2 s 0))); simpl in H;
    [|inversion H; reflexivity].
  destruct (parse_int16 (list_ascii_of_string (slice2 s 2))); simpl in H;
    [|inversion H; reflexivity].
  destruct (parse_int16 (list_ascii_of_string (slice2 s 4))); simpl in H;
    [discriminate H | inversion H; reflexivity].
Qed.

Lemma mapM_raises (A B : Type) (f : A -> result B) l a e :
  (forall a' e', f a' = Raise e' -> e' = e) ->
  In a l -> f a = Raise e -> mapM f l = Raise e.
Proof.
  intros Hall. induction l as [|a0 l IH]; simpl; intros Hin Hf; [contradiction|].
  destruct (f a0) as [b|e0] eqn:E0; simpl.
  - destruct Hin as [->|Hin]; [congruence|].
    rewrite (IH Hin Hf). reflexivity.
  - f_equal. apply (Hall _ _ E0).
Qed.

Lemma load_palette_raises lines line :
  In line lines -> str_len (strip line) = 6 ->
  hex_to_rgb (strip line) = Raise ValueError ->
  load_palette lines = Raise ValueError.
Proof.
  intros Hin Hlen Hraise. unfold load_palette.
  apply mapM_raises with (a := strip line).
  - intros s e. apply hex_to_rgb_raises.
  - apply accepted_lines_In. exists line. repeat split; assumption.
  - exact Hraise.
Qed.

(** ** Files without colours and files with a malformed line *)

Section ScriptProperties.

Variable rng : Type.
Variable random_choice : list color -> rng -> color * rng.
Variable random_randint : Z -> Z -> rng -> Z * rng.
Variable random_sample : list color -> Z -> rng -> list color * rng.

Local Abbreviation run_file :=
  (process_hex_file random_choice random_randint random_sample).
Local Abbreviation run_files :=
  (process_files random_choice random_randint random_sample).
Local Abbreviation run_main :=
  (main random_choice random_randint random_sample).

(** C8.  A file whose lines give no colour makes [process_hex_file] print
    its diagnostic and return: no image is saved, no exception is raised
    and the state of [random] is untouched.  [main] then goes on with the
    files that follow, exactly as it would have processed them alone. *)
Theorem empty_palette_is_skipped :
  forall (path : string) (lines : list string)
         (rest : list (string * list string)) (g : rng),
    load_palette lines = Ok [] ->
    run_file path lines g
    = ([Print ("No valid colors found in " ++ path)%string], Ok g)
    /\ run_main ((path, lines) :: rest) g
       = (Print ("Processing " ++ path ++ "...")%string
            :: Print ("No valid colors found in " ++ path)%string
            :: fst (run_files rest g),
          snd (run_files rest g)).
Proof.
  intros path lines rest g Hload.
  assert (Hfile : run_file path lines g
                  = ([Print ("No valid colors found in " ++ path)%string], Ok g)).
  { unfold process_hex_file. rewrite Hload. reflexivity. }
  split; [exact Hfile|].
  unfold main. simpl is_empty. simpl process_files. rewrite Hfile.
  destruct (run_files rest g) as [events r]. reflexivity.
Qed.

(** C9.  A line of six characters that [hex_to_rgb] cannot read is not
    dropped: the exception of [hex_to_rgb] leaves [process_hex_file], which
    has then printed and saved nothing, and leaves [main], which processes
    none of the files that follow. *)
Theorem invalid_hex_line_aborts_run :
  forall (path : string) (lines : list string)
         (rest : list (string * list string)) (g : rng) (line : string),
    In line lines ->
    str_len (strip line) = 6 ->
    hex_to_rgb (strip line) = Raise ValueError ->
    run_file path lines g = ([], Raise ValueError)
    /\ run_main ((path, lines) :: rest) g
       = ([Print ("Processing " ++ path ++ "...")%string], Raise ValueError).
Proof.
  intros path lines rest g line Hin Hlen Hraise.
  assert (Hfile : run_file path lines g = ([], Raise ValueError)).
  { unfold process_hex_file.
    rewrite (load_palette_raises _ _ Hin Hlen Hraise). reflexivity. }
  split; [exact Hfile|].
  unfold main. simpl is_empty. simpl process_files. rewrite Hfile. reflexivity.
Qed.

End ScriptProperties.

Lemma empty_palette_is_skipped_witness :
  main first_choice lowest_int first_sample
       [("a.hex", ["
"; "12345
"; "#ff0000
"]); ("b.hex", [])]%string tt
  = ([Print "Processing a.hex..."; Print "No valid colors found in a.hex";
      Print "Processing b.hex..."; Print "No valid colors found in b.hex"]%string,
     Ok tt).
Proof.
  exact (proj2 (@empty_palette_is_skipped unit first_choice lowest_int
                  first_sample "a.hex"%string
                  ["
"; "12345
"; "#ff0000
"]%string [("b.hex"%string, [])] tt eq_refl)).
Defined.

Lemma invalid_hex_line_aborts_run_witness :
  main first_choice lowest_int first_sample
       [("a.hex", ["ff0000
"; "zzzzzz
"]); ("b.hex", ["00ff00
"])]%string tt
  = ([Print "Processing a.hex..."%string], Raise ValueError).
Proof.
  exact (proj2 (@invalid_hex_line_aborts_run unit first_choice lowest_int
                  first_sample "a.hex"%string
                  ["ff0000
"; "zzzzzz
"]%string [("b.hex", ["00ff00
"])]%string tt "zzzzzz
"%string (or_intror (or_introl eq_refl)) eq_refl eq_refl)).
Defined.

(** ** The colour grid *)

Lemma max_cols_value : max_cols = 19.
Proof. reflexivity. Qed.

Lemma total_gradient_width_value : total_gradient_width = 1944.
Proof. reflexivity. Qed.

Lemma grid_cols_min n : grid_cols n = Z.min max_cols n.
Proof.
  unfold grid_cols. destruct (Z.geb_spec (Z.min max_cols n) n); lia.
Qed.

Lemma grid_cols_bounds n : 1 <= n -> 1 <= grid_cols n <= n.
Proof. intros H. rewrite grid_cols_min, max_cols_value. lia. Qed.

Lemma grid_division n :
  1 <= n ->
  total_gradient_width
  = grid_cols n * square_width n + remaining_width_per_row n
  /\ 0 <= remaining_width_per_row n < grid_cols n.
Proof.
  intros H. pose proof (grid_cols_bounds H) as Hc.
  unfold square_width, remaining_width_per_row. split.
  - apply Z.div_mod. lia.
  - apply Z.mod_pos_bound. lia.
Qed.

Lemma square_col_bounds n i : 1 <= n -> 0 <= square_col n i < grid_cols n.
Proof.
  intros H. pose proof (grid_cols_bounds H). unfold square_col.
  apply Z.mod_pos_bound. lia.
Qed.

Lemma square_col_next n i :
  1 <= n -> square_col n i + 1 < grid_cols n ->
  square_col n (i + 1) = square_col n i + 1.
Proof.
  intros H Hlt. pose proof (grid_cols_bounds H) as Hc.
  pose proof (square_col_bounds i H) as Hb. unfold square_col in *.
  rewrite Z.add_mod by lia.
  rewrite (Z.mod_small 1) by lia. apply Z.mod_small. lia.
Qed.

Lemma square_col_in_row n row k :
  1 <= n -> 0 <= k < grid_cols n -> square_col n (row * grid_cols n + k) = k.
Proof.
  intros H Hk. unfold square_col.
  rewrite Z.add_comm, Z_mod_plus_full. apply Z.mod_small. exact Hk.
Qed.

Lemma Zsum_app l1 l2 : Zsum (l1 ++ l2) = Zsum l1 + Zsum l2.
Proof.
  unfold Zsum. induction l1 as [|a l1 IH]; simpl; [reflexivity | rewrite IH; lia].
Qed.

(** The squares of the first [k] columns of a row are as wide, together,
    as the abscissa of the square that follows them. *)
Lemma row_prefix_width n row k :
  1 <= n -> (Z.of_nat k <= grid_cols n) ->
  Zsum (map (current_square_width n)
            (py_range (row * grid_cols n) (row * grid_cols n + Z.of_nat k)))
  = Z.of_nat k * square_width n
    + Z.min (Z.of_nat k) (remaining_width_per_row n).
Proof.
  intros H. pose proof (grid_division H) as [_ Hrem].
  induction k as [|k IH]; intros Hk.
  - rewrite py_range_empty by lia. simpl. lia.
  - rewrite Nat2Z.inj_succ in *. unfold Z.succ in *.
    rewrite Z.add_assoc, py_range_succ, map_app, Zsum_app by lia.
    rewrite IH by lia. simpl map. unfold Zsum at 1. simpl fold_right.
    unfold current_square_width.
    rewrite square_col_in_row by lia.
    destruct (Z.ltb_spec (Z.of_nat k) (remaining_width_per_row n)); lia.
Qed.

(** C1.  For a palette of [n >= 1] colours the grid has between one and
    [n] columns.  In every row the first [remaining_width_per_row] columns
    are one pixel wider than [square_width] and the others are exactly
    that wide; the first square starts at abscissa 0, each next square of
    the row starts where the previous one ends, the last one ends at
    [total_gradient_width], and the widths of the squares of a full row
    add up to [total_gradient_width]. *)
Theorem grid_rows_tile_exactly :
  forall n, 1 <= n ->
    1 <= grid_cols n <= n
    /\ square_width n = total_gradient_width / grid_cols n
    /\ remaining_width_per_row n = total_gradient_width mod grid_cols n
    /\ (forall i, 0 <= i ->
          (square_col n i < remaining_width_per_row n ->
           current_square_width n i = square_width n + 1)
          /\ (remaining_width_per_row n <= square_col n i ->
              current_square_width n i = square_width n))
    /\ (forall i, 0 <= i -> square_col n i = 0 -> square_x n i = 0)
    /\ (forall i, 0 <= i -> square_col n i + 1 < grid_cols n ->
          square_row n (i + 1) = square_row n i
          /\ square_x n (i + 1) = square_x n i + current_square_width n i)
    /\ (forall i, 0 <= i -> square_col n i = grid_cols n - 1 ->
          square_x n i + current_square_width n i = total_gradient_width)
    /\ (forall row, 0 <= row ->
          Zsum (row_widths n row) = total_gradient_width).
Proof.
  intros n Hn.
  pose proof (grid_cols_bounds Hn) as Hcols.
  pose proof (grid_division Hn) as [Hdiv Hrem].
  split; [exact Hcols|]. split; [reflexivity|]. split; [reflexivity|].
  split.
  { intros i _. unfold current_square_width. split; intros H.
    - destruct (Z.ltb_spec (square_col n i) (remaining_width_per_row n)); lia.
    - destruct (Z.ltb_spec (square_col n i) (remaining_width_per_row n)); lia. }
  split.
  { intros i _ Hcol. unfold square_x. rewrite Hcol.
    destruct (Z.ltb_spec 0 (remaining_width_per_row n)); lia. }
  split.
  { intros i Hi Hnext. split.
    - unfold square_row. pose proof (square_col_bounds i Hn) as Hb.
      unfold square_col in *.
      pose proof (Z.div_mod i (grid_cols n) ltac:(lia)) as Hdm.
      symmetry. apply Z.div_unique with (i mod grid_cols n + 1); lia.
    - unfold square_x, current_square_width.
      rewrite (square_col_next i Hn Hnext).
      pose proof (square_col_bounds i Hn) as Hb.
      destruct (Z.ltb_spec (square_col n i + 1) (remaining_width_per_row n));
        destruct (Z.ltb_spec (square_col n i) (remaining_width_per_row n)); lia. }
  split.
  { intros i _ Hlast. unfold square_x, current_square_width. rewrite Hlast.
    destruct (Z.ltb_spec (grid_cols n - 1) (remaining_width_per_row n)); lia. }
  intros row _. unfold row_widths.
  replace ((row + 1) * grid_cols n)
    with (row * grid_cols n + Z.of_nat (Z.to_nat (grid_cols n))) by lia.
  rewrite row_prefix_width by lia. lia.
Qed.

Lemma grid_rows_tile_exactly_witness :
  grid_cols 20 = 19 /\ square_width 20 = 102
  /\ remaining_width_per_row 20 = 6
  /\ Zsum (row_widths 20 1) = total_gradient_width.
Proof.
  destruct (grid_rows_tile_exactly (n := 20) ltac:(lia))
    as (_ & _ & _ & _ & _ & _ & _ & Hsum).
  split; [reflexivity|]. split; [reflexivity|]. split; [reflexivity|].
  apply Hsum. lia.
Defined.

(** ** The main gradient *)

Lemma for_each_invariant (A S : Type) (P : S -> Prop)
  (body : A -> S -> result S) l s s' :
  (forall a s1 s2, body a s1 = Ok s2 -> P s1 -> P s2) ->
  P s -> for_each l body s = Ok s' -> P s'.
Proof.
  intros Hbody. revert s; induction l as [|a l IH]; simpl; intros s Hs H.
  - inversion H; subst; exact Hs.
  - apply bind_Ok in H. destruct H as (s1 & H1 & H).
    apply (IH s1); [apply (Hbody a s s1); assumption | exact H].
Qed.

Section Pastes.

Variable rng : Type.
Variable random_choice : list color -> rng -> color * rng.
Variable random_randint : Z -> Z -> rng -> Z * rng.
Variable random_sample : list color -> Z -> rng -> list color * rng.

Lemma neighbor_gradient_keeps rgb_colors i st st' p :
  neighbor_gradient random_choice random_randint rgb_colors i st = Ok st' ->
  In p (pastes (fst st)) -> In p (pastes (fst st')).
Proof.
  unfold neighbor_gradient. destruct st as [cv g].
  destruct (random_choice rgb_colors g) as [start_color g1].
  destruct (random_randint 1 3 g1) as [max_neighbors g2].
  destruct (random_randint 2 4 g2) as [min_distance g3].
  intros H Hin. apply bind_Ok in H. destruct H as (neighbors & _ & H).
  destruct (if is_empty neighbors then ([start_color], g3)
            else let '(k, g) := random_randint 1 (Z.min 2 (len neighbors)) g3 in
                 (start_color :: slice_to neighbors k, g)) as [gradient_colors g4].
  apply bind_Ok in H. destruct H as (gradient & _ & H).
  inversion H; subst. simpl. apply in_or_app. left. exact Hin.
Qed.

Lemma random_gradient_keeps rgb_colors i st st' p :
  random_gradient random_randint random_sample rgb_colors i st = Ok st' ->
  In p (pastes (fst st)) -> In p (pastes (fst st')).
Proof.
  unfold random_gradient. destruct st as [cv g].
  destruct (random_randint 2 3 g) as [num_random_colors g1].
  destruct (random_sample rgb_colors (Z.min num_random_colors (len rgb_colors)) g1)
    as [gradient_colors g2].
  intros H Hin. apply bind_Ok in H. destruct H as (gradient & _ & H).
  inversion H; subst. simpl. apply in_or_app. left. exact Hin.
Qed.

(** On every canvas the script completes, the main gradient is the image
    of width [actual_main_gradient_width] pasted at the abscissa
    [total_gradient_width]. *)
Lemma main_gradient_pasted rgb_colors g cv g' :
  compose_atlas random_choice random_randint random_sample rgb_colors g
  = Ok (cv, g') ->
  exists data,
    In (Paste (Pixels actual_main_gradient_width canvas_size data)
              total_gradient_width 0)
       (pastes cv).
Proof.
  unfold compose_atlas. intros H.
  apply bind_Ok in H. destruct H as (sq_height & _ & H).
  apply bind_Ok in H. destruct H as (main_gradient & Hmain & H).
  unfold create_gradient in Hmain.
  apply bind_Ok in Hmain. destruct Hmain as (data & _ & Hmain).
  inversion Hmain; subst main_gradient. clear Hmain.
  apply bind_Ok in H. destruct H as ([darkest lightest] & _ & H).
  apply bind_Ok in H. destruct H as (first_gradient & _ & H).
  apply bind_Ok in H. destruct H as (st & Hrow1 & Hrow2).
  exists data.
  set (p := Paste (Pixels actual_main_gradient_width canvas_size data)
                  total_gradient_width 0).
  change cv with (fst (cv, g')).
  eapply for_each_invariant with (P := fun st => In p (pastes (fst st)));
    [ | | exact Hrow2].
  - intros a s1 s2 Hb. apply random_gradient_keeps with (1 := Hb).
  - eapply for_each_invariant with (P := fun st => In p (pastes (fst st)));
      [ | | exact Hrow1].
    + intros a s1 s2 Hb. apply neighbor_gradient_keeps with (1 := Hb).
    + simpl. apply in_or_app. left. apply in_or_app. right. left. reflexivity.
Qed.

End Pastes.

(** C3, as the specification states it, does not hold: the constant
    [main_gradient_width] and the width of the twelve bottom gradients
    leave four columns of the canvas over. *)
Lemma main_gradient_width_leaves_a_gap :
  main_gradient_width + total_gradient_width <> canvas_size.
Proof.
  unfold main_gradient_width, canvas_size.
  rewrite total_gradient_width_value. lia.
Qed.

(** C3, amended.  The width the main gradient is drawn with is
    [actual_main_gradient_width], the canvas width less
    [total_gradient_width]: it is this width, 104, and not the constant
    [main_gradient_width], 100, that adds up with [total_gradient_width]
    to the canvas width 2048, and every canvas the script completes shows
    the main gradient at that width from [total_gradient_width] on. *)
Theorem actual_main_gradient_fills_canvas :
  actual_main_gradient_width + total_gradient_width = canvas_size
  /\ actual_main_gradient_width = main_gradient_width + 4
  /\ main_gradient_width + total_gradient_width = canvas_size - 4
  /\ forall (rng : Type)
       (random_choice : list color -> rng -> color * rng)
       (random_randint : Z -> Z -> rng -> Z * rng)
       (random_sample : list color -> Z -> rng -> list color * rng)
       (rgb_colors : list color) (g : rng),
       match compose_atlas random_choice random_randint random_sample
               rgb_colors g with
       | Ok (cv, _) =>
           exists data,
             In (Paste (Pixels actual_main_gradient_width canvas_size data)
                       total_gradient_width 0)
                (pastes cv)
       | Raise _ => True
       end.
Proof.
  split; [reflexivity|]. split; [reflexivity|]. split; [reflexivity|].
  intros rng rc ri rs rgb_colors g.
  destruct (compose_atlas rc ri rs rgb_colors g) as [[cv g']|e] eqn:E;
    [|exact I].
  apply (main_gradient_pasted _ _ _ _ _ E).
Qed.

(** ** Gradients of one colour *)

Lemma gradient_pixels_single c width height vertical :
  gradient_pixels [c] width height vertical
  = Ok (repeat c (Z.to_nat (width * height))).
Proof. reflexivity. Qed.

(** C6.  For a list of one colour and a width and a height of at least
    one, [create_gradient] returns an image of that size whose buffer holds
    [width * height] pixels, each of them the colour of the list. *)
Theorem single_color_gradient_is_constant :
  forall (c : color) (width height : Z) (vertical : bool),
    1 <= width -> 1 <= height ->
    exists pixels,
      create_gradient [c] width height vertical
      = Ok (Pixels width height pixels)
      /\ len pixels = width * height
      /\ Forall (fun p => p = c) pixels.
Proof.
  intros c width height vertical Hw Hh.
  exists (repeat c (Z.to_nat (width * height))).
  split; [|split].
  - unfold create_gradient. rewrite gradient_pixels_single. reflexivity.
  - rewrite len_repeat. nia.
  - apply Forall_forall. intros p Hp. apply repeat_spec in Hp. exact Hp.
Qed.

Lemma single_color_gradient_is_constant_witness :
  exists pixels,
    create_gradient [(18, 52, 86)] 3 2 false = Ok (Pixels 3 2 pixels)
    /\ len pixels = 3 * 2
    /\ Forall (fun p => p = (18, 52, 86)) pixels.
Proof.
  apply (@single_color_gradient_is_constant (18, 52, 86) 3 2 false); lia.
Defined.

(** ** Gradients of several colours: the code and the specification *)

(** The quotient [pos / segment_size] is never negative, so that the
    truncation of the script is the floor of the specification. *)
Lemma binary_round_aux_sign s m e l :
  match binary_round_aux prec emax s m e l with
  | S754_finite s' _ _ => s' = s
  | _ => True
  end.
Proof.
  unfold binary_round_aux.
  destruct (shr_fexp prec emax m e l) as [r1 e1].
  destruct (shr_fexp prec emax
              (round_nearest_even (shr_m r1) (loc_of_shr_record r1)) e1 loc_Exact)
    as [r2 e2].
  destruct (shr_m r2); try exact I.
  destruct (e2 <=? emax - prec); [reflexivity | exact I].
Qed.

Lemma sign_ok_round s m e l :
  s = false -> sign_ok (binary_round_aux prec emax s m e l).
Proof.
  intros ->. pose proof (binary_round_aux_sign false m e l) as H.
  destruct (binary_round_aux prec emax false m e l) as [| | |s' m' e'];
    try exact I.
  subst s'. exact I.
Qed.

Lemma sign_ok_SFdiv x y :
  sign_ok x -> sign_ok y -> sign_ok (SFdiv prec emax x y).
Proof.
  intros Hx Hy.
  destruct x as [sx|sx| |sx mx ex]; destruct y as [sy|sy| |sy my ey];
    try exact I.
  destruct sx; [contradiction|]. destruct sy; [contradiction|].
  simpl SFdiv.
  destruct (SFdiv_core_binary prec emax (Zpos mx) ex (Zpos my) ey) as [[q e'] l].
  apply sign_ok_round. reflexivity.
Qed.

Lemma sign_ok_exact_int z : 0 <= z -> sign_ok (exact_int z).
Proof. destruct z; simpl; intros H; try exact I. lia. Qed.

Lemma sign_ok_int_truediv a b pos :
  0 <= a -> 0 <= b -> int_truediv a b = Ok pos -> sign_ok pos.
Proof.
  unfold int_truediv. intros Ha Hb H.
  destruct (b =? 0); [discriminate H|].
  destruct (is_infinity (SFdiv prec emax (exact_int a) (exact_int b)));
    [discriminate H|].
  inversion H; subst. apply sign_ok_SFdiv; apply sign_ok_exact_int; assumption.
Qed.

Lemma sign_ok_float_of_int z f :
  0 <= z -> float_of_int z = Ok f -> sign_ok f.
Proof.
  unfold float_of_int. intros Hz H.
  destruct (is_infinity (binary_normalize prec emax z 0 false));
    [discriminate H|].
  inversion H; subst. destruct z as [|p|p]; try lia; simpl binary_normalize.
  - exact I.
  - unfold binary_round.
    destruct (shl_align p 0 (fexp prec emax (Zpos (digits2_pos p) + 0))) as [mz ez].
    apply sign_ok_round. reflexivity.
Qed.

Lemma sign_ok_float_truediv x y q :
  sign_ok x -> sign_ok y -> float_truediv x y = Ok q -> sign_ok q.
Proof.
  unfold float_truediv. intros Hx Hy H.
  destruct (is_zero y); [discriminate H|].
  inversion H; subst. apply sign_ok_SFdiv; assumption.
Qed.

Lemma floor_is_truncation q : sign_ok q -> math_floor q = int_of_float q.
Proof.
  destruct q as [s|s| |s m e]; try reflexivity.
  destruct s; [contradiction | reflexivity].
Qed.

Lemma spec_position_guard axis_length index :
  1 <= axis_length ->
  spec_position axis_length index
  = if axis_length >? 1 then int_truediv index (axis_length - 1)
    else Ok lit_0_0.
Proof.
  intros H. unfold spec_position.
  destruct (Z.eqb_spec axis_length 1) as [->|Hne]; [reflexivity|].
  destruct (Z.gtb_spec axis_length 1); [reflexivity | lia].
Qed.

Lemma sign_ok_position axis_length index pos :
  1 <= axis_length -> 0 <= index ->
  spec_position axis_length index = Ok pos -> sign_ok pos.
Proof.
  intros Hl Hi. unfold spec_position.
  destruct (axis_length =? 1).
  - intros H; inversion H; subst. exact I.
  - apply sign_ok_int_truediv; lia.
Qed.

(** One pixel: the body of the loops computes what the specification
    describes. *)
Lemma gradient_pixel_spec colors width height vertical x y :
  2 <= len colors -> 1 <= width -> 1 <= height -> 0 <= x -> 0 <= y ->
  gradient_pixel colors width height vertical x y
  = spec_pixel colors width height vertical x y.
Proof.
  intros Hn Hw Hh Hx Hy.
  unfold gradient_pixel, locate, spec_pixel.
  rewrite <- !spec_position_guard by assumption.
  destruct (if vertical then spec_position height y else spec_position width x)
    as [pos|e] eqn:Epos; simpl; [|reflexivity].
  assert (Hpos : sign_ok pos).
  { destruct vertical;
      [exact (@sign_ok_position height y pos Hh Hy Epos)
      | exact (@sign_ok_position width x pos Hw Hx Epos)]. }
  destruct (float_of_int (len colors - 1)) as [n1|e] eqn:En1; simpl;
    [|reflexivity].
  assert (Hn1 : sign_ok n1).
  { apply (@sign_ok_float_of_int (len colors - 1) n1); [lia | exact En1]. }
  destruct (float_truediv lit_1_0 n1) as [segment_size|e] eqn:Ess; simpl;
    [|reflexivity].
  assert (Hss : sign_ok segment_size).
  { exact (@sign_ok_float_truediv lit_1_0 n1 segment_size I Hn1 Ess). }
  destruct (float_truediv pos segment_size) as [q|e] eqn:Eq; simpl;
    [|reflexivity].
  rewrite (floor_is_truncation q)
    by exact (@sign_ok_float_truediv pos segment_size q Hpos Hss Eq).
  destruct (int_of_float q) as [segment|e]; simpl; [|reflexivity].
  destruct (float_of_int (Z.min segment (len colors - 2))) as [fseg|e]; simpl;
    [|reflexivity].
  destruct (float_truediv
              (float_sub pos (float_mul fseg segment_size)) segment_size)
    as [local_pos|e]; simpl; [|reflexivity].
  unfold blend.
  destruct (py_getitem colors (Z.min segment (len colors - 2)))
    as [[[r1 g1] b1]|e]; simpl; [|reflexivity].
  destruct (py_getitem colors (Z.min segment (len colors - 2) + 1))
    as [[[r2 g2] b2]|e]; simpl; reflexivity.
Qed.

(** The two nested loops fill the buffer row by row. *)
Lemma nested_loops_rows (B : Type) (f : Z -> Z -> result B) rows cols acc :
  for_each rows
    (fun y pixels =>
       for_each cols
         (fun x pixels => bind (f x y) (fun p => Ok (pixels ++ [p])))
         pixels)
    acc
  = bind (mapM (fun y => mapM (fun x => f x y) cols) rows)
         (fun bs => Ok (acc ++ List.concat bs)).
Proof.
  revert acc; induction rows as [|y rows IH]; simpl; intros acc.
  - rewrite app_nil_r; reflexivity.
  - rewrite (for_each_append (fun x => f x y)).
    destruct (mapM (fun x => f x y) cols) as [row|e]; simpl; [|reflexivity].
    rewrite IH.
    destruct (mapM (fun y0 => mapM (fun x => f x y0) cols) rows) as [bs|e];
      simpl; [|reflexivity].
    rewrite app_assoc. reflexivity.
Qed.

Lemma py_range_shift a n :
  py_range a (a + n) = map (fun x => a + x) (py_range 0 n).
Proof.
  unfold py_range. rewrite map_map.
  replace (a + n - a) with (n - 0) by lia.
  apply map_ext. intros k. lia.
Qed.

(** Row-major order: the pixel of index [i] is the one of column
    [i mod width] and row [i / width]. *)
Lemma row_major (B : Type) (f : Z -> Z -> result B) width (height : nat) :
  1 <= width ->
  mapM (fun i => f (i mod width) (i / width))
       (py_range 0 (width * Z.of_nat height))
  = bind (mapM (fun y => mapM (fun x => f x y) (py_range 0 width))
               (py_range 0 (Z.of_nat height)))
         (fun bs => Ok (List.concat bs)).
Proof.
  intros Hw. induction height as [|height IH].
  - rewrite Z.mul_0_r. reflexivity.
  - rewrite Nat2Z.inj_succ. unfold Z.succ.
    rewrite py_range_succ by lia. rewrite mapM_app.
    replace (width * (Z.of_nat height + 1))
      with (width * Z.of_nat height + width) by lia.
    rewrite (@py_range_app 0 (width * Z.of_nat height)) by nia.
    rewrite mapM_app, IH. clear IH.
    destruct (mapM (fun y => mapM (fun x => f x y) (py_range 0 width))
                   (py_range 0 (Z.of_nat height))) as [bs|e]; simpl;
      [|reflexivity].
    rewrite py_range_shift, mapM_map.
    rewrite (mapM_ext
               (fun a => f ((width * Z.of_nat height + a) mod width)
                           ((width * Z.of_nat height + a) / width))
               (fun x => f x (Z.of_nat height))).
    + destruct (mapM (fun x => f x (Z.of_nat height)) (py_range 0 width))
        as [row|e]; simpl; [|reflexivity].
      rewrite concat_app. simpl. rewrite app_nil_r. reflexivity.
    + intros a Ha. apply py_range_In in Ha.
      rewrite (Z.mul_comm width), Z.add_comm, Z_mod_plus_full, Z_div_plus_full by lia.
      rewrite Z.mod_small, Z.div_small by lia. f_equal; lia.
Qed.

Lemma gradient_pixels_spec colors width height vertical :
  2 <= len colors -> 1 <= width -> 1 <= height ->
  gradient_pixels colors width height vertical
  = spec_buffer colors width height vertical.
Proof.
  intros Hn Hw Hh. unfold gradient_pixels, spec_buffer.
  replace (len colors =? 1) with false by (symmetry; apply Z.eqb_neq; lia).
  rewrite (nested_loops_rows
             (fun x y => gradient_pixel colors width height vertical x y)).
  simpl app.
  assert (Hnat : height = Z.of_nat (Z.to_nat height)) by lia.
  revert Hh Hnat. generalize (Z.to_nat height) as rows. intros rows Hh ->.
  rewrite (row_major
             (fun x y => spec_pixel colors width (Z.of_nat rows) vertical x y))
    by exact Hw.
  rewrite (mapM_ext
             (fun y => mapM (fun x => gradient_pixel colors width
                                        (Z.of_nat rows) vertical x y)
                            (py_range 0 width))
             (fun y => mapM (fun x => spec_pixel colors width
                                        (Z.of_nat rows) vertical x y)
                            (py_range 0 width))).
  - reflexivity.
  - intros y Hy. apply py_range_In in Hy. apply mapM_ext.
    intros x Hx. apply py_range_In in Hx.
    apply gradient_pixel_spec; lia.
Qed.

(** ** Gradients of several colours: the channels stay bytes *)

Lemma position_in_unit axis_length index :
  1 <= axis_length -> 0 <= index < axis_length ->
  exists pos,
    (if axis_length >? 1 then int_truediv index (axis_length - 1)
     else Ok lit_0_0) = Ok pos
    /\ ok_float pos /\ (0 <= F2R pos <= 1 + 2 * eps)%R.
Proof.
  intros Hl Hi. destruct (Z.gtb_spec axis_length 1) as [Hgt|Hle].
  - apply position_spec; lia.
  - exists lit_0_0. split; [reflexivity|].
    destruct ok_lit_0_0 as [Hok HF]. split; [exact Hok|].
    rewrite HF. unfold eps. lra.
Qed.

Lemma locate_spec num_colors width height vertical x y :
  2 <= num_colors <= 2 ^ 40 -> 1 <= width -> 1 <= height ->
  0 <= x < width -> 0 <= y < height ->
  exists segment local_pos,
    locate num_colors width height vertical x y = Ok (segment, local_pos)
    /\ 0 <= segment <= num_colors - 2
    /\ ok_float local_pos
    /\ (- tau <= F2R local_pos <= 1 + tau)%R.
Proof.
  intros Hn Hw Hh Hx Hy. unfold locate.
  assert (Hpos : exists pos,
             (if vertical then
                if height >? 1 then int_truediv y (height - 1) else Ok lit_0_0
              else
                if width >? 1 then int_truediv x (width - 1) else Ok lit_0_0)
             = Ok pos
             /\ ok_float pos /\ (0 <= F2R pos <= 1 + 2 * eps)%R).
  { destruct vertical; apply position_in_unit; assumption. }
  destruct Hpos as (pos & Hpos & Hokpos & Hrange). rewrite Hpos. simpl bind.
  destruct (@local_pos_spec (num_colors - 1) pos ltac:(lia) Hokpos Hrange)
    as (f1 & ss & q & seg0 & fseg & lp & Hf1 & Hss & Hq & Hseg0 & Hseg & Hfseg
        & Hlp & Hoklp & Hlprange).
  replace (num_colors - 1 - 1) with (num_colors - 2) in * by lia.
  rewrite Hf1. simpl bind. rewrite Hss. simpl bind. rewrite Hq. simpl bind.
  rewrite Hseg0. simpl bind. rewrite Hfseg. simpl bind. rewrite Hlp. simpl bind.
  exists (Z.min seg0 (num_colors - 2)), lp.
  split; [reflexivity|]. split; [exact Hseg|]. split; assumption.
Qed.

Lemma Forall_nth_error (A : Type) (P : A -> Prop) l k a :
  Forall P l -> nth_error l k = Some a -> P a.
Proof.
  intros H Hn. rewrite Forall_forall in H. apply H.
  apply nth_error_In with k. exact Hn.
Qed.

Lemma blend_byte colors segment local_pos :
  Forall byte_color colors -> 0 <= segment <= len colors - 2 ->
  ok_float local_pos -> (- tau <= F2R local_pos <= 1 + tau)%R ->
  exists p, blend colors segment local_pos = Ok p /\ byte_color p.
Proof.
  intros Hbytes Hseg Hok Hrange. unfold blend.
  destruct (@py_getitem_Ok _ colors segment ltac:(lia)) as (c1 & Hc1 & Hn1).
  destruct (@py_getitem_Ok _ colors (segment + 1) ltac:(lia)) as (c2 & Hc2 & Hn2).
  rewrite Hc1, Hc2. simpl bind.
  pose proof (@Forall_nth_error _ _ _ _ _ Hbytes Hn1) as Hb1.
  pose proof (@Forall_nth_error _ _ _ _ _ Hbytes Hn2) as Hb2.
  destruct c1 as [[r1 g1] b1]. destruct c2 as [[r2 g2] b2].
  destruct Hb1 as (Hr1 & Hg1 & Hbl1). destruct Hb2 as (Hr2 & Hg2 & Hbl2).
  destruct (@interpolate_range r1 r2 local_pos Hr1 Hr2 Hok Hrange) as (r & Hr & Hrb).
  destruct (@interpolate_range g1 g2 local_pos Hg1 Hg2 Hok Hrange) as (g & Hg & Hgb).
  destruct (@interpolate_range b1 b2 local_pos Hbl1 Hbl2 Hok Hrange) as (b & Hb & Hbb).
  rewrite Hr, Hg, Hb. simpl bind.
  exists (r, g, b). split; [reflexivity|]. exact (conj Hrb (conj Hgb Hbb)).
Qed.

Lemma gradient_pixel_byte colors width height vertical x y :
  Forall byte_color colors -> 2 <= len colors <= 2 ^ 40 ->
  1 <= width -> 1 <= height -> 0 <= x < width -> 0 <= y < height ->
  exists p, gradient_pixel colors width height vertical x y = Ok p
            /\ byte_color p.
Proof.
  intros Hbytes Hn Hw Hh Hx Hy. unfold gradient_pixel.
  destruct (@locate_spec (len colors) width height vertical x y Hn Hw Hh Hx Hy)
    as (segment & local_pos & Hloc & Hseg & Hok & Hrange).
  rewrite Hloc. simpl bind. apply blend_byte; assumption.
Qed.

Lemma spec_buffer_byte colors width height vertical :
  Forall byte_color colors -> 2 <= len colors <= 2 ^ 40 ->
  1 <= width -> 1 <= height ->
  exists pixels, spec_buffer colors width height vertical = Ok pixels
                 /\ Forall byte_color pixels.
Proof.
  intros Hbytes Hn Hw Hh. unfold spec_buffer.
  assert (Hpix : forall i, In i (py_range 0 (width * height)) ->
            exists p, spec_pixel colors width height vertical
                        (i mod width) (i / width) = Ok p /\ byte_color p).
  { intros i Hi. apply py_range_In in Hi.
    assert (Hx : 0 <= i mod width < width) by (apply Z.mod_pos_bound; lia).
    assert (Hy : 0 <= i / width < height).
    { split; [apply Z.div_pos; lia|]. apply Z.div_lt_upper_bound; lia. }
    rewrite <- gradient_pixel_spec by lia.
    apply gradient_pixel_byte; assumption. }
  destruct (mapM_total
              (fun i => spec_pixel colors width height vertical
                          (i mod width) (i / width))
              (py_range 0 (width * height))) as (pixels & Hpixels).
  { intros i Hi. destruct (Hpix i Hi) as (p & Hp & _). exists p; exact Hp. }
  exists pixels. split; [exact Hpixels|].
  apply Forall_forall. intros p Hp.
  destruct (@mapM_In _ _ _ _ _ _ Hpixels Hp) as (i & Hi & Hpi).
  destruct (Hpix i Hi) as (p' & Hp' & Hb). congruence.
Qed.

Lemma spec_buffer_layout colors width height vertical pixels :
  1 <= width -> 1 <= height ->
  spec_buffer colors width height vertical = Ok pixels ->
  len pixels = width * height
  /\ forall x y, 0 <= x < width -> 0 <= y < height ->
       spec_pixel colors width height vertical x y
       = py_getitem pixels (y * width + x).
Proof.
  intros Hw Hh Hbuf. unfold spec_buffer in Hbuf.
  assert (Hlen : len pixels = width * height).
  { unfold len. rewrite (mapM_length _ _ Hbuf), py_range_length. nia. }
  split; [exact Hlen|].
  intros x y Hx Hy.
  set (i := y * width + x).
  assert (Hi : 0 <= i < width * height) by (unfold i; nia).
  assert (Hnth : nth_error (py_range 0 (width * height)) (Z.to_nat i) = Some i).
  { rewrite py_range_nth by lia. f_equal. lia. }
  destruct (@mapM_nth _ _ _ _ _ _ _ Hbuf Hnth) as (p & Hp & Hpix).
  assert (Hmod : i mod width = x).
  { unfold i. rewrite Z.add_comm, Z_mod_plus_full. apply Z.mod_small. lia. }
  assert (Hdiv : i / width = y).
  { unfold i. rewrite Z.add_comm, Z_div_plus_full by lia.
    rewrite Z.div_small by lia. lia. }
  rewrite Hmod, Hdiv in Hpix. rewrite Hpix.
  destruct (@py_getitem_Ok _ pixels i ltac:(lia)) as (p' & Hget & Hn').
  rewrite Hget. congruence.
Qed.



(** C10, as the specification states it, does not hold: an interpolated
    channel can leave the interval of its two endpoint channels before it
    is truncated.  In a horizontal gradient of four colours that is two
    pixels wide, the last pixel falls in the last segment at the local
    position 1.0000000000000002, and its channels, mixed from 0 and 255,
    are 255.00000000000006 before [int] makes them 255. *)
Lemma interpolated_channel_exceeds_endpoint :
  locate 4 2 1 false 1 0
  = Ok (2, S754_finite false 4503599627370497 (-52))
  /\ interpolate_float 0 255 (S754_finite false 4503599627370497 (-52))
     = Ok (S754_finite false 8972014882652162 (-45))
  /\ float_of_int 255 = Ok (S754_finite false 8972014882652160 (-45))
  /\ float_lt (S754_finite false 8972014882652160 (-45))
              (S754_finite false 8972014882652162 (-45)) = true
  /\ gradient_pixel [(0, 0, 0); (0, 0, 0); (0, 0, 0); (255, 255, 255)]
       2 1 false 1 0
     = Ok (255, 255, 255).
Proof. repeat split; vm_compute; reflexivity. Qed.

(** C10, amended.  For a list of one to [2^40] colours whose channels are
    bytes and a width and a height of at least one, [create_gradient]
    returns [width * height] pixels whose channels are bytes.  Before the
    truncation a channel need not lie between its two endpoint channels:
    the local position is only known to lie within [tau = 1/512] of the
    unit interval and the channel strictly between -1 and 256, and it is
    the truncation towards zero that brings it into [0, 255]. *)
Theorem gradient_channels_are_bytes :
  forall (colors : list color) (width height : Z) (vertical : bool),
    colors <> [] -> Forall byte_color colors -> len colors <= 2 ^ 40 ->
    1 <= width -> 1 <= height ->
    (exists pixels,
        create_gradient colors width height vertical
        = Ok (Pixels width height pixels)
        /\ len pixels = width * height
        /\ Forall byte_color pixels)
    /\ (2 <= len colors ->
        forall x y, 0 <= x < width -> 0 <= y < height ->
          exists segment local_pos,
            locate (len colors) width height vertical x y
            = Ok (segment, local_pos)
            /\ 0 <= segment <= len colors - 2
            /\ (- tau <= F2R local_pos <= 1 + tau)%R
            /\ forall c1 c2, byte c1 -> byte c2 ->
                 exists v k,
                   interpolate_float c1 c2 local_pos = Ok v
                   /\ (-1 < F2R v < 256)%R
                   /\ int_of_float v = Ok k /\ byte k).
Proof.
  intros colors width height vertical Hne Hbytes Hlen Hw Hh. split.
  - destruct (Z_le_gt_dec 2 (len colors)) as [Hmany|Hone].
    + destruct (@spec_buffer_byte colors width height vertical Hbytes
                  (conj Hmany Hlen) Hw Hh) as (pixels & Hbuf & Hpix).
      exists pixels. split; [|split; [|exact Hpix]].
      * unfold create_gradient. rewrite gradient_pixels_spec, Hbuf by assumption.
        reflexivity.
      * apply (spec_buffer_layout _ _ Hw Hh Hbuf).
    + destruct colors as [|c [|c' colors]]; [contradiction| |unfold len in Hone; simpl in Hone; lia].
      exists (repeat c (Z.to_nat (width * height))).
      split; [reflexivity|]. split; [rewrite len_repeat; nia|].
      apply Forall_forall. intros p Hp. apply repeat_spec in Hp. subst p.
      inversion Hbytes; assumption.
  - intros Hmany x y Hx Hy.
    destruct (@locate_spec (len colors) width height vertical x y
                (conj Hmany Hlen) Hw Hh Hx Hy)
      as (segment & local_pos & Hloc & Hseg & Hok & Hrange).
    exists segment, local_pos.
    split; [exact Hloc|]. split; [exact Hseg|]. split; [exact Hrange|].
    intros c1 c2 Hc1 Hc2.
    destruct (@interpolate_float_range c1 c2 local_pos Hc1 Hc2 Hok Hrange)
      as (v & Hv & Hokv & Hvr).
    destruct (@int_of_float_byte v Hokv Hvr) as (k & Hk & Hkb).
    exists v, k.
    split; [exact Hv|]. split; [exact Hvr|]. split; [exact Hk | exact Hkb].
Qed.

Lemma gradient_channels_are_bytes_witness :
  exists pixels,
    create_gradient [(0, 0, 0); (0, 0, 0); (0, 0, 0); (255, 255, 255)]
      2 1 false
    = Ok (Pixels 2 1 pixels)
    /\ len pixels = 2 * 1
    /\ Forall byte_color pixels.
Proof.
  apply (@gradient_channels_are_bytes
           [(0, 0, 0); (0, 0, 0); (0, 0, 0); (255, 255, 255)] 2 1 false).
  - discriminate.
  - repeat constructor; vm_compute; discriminate.
  - vm_compute; discriminate.
  - lia.
  - lia.
Defined.

(** ** Sorting *)

Section SortFacts.

Variable A : Type.
Variable lt : A -> A -> bool.

Lemma sort_insert_perm x l : Permutation (sort_insert lt x l) (x :: l).
Proof.
  induction l as [|y l IH]; simpl.
  - apply Permutation_refl.
  - destruct (lt y x).
    + apply perm_trans with (y :: x :: l);
        [apply perm_skip; exact IH | apply perm_swap].
    + apply Permutation_refl.
Qed.

Lemma py_sort_perm l : Permutation (py_sort lt l) l.
Proof.
  induction l as [|x l IH]; simpl.
  - apply perm_nil.
  - apply perm_trans with (x :: py_sort lt l);
      [apply sort_insert_perm | apply perm_skip; exact IH].
Qed.

(** The elements sorted belong to a domain [dom] on which [lt] is the
    strict part of a total preorder [le]. *)
Variable dom : A -> Prop.
Variable le : A -> A -> Prop.
Hypothesis le_of_lt : forall a b, dom a -> dom b -> lt a b = true -> le a b.
Hypothesis le_of_not_lt :
  forall a b, dom a -> dom b -> lt a b = false -> le b a.
Hypothesis le_trans :
  forall a b c, dom a -> dom b -> dom c -> le a b -> le b c -> le a c.

Lemma sort_insert_sorted x l :
  dom x -> Forall dom l -> StronglySorted le l ->
  StronglySorted le (sort_insert lt x l).
Proof.
  intros Hx. induction l as [|y l IH]; simpl; intros Hdom Hsorted.
  - constructor; constructor.
  - inversion Hdom as [|? ? Hy Hl]; subst.
    inversion Hsorted as [|? ? Hs Hall]; subst.
    destruct (lt y x) eqn:E.
    + constructor; [apply IH; assumption|].
      apply (Permutation_Forall (Permutation_sym (sort_insert_perm x l))).
      constructor; [apply le_of_lt; assumption | exact Hall].
    + assert (Hxy : le x y) by (apply le_of_not_lt; assumption).
      constructor; [exact Hsorted|].
      constructor; [exact Hxy|].
      rewrite Forall_forall in *. intros z Hz.
      apply le_trans with y; auto.
Qed.

Lemma py_sort_sorted l : Forall dom l -> StronglySorted le (py_sort lt l).
Proof.
  induction l as [|x l IH]; simpl; intros Hdom.
  - constructor.
  - inversion Hdom; subst. apply sort_insert_sorted; [assumption | | auto].
    apply (Permutation_Forall (Permutation_sym (py_sort_perm l))). assumption.
Qed.

End SortFacts.

(** ** The order of colours and of distances *)

Lemma color_eqb_eq c1 c2 : color_eqb c1 c2 = true <-> c1 = c2.
Proof.
  destruct c1 as [[r1 g1] b1]. destruct c2 as [[r2 g2] b2]. unfold color_eqb.
  rewrite !andb_true_iff, !Z.eqb_eq. split.
  - intros [[-> ->] ->]. reflexivity.
  - intros H; inversion H; auto.
Qed.

Lemma color_ltb_lex c1 c2 :
  color_ltb c1 c2 = true
  <-> (fst (fst c1) < fst (fst c2)
       \/ (fst (fst c1) = fst (fst c2)
           /\ (snd (fst c1) < snd (fst c2)
               \/ (snd (fst c1) = snd (fst c2) /\ snd c1 < snd c2)))).
Proof.
  destruct c1 as [[r1 g1] b1]. destruct c2 as [[r2 g2] b2].
  unfold color_ltb; simpl.
  destruct (Z.eqb_spec r1 r2); simpl; [|rewrite Z.ltb_lt; lia].
  destruct (Z.eqb_spec g1 g2); simpl; rewrite Z.ltb_lt; lia.
Qed.

Lemma color_le_lex c1 c2 :
  color_le c1 c2
  <-> (fst (fst c1) < fst (fst c2)
       \/ (fst (fst c1) = fst (fst c2)
           /\ (snd (fst c1) < snd (fst c2)
               \/ (snd (fst c1) = snd (fst c2) /\ snd c1 <= snd c2)))).
Proof.
  unfold color_le. rewrite color_ltb_lex.
  destruct c1 as [[r1 g1] b1]. destruct c2 as [[r2 g2] b2]. simpl. split.
  - intros [H|H]; [inversion H; subst; lia | lia].
  - intros H.
    destruct (Z.eq_dec b1 b2) as [->|Hb];
      [destruct (Z.eq_dec g1 g2) as [->|Hg];
       [destruct (Z.eq_dec r1 r2) as [->|Hr]; [left; reflexivity|]|]|];
      right; lia.
Qed.

Lemma float_lt_key x y :
  dist_float x -> dist_float y ->
  (float_lt x y = true <-> lex3 (fkey x) (fkey y)).
Proof.
  unfold float_lt, SFltb, lex3.
  destruct x as [sx|[|]| |[|] mx ex]; try contradiction;
    destruct y as [sy|[|]| |[|] my ey]; try contradiction; intros _ _; simpl;
    try (split; [discriminate | lia]); try (split; [lia | reflexivity]);
    try (split; [reflexivity | lia]).
  destruct (Z.compare_spec ex ey) as [->|Hlt|Hgt].
  - rewrite Pos.compare_cont_spec. simpl.
    destruct (Pos.compare_spec mx my) as [->|Hm|Hm]; simpl;
      split; try discriminate; try lia; try reflexivity.
  - split; [lia | reflexivity].
  - split; [discriminate | lia].
Qed.

Lemma float_eq_key x y :
  dist_float x -> dist_float y ->
  (float_eq x y = true <-> fkey x = fkey y).
Proof.
  unfold float_eq, SFeqb.
  destruct x as [sx|[|]| |[|] mx ex]; try contradiction;
    destruct y as [sy|[|]| |[|] my ey]; try contradiction; intros _ _; simpl;
    try (split; [discriminate | discriminate]);
    try (split; reflexivity).
  destruct (Z.compare_spec ex ey) as [->|Hlt|Hgt].
  - rewrite Pos.compare_cont_spec. simpl.
    destruct (Pos.compare_spec mx my) as [->|Hm|Hm]; simpl;
      split; try discriminate; try reflexivity;
      intros H; inversion H; lia.
  - split; [discriminate | intros H; inversion H; lia].
  - split; [discriminate | intros H; inversion H; lia].
Qed.

Lemma entry_ltb_cases e1 e2 :
  dist_entry e1 -> dist_entry e2 ->
  (entry_ltb e1 e2 = true
   <-> (lex3 (fkey (fst e1)) (fkey (fst e2))
        \/ (fkey (fst e1) = fkey (fst e2) /\ color_ltb (snd e1) (snd e2) = true))).
Proof.
  intros H1 H2. unfold entry_ltb.
  pose proof (float_eq_key _ _ H1 H2) as Heq.
  pose proof (float_lt_key _ _ H1 H2) as Hlt.
  destruct (float_eq (fst e1) (fst e2)) eqn:E.
  - assert (Hk : fkey (fst e1) = fkey (fst e2)) by (apply Heq; reflexivity).
    split; [intros H; right; split; assumption|].
    intros [Hl|[_ Hc]]; [|exact Hc].
    exfalso. unfold lex3 in Hl. rewrite Hk in Hl. lia.
  - rewrite Hlt. split; [intros H; left; exact H|].
    intros [Hl|[Hk _]]; [exact Hl|].
    apply Heq in Hk. discriminate.
Qed.

Lemma entry_le_cases e1 e2 :
  dist_entry e1 -> dist_entry e2 ->
  (entry_le e1 e2
   <-> (lex3 (fkey (fst e1)) (fkey (fst e2))
        \/ (fkey (fst e1) = fkey (fst e2) /\ color_le (snd e1) (snd e2)))).
Proof.
  intros H1 H2. unfold entry_le.
  rewrite (float_eq_key _ _ H1 H2), (float_lt_key _ _ H1 H2). reflexivity.
Qed.

Lemma key_eq_components (k1 k2 : Z * Z * Z) :
  k1 = k2
  <-> (fst (fst k1) = fst (fst k2) /\ snd (fst k1) = snd (fst k2)
       /\ snd k1 = snd k2).
Proof.
  destruct k1 as [[a1 b1] c1]. destruct k2 as [[a2 b2] c2]. simpl. split.
  - intros H; inversion H; auto.
  - intros (-> & -> & ->). reflexivity.
Qed.

Lemma entry_le_of_ltb e1 e2 :
  dist_entry e1 -> dist_entry e2 -> entry_ltb e1 e2 = true -> entry_le e1 e2.
Proof.
  intros H1 H2 H. apply (@entry_ltb_cases _ _ H1 H2) in H.
  apply (@entry_le_cases _ _ H1 H2).
  destruct H as [H|[Hk Hc]]; [left; exact H|].
  right. split; [exact Hk | right; exact Hc].
Qed.

Lemma entry_le_of_not_ltb e1 e2 :
  dist_entry e1 -> dist_entry e2 -> entry_ltb e1 e2 = false -> entry_le e2 e1.
Proof.
  intros H1 H2 H. apply (@entry_le_cases _ _ H2 H1).
  assert (Hn : ~ (lex3 (fkey (fst e1)) (fkey (fst e2))
                  \/ (fkey (fst e1) = fkey (fst e2)
                      /\ color_ltb (snd e1) (snd e2) = true))).
  { intros Hc. apply (@entry_ltb_cases _ _ H1 H2) in Hc. congruence. }
  rewrite color_ltb_lex in Hn. rewrite color_le_lex.
  rewrite key_eq_components in Hn. rewrite key_eq_components.
  unfold lex3 in *. lia.
Qed.

Lemma entry_le_trans e1 e2 e3 :
  dist_entry e1 -> dist_entry e2 -> dist_entry e3 ->
  entry_le e1 e2 -> entry_le e2 e3 -> entry_le e1 e3.
Proof.
  intros H1 H2 H3 H12 H23.
  apply (@entry_le_cases _ _ H1 H2) in H12. apply (@entry_le_cases _ _ H2 H3) in H23.
  apply (@entry_le_cases _ _ H1 H3).
  rewrite color_le_lex, key_eq_components in *.
  unfold lex3 in *. lia.
Qed.

(** ** Distances *)

Lemma round_nearest_even_nonneg r :
  0 <= shr_m r -> 0 <= round_nearest_even (shr_m r) (loc_of_shr_record r).
Proof.
  intros H. pose proof (round_nearest_even_cases r) as Hc. cbv zeta in Hc. lia.
Qed.

Lemma binary_round_aux_kind m e l :
  0 <= m -> dist_float (binary_round_aux prec emax false m e l).
Proof.
  intros Hm. unfold binary_round_aux, shr_fexp.
  pose proof (@shr_spec (shr_record_of_loc m l) e
                (fexp prec emax (Zdigits2 m + e) - e)) as H1.
  rewrite shr_record_of_loc_m in H1. specialize (H1 Hm).
  destruct (shr (shr_record_of_loc m l) e (fexp prec emax (Zdigits2 m + e) - e))
    as [r1 e1].
  destruct H1 as (_ & _ & Hr1 & _).
  pose proof (round_nearest_even_nonneg r1 Hr1) as Hm2.
  set (m2 := round_nearest_even (shr_m r1) (loc_of_shr_record r1)) in *.
  pose proof (@shr_spec (shr_record_of_loc m2 loc_Exact) e1
                (fexp prec emax (Zdigits2 m2 + e1) - e1)) as H2.
  rewrite shr_record_of_loc_m in H2. specialize (H2 Hm2).
  destruct (shr (shr_record_of_loc m2 loc_Exact) e1
              (fexp prec emax (Zdigits2 m2 + e1) - e1)) as [r2 e2].
  destruct H2 as (_ & _ & Hr2 & _).
  destruct (shr_m r2); try lia; [exact I|].
  destruct (e2 <=? emax - prec); exact I.
Qed.

Lemma float_of_nonneg_int_kind n x :
  0 <= n -> float_of_int n = Ok x ->
  match x with
  | S754_zero _ | S754_finite false _ _ => True
  | _ => False
  end.
Proof.
  unfold float_of_int. intros Hn H.
  destruct (is_infinity (binary_normalize prec emax n 0 false)) eqn:E;
    [discriminate H|].
  inversion H; subst x. clear H.
  destruct n as [|p|p]; try lia; simpl binary_normalize in *; [exact I|].
  unfold binary_round in *.
  destruct (shl_align p 0 (fexp prec emax (Zpos (digits2_pos p) + 0))) as [mz ez].
  pose proof (@binary_round_aux_kind (Zpos mz) ez loc_Exact ltac:(lia)) as Hk.
  destruct (binary_round_aux prec emax false (Zpos mz) ez loc_Exact)
    as [s|[|]| |[|] m e]; try contradiction; try exact I; discriminate E.
Qed.

Lemma sqrt_core_nonneg m e :
  0 <= m ->
  let '(q, _, _) := SFsqrt_core_binary prec emax m e in 0 <= q.
Proof.
  intros Hm. unfold SFsqrt_core_binary.
  set (s := e - 2 * Z.min (fexp prec emax (Z.div2 (Zdigits2 m + e + 1))) (Z.div2 e)).
  set (m' := match s with Z.pos _ => Z.shiftl m s | 0 => m | Z.neg _ => 0 end).
  assert (Hm' : 0 <= m').
  { unfold m'. destruct s; try lia. apply Z.shiftl_nonneg. exact Hm. }
  pose proof (Z.sqrtrem_spec m' Hm') as Hsq.
  destruct (Z.sqrtrem m') as [q r]. lia.
Qed.

Lemma math_sqrt_kind n d : math_sqrt n = Ok d -> dist_float d.
Proof.
  unfold math_sqrt. intros H. apply bind_Ok in H. destruct H as (x & Hx & H).
  destruct (Z.ltb_spec n 0) as [Hneg|Hpos]; [discriminate H|].
  inversion H; subst d. clear H.
  pose proof (float_of_nonneg_int_kind Hpos Hx) as Hk.
  destruct x as [s|s| |[|] m e]; try contradiction; simpl SFsqrt; [exact I|].
  pose proof (@sqrt_core_nonneg (Zpos m) e ltac:(lia)) as Hq.
  destruct (SFsqrt_core_binary prec emax (Zpos m) e) as [[q e'] l].
  apply binary_round_aux_kind. exact Hq.
Qed.

Lemma rgb_distance_kind c1 c2 d : rgb_distance c1 c2 = Ok d -> dist_float d.
Proof.
  destruct c1 as [[r1 g1] b1]. destruct c2 as [[r2 g2] b2].
  unfold rgb_distance. apply math_sqrt_kind.
Qed.

Lemma distance_list_entries target_color colors distances :
  distance_list target_color colors = Ok distances ->
  map snd distances = candidates target_color colors
  /\ Forall (fun e => rgb_distance target_color (snd e) = Ok (fst e)) distances.
Proof.
  unfold distance_list. fold (candidates target_color colors).
  generalize (candidates target_color colors) as cs. intros cs.
  revert distances; induction cs as [|c cs IH]; simpl; intros distances H.
  - inversion H; subst. split; [reflexivity | constructor].
  - apply bind_Ok in H. destruct H as (e & He & H).
    apply bind_Ok in He. destruct He as (d & Hd & He). inversion He; subst e.
    apply bind_Ok in H. destruct H as (es & Hes & H). inversion H; subst.
    destruct (IH _ Hes) as [Hmap Hall]. simpl. split.
    + f_equal. exact Hmap.
    + constructor; [exact Hd | exact Hall].
Qed.

Lemma sorted_distances_spec target_color colors distances :
  sorted_distances target_color colors = Ok distances ->
  Permutation (map snd distances) (candidates target_color colors)
  /\ Forall (fun e => rgb_distance target_color (snd e) = Ok (fst e)) distances
  /\ StronglySorted entry_le distances.
Proof.
  unfold sorted_distances. intros H.
  apply bind_Ok in H. destruct H as (unsorted & Hlist & H).
  inversion H; subst distances. clear H.
  destruct (distance_list_entries _ _ Hlist) as [Hmap Hall].
  pose proof (py_sort_perm entry_ltb unsorted) as Hperm.
  split; [|split].
  - rewrite <- Hmap. apply Permutation_map. exact Hperm.
  - apply (Permutation_Forall (Permutation_sym Hperm)). exact Hall.
  - apply py_sort_sorted with (dom := dist_entry).
    + apply entry_le_of_ltb.
    + apply entry_le_of_not_ltb.
    + apply entry_le_trans.
    + rewrite Forall_forall in *. intros e He.
      apply (rgb_distance_kind _ _ (Hall e He)).
Qed.

(** ** Square roots, over the reals *)

Lemma sqrt_core_spec m e :
  0 < m ->
  let '(q, e', l) := SFsqrt_core_binary prec emax m e in
  0 <= q /\ e' <= fexp64 (Zdigits2 q + e')
  /\ (IZR q * bpow e' <= sqrt (IZR m * bpow e) < (IZR q + 1) * bpow e')%R.
Proof.
  intros Hm. unfold SFsqrt_core_binary. rewrite fexp64_eq.
  set (d := Zdigits2 m).
  set (e' := Z.min (fexp64 (Z.div2 (d + e + 1))) (Z.div2 e)).
  set (s := e - 2 * e').
  assert (Hdiv2 : forall z, 2 * Z.div2 z <= z <= 2 * Z.div2 z + 1).
  { intros z. rewrite (Zdiv2_odd_eqn z) at 2 3. destruct (Z.odd z); lia. }
  assert (Hs : 0 <= s) by (unfold s, e'; pose proof (Hdiv2 e); lia).
  set (m' := match s with Z.pos _ => Z.shiftl m s | 0 => m | Z.neg _ => 0 end).
  assert (Hm' : m' = m * 2 ^ s) by (apply shift_match; exact Hs).
  pose proof (pow2_pos Hs) as Hps.
  assert (Hm'pos : 0 < m') by nia.
  pose proof (Z.sqrtrem_spec m' ltac:(lia)) as Hsq.
  destruct (Z.sqrtrem m') as [q r]. destruct Hsq as [Hsq Hr].
  assert (Hq : 0 <= q) by lia.
  split; [exact Hq|]. split.
  - destruct (Z_le_gt_dec e' (-1074)) as [Hle|Hgt]; [unfold fexp64; lia|].
    assert (He' : 2 * e' <= d + e + 1 - 106).
    { pose proof (Hdiv2 (d + e + 1)). unfold e', fexp64 in *. lia. }
    pose proof (Zdigits2_bounds Hm) as [Hlo _]. fold d in Hlo.
    pose proof (Zdigits2_pos Hm) as Hd. fold d in Hd.
    assert (Hbig : 2 ^ 104 <= m').
    { rewrite Hm'.
      assert (2 ^ 104 <= 2 ^ ((d - 1) + s)) by (apply Z.pow_le_mono_r; unfold s; lia).
      rewrite (@pow2_split (d - 1) s) in H by lia.
      assert (2 ^ (d - 1) * 2 ^ s <= m * 2 ^ s)
        by (apply Z.mul_le_mono_nonneg_r; lia).
      lia. }
    assert (Hq52 : 2 ^ 52 <= q).
    { destruct (Z_le_gt_dec (2 ^ 52) q) as [Hok|Hbad]; [exact Hok|].
      exfalso.
      assert (q * q + r <= (2 ^ 52 - 1) * (2 ^ 52 - 1) + 2 * (2 ^ 52 - 1)) by nia.
      change (2 ^ 104) with (2 ^ 52 * 2 ^ 52) in Hbig. lia. }
    assert (Hdq : 53 <= Zdigits2 q).
    { assert (Hqp : 0 < q) by lia.
      pose proof (Zdigits2_bounds Hqp) as [_ Hhq].
      assert (2 ^ 52 < 2 ^ Zdigits2 q) by lia.
      apply pow2_lt_inv in H; [lia | apply Zdigits2_nonneg]. }
    unfold fexp64. lia.
  - pose proof (bpow_pos e') as Hpe'.
    assert (Hval : (IZR m * bpow e = IZR m' * (bpow e' * bpow e'))%R).
    { rewrite Hm', mult_IZR, <- bpow_IZR by exact Hs.
      rewrite <- !bpow_add, Rmult_assoc, <- bpow_add. f_equal. f_equal.
      unfold s. lia. }
    assert (Hm'R : (0 <= IZR m')%R) by (apply IZR_le; lia).
    rewrite Hval, sqrt_mult by nra.
    rewrite sqrt_square by lra.
    assert (HqR : (0 <= IZR q)%R) by (apply IZR_le; exact Hq).
    assert (Hlo : (IZR q <= sqrt (IZR m'))%R).
    { rewrite <- (sqrt_square (IZR q)) at 1 by exact HqR.
      apply sqrt_le_1_alt. rewrite <- mult_IZR. apply IZR_le. lia. }
    assert (Hhi : (sqrt (IZR m') < IZR q + 1)%R).
    { rewrite <- (sqrt_square (IZR q + 1)) by lra.
      apply sqrt_lt_1_alt. split; [exact Hm'R|].
      rewrite <- plus_IZR, <- mult_IZR. apply IZR_lt. lia. }
    split; nra.
Qed.

(** The square root of a non-negative integer below [2^18]. *)
Lemma math_sqrt_spec n :
  0 <= n <= 2 ^ 18 ->
  exists d, math_sqrt n = Ok d /\ ok_float d /\ dist_float d
            /\ (Rabs (F2R d - sqrt (IZR n)) <= rnd_err (sqrt (IZR n)))%R.
Proof.
  intros Hn. unfold math_sqrt.
  assert (HnR : (0 <= IZR n <= 262144)%R).
  { split; [apply IZR_le; lia|]. change 262144%R with (IZR (2 ^ 18)).
    apply IZR_le; lia. }
  destruct (@float_of_int_spec n) as (x & Hx & Hokx & _ & Hex).
  { apply below_max. rewrite Rabs_pos_eq; lra. }
  assert (HFx : F2R x = IZR n) by (apply Hex; lia).
  rewrite Hx. simpl bind.
  replace (n <? 0) with false by (symmetry; apply Z.ltb_ge; lia).
  exists (SFsqrt prec emax x).
  split; [reflexivity|].
  assert (Hkind : dist_float (SFsqrt prec emax x)).
  { apply (@math_sqrt_kind n). unfold math_sqrt. rewrite Hx. simpl bind.
    replace (n <? 0) with false by (symmetry; apply Z.ltb_ge; lia).
    reflexivity. }
  split; [|split; [exact Hkind|]].
  - pose proof (float_of_nonneg_int_kind (proj1 Hn) Hx) as Hk.
    destruct x as [s|s| |[|] m e]; try contradiction; simpl SFsqrt; [exact I|].
    pose proof (@sqrt_core_spec (Zpos m) e ltac:(lia)) as Hc.
    destruct (SFsqrt_core_binary prec emax (Zpos m) e) as [[q e'] l].
    destruct Hc as (Hq & He' & Hencl).
    destruct (@binary_round_aux_R false q e' l _ Hq He' Hencl) as (a & Hok & _).
    + rewrite F2R_finite in HFx. rewrite HFx.
      apply Rle_lt_trans with (sqrt (512 * 512)).
      * apply sqrt_le_1_alt. lra.
      * rewrite sqrt_square by lra. apply Rle_lt_trans with (bpow 100).
        -- rewrite bpow_IZR by lia. apply IZR_le. lia.
        -- apply bpow_lt. lia.
    + exact Hok.
  - pose proof (float_of_nonneg_int_kind (proj1 Hn) Hx) as Hk.
    destruct x as [s|s| |[|] m e]; try contradiction; simpl SFsqrt.
    + simpl F2R in *. rewrite <- HFx, sqrt_0, Rminus_0_r, Rabs_R0.
      left. apply rnd_err_pos.
    + pose proof (@sqrt_core_spec (Zpos m) e ltac:(lia)) as Hc.
      destruct (SFsqrt_core_binary prec emax (Zpos m) e) as [[q e'] l].
      destruct Hc as (Hq & He' & Hencl).
      rewrite F2R_finite in HFx. rewrite HFx in Hencl.
      destruct (@binary_round_aux_R false q e' l _ Hq He' Hencl)
        as (a & _ & HF & Ha & Herr & Hle & _).
      * apply Rle_lt_trans with (sqrt (512 * 512)).
        -- apply sqrt_le_1_alt. lra.
        -- rewrite sqrt_square by lra. apply Rle_lt_trans with (bpow 100).
           ++ rewrite bpow_IZR by lia. apply IZR_le. lia.
           ++ apply bpow_lt. lia.
      * rewrite HF. lra.
Qed.

(** ** The order of distances is the order of the exact distances *)

Lemma canonical_lt m1 e1 m2 e2 :
  fexp64 (Zdigits2 (Zpos m1) + e1) = e1 ->
  fexp64 (Zdigits2 (Zpos m2) + e2) = e2 ->
  e1 < e2 ->
  (IZR (Zpos m1) * bpow e1 < IZR (Zpos m2) * bpow e2)%R.
Proof.
  intros H1 H2 Hlt.
  pose proof (@digits_bpow (Zpos m1) ltac:(lia)) as [_ Hhi1].
  pose proof (@digits_bpow (Zpos m2) ltac:(lia)) as [Hlo2 _].
  assert (Hd1 : Zdigits2 (Zpos m1) <= 53) by (unfold fexp64 in H1; lia).
  assert (Hd2 : Zdigits2 (Zpos m2) = 53) by (unfold fexp64 in *; lia).
  rewrite Hd2 in Hlo2.
  pose proof (bpow_pos e1) as Hp1. pose proof (bpow_pos e2) as Hp2.
  apply Rlt_le_trans with (bpow (53 + e1)).
  - rewrite bpow_add.
    assert (bpow (Zdigits2 (Zpos m1)) <= bpow 53)%R by (apply bpow_le; lia).
    nra.
  - apply Rle_trans with (bpow (53 - 1 + e2)).
    + apply bpow_le. lia.
    + rewrite bpow_add. nra.
Qed.

Lemma key_order_real x y :
  ok_float x -> ok_float y -> dist_float x -> dist_float y ->
  (lex3 (fkey x) (fkey y) -> (F2R x < F2R y)%R)
  /\ (fkey x = fkey y -> F2R x = F2R y).
Proof.
  intros Hx Hy Kx Ky.
  destruct x as [sx|sx| |[|] mx ex]; try contradiction;
    destruct y as [sy|sy| |[|] my ey]; try contradiction;
    unfold lex3; simpl fkey; simpl fst; simpl snd.
  - split; [lia | reflexivity].
  - split; [|discriminate]. intros _. rewrite F2R_finite. simpl F2R.
    apply Rmult_lt_0_compat; [apply IZR_lt; lia | apply bpow_pos].
  - split; [lia | discriminate].
  - destruct Hx as [Hcx _]. destruct Hy as [Hcy _].
    rewrite !F2R_finite. split.
    + intros [H|[_ [H|[He Hm]]]]; [lia | apply canonical_lt; assumption|].
      subst ey. pose proof (bpow_pos ex).
      assert (IZR (Zpos mx) < IZR (Zpos my))%R by (apply IZR_lt; exact Hm).
      nra.
    + intros H. inversion H; subst. reflexivity.
Qed.

Lemma lex3_total k1 k2 : lex3 k1 k2 \/ k1 = k2 \/ lex3 k2 k1.
Proof.
  rewrite (key_eq_components k1 k2). unfold lex3. lia.
Qed.

Lemma float_order_real x y :
  ok_float x -> ok_float y -> dist_float x -> dist_float y ->
  (float_lt x y = true <-> (F2R x < F2R y)%R)
  /\ (float_eq x y = true <-> F2R x = F2R y).
Proof.
  intros Hx Hy Kx Ky.
  rewrite (float_lt_key _ _ Kx Ky), (float_eq_key _ _ Kx Ky).
  destruct (@key_order_real _ _ Hx Hy Kx Ky) as [Hlt Heq].
  destruct (@key_order_real _ _ Hy Hx Ky Kx) as [Hgt _].
  destruct (lex3_total (fkey x) (fkey y)) as [H|[H|H]].
  - specialize (Hlt H). split; split; intros; try assumption; try lra.
    exfalso. rewrite H0 in H. unfold lex3 in H. lia.
  - specialize (Heq H). split; split; intros; try assumption; try lra.
    exfalso. rewrite H in H0. unfold lex3 in H0. lia.
  - specialize (Hgt H). split; split; intros; try lra.
    + exfalso. unfold lex3 in *. lia.
    + exfalso. rewrite H0 in H. unfold lex3 in H. lia.
Qed.

(** Two integers below [2^18] have square roots far enough apart for
    their roundings to be in the same order. *)
Lemma sqrt_separated a b da db :
  0 <= a < b -> b <= 2 ^ 18 ->
  (Rabs (da - sqrt (IZR a)) <= rnd_err (sqrt (IZR a)))%R ->
  (Rabs (db - sqrt (IZR b)) <= rnd_err (sqrt (IZR b)))%R ->
  (da < db)%R.
Proof.
  intros Hab Hb Ha Hdb.
  assert (HaR : (0 <= IZR a)%R) by (apply IZR_le; lia).
  assert (HbR : (IZR a + 1 <= IZR b <= 262144)%R).
  { split; [rewrite <- plus_IZR; apply IZR_le; lia|].
    change 262144%R with (IZR (2 ^ 18)). apply IZR_le; lia. }
  set (sa := sqrt (IZR a)) in *. set (sb := sqrt (IZR b)) in *.
  assert (Hsa : (0 <= sa)%R) by apply sqrt_pos.
  assert (Hsb : (0 <= sb)%R) by apply sqrt_pos.
  assert (Hsa2 : (sa * sa = IZR a)%R) by (apply sqrt_sqrt; lra).
  assert (Hsb2 : (sb * sb = IZR b)%R) by (apply sqrt_sqrt; lra).
  assert (Hsb512 : (sb <= 512)%R).
  { unfold sb. rewrite <- (sqrt_square 512) by lra.
    apply sqrt_le_1_alt. lra. }
  assert (Hsalt : (sa <= sb)%R) by (apply sqrt_le_1_alt; lra).
  assert (Hgap : (/ 1024 <= sb - sa)%R).
  { assert ((sb - sa) * (sb + sa) >= 1)%R by nra.
    assert (sb + sa <= 1024)%R by lra.
    assert (0 <= sb - sa)%R by lra.
    nra. }
  pose proof (@rnd_bounds_abs _ _ 512 Ha
                ltac:(rewrite Rabs_pos_eq; lra)) as [_ Hahi].
  pose proof (@rnd_bounds_abs _ _ 512 Hdb
                ltac:(rewrite Rabs_pos_eq; lra)) as [Hblo _].
  pose proof eta_tiny as [_ Heta]. unfold eps, tiny in *. lra.
Qed.

Lemma rgb_distance_dist2 c1 c2 :
  rgb_distance c1 c2 = math_sqrt (dist2 c1 c2).
Proof.
  destruct c1 as [[r1 g1] b1]. destruct c2 as [[r2 g2] b2].
  unfold rgb_distance, dist2. f_equal.
Qed.

Lemma dist2_byte c1 c2 :
  byte_color c1 -> byte_color c2 -> 0 <= dist2 c1 c2 <= 2 ^ 18.
Proof.
  destruct c1 as [[r1 g1] b1]. destruct c2 as [[r2 g2] b2].
  unfold byte_color, byte, dist2. intros H1 H2.
  change (2 ^ 18) with 262144. nia.
Qed.

Lemma rgb_distance_byte c1 c2 :
  byte_color c1 -> byte_color c2 -> exists d, rgb_distance c1 c2 = Ok d.
Proof.
  intros H1 H2. rewrite rgb_distance_dist2.
  destruct (@math_sqrt_spec _ (@dist2_byte _ _ H1 H2)) as (d & Hd & _).
  exists d; exact Hd.
Qed.

(** On byte colours the distances that the script compares are ordered as
    the exact distances are. *)
Lemma distance_order target c1 c2 d1 d2 :
  byte_color target -> byte_color c1 -> byte_color c2 ->
  rgb_distance target c1 = Ok d1 -> rgb_distance target c2 = Ok d2 ->
  (float_lt d1 d2 = true <-> dist2 target c1 < dist2 target c2)
  /\ (float_eq d1 d2 = true <-> dist2 target c1 = dist2 target c2).
Proof.
  intros Ht H1 H2 Hd1 Hd2. rewrite rgb_distance_dist2 in Hd1, Hd2.
  pose proof (@dist2_byte _ _ Ht H1) as Hr1. pose proof (@dist2_byte _ _ Ht H2) as Hr2.
  destruct (@math_sqrt_spec _ Hr1) as (d1' & Hd1' & Hok1 & Hk1 & Herr1).
  destruct (@math_sqrt_spec _ Hr2) as (d2' & Hd2' & Hok2 & Hk2 & Herr2).
  assert (d1' = d1) by congruence. assert (d2' = d2) by congruence. subst d1' d2'.
  destruct (@float_order_real _ _ Hok1 Hok2 Hk1 Hk2) as [Hlt Heq].
  rewrite Hlt, Heq.
  destruct (Z.lt_trichotomy (dist2 target c1) (dist2 target c2)) as [H|[H|H]].
  - pose proof (@sqrt_separated _ _ _ _ (conj (proj1 Hr1) H) (proj2 Hr2) Herr1 Herr2).
    split; split; intros; try assumption; try lia; lra.
  - assert (d1 = d2) by congruence. subst d2.
    split; split; intros; try reflexivity; try assumption; try lia; lra.
  - pose proof (@sqrt_separated _ _ _ _ (conj (proj1 Hr2) H) (proj2 Hr1) Herr2 Herr1).
    split; split; intros; try lia; lra.
Qed.

(** ** The neighbour selector *)

Lemma StronglySorted_impl_In (A : Type) (R R' : A -> A -> Prop) l :
  (forall a b, In a l -> In b l -> R a b -> R' a b) ->
  StronglySorted R l -> StronglySorted R' l.
Proof.
  induction l as [|x l IH]; intros Himpl Hs; [constructor|].
  inversion Hs as [|? ? Hs' Hall]; subst. constructor.
  - apply IH; [|exact Hs'].
    intros a b Ha Hb. apply Himpl; right; assumption.
  - rewrite Forall_forall in *. intros b Hb.
    apply Himpl; [left; reflexivity | right; exact Hb | apply Hall; exact Hb].
Qed.

Lemma candidates_In target_color colors c :
  In c (candidates target_color colors) <-> In c colors /\ c <> target_color.
Proof.
  unfold candidates. rewrite filter_In, negb_true_iff.
  split; intros [Hin Hne]; split; try exact Hin.
  - intros ->. assert (color_eqb target_color target_color = true)
      by (apply color_eqb_eq; reflexivity). congruence.
  - destruct (color_eqb c target_color) eqn:E; [|reflexivity].
    apply color_eqb_eq in E. contradiction.
Qed.

Lemma sorted_distances_total target_color colors :
  byte_color target_color -> Forall byte_color colors ->
  exists distances, sorted_distances target_color colors = Ok distances.
Proof.
  intros Ht Hc. unfold sorted_distances, distance_list.
  destruct (mapM_total
              (fun c => bind (rgb_distance target_color c) (fun d => Ok (d, c)))
              (filter (fun c => negb (color_eqb c target_color)) colors))
    as (unsorted & Hu).
  - intros c Hin. apply filter_In in Hin. destruct Hin as [Hin _].
    rewrite Forall_forall in Hc.
    destruct (@rgb_distance_byte target_color c Ht (Hc c Hin)) as (d & Hd).
    exists (d, c). rewrite Hd. reflexivity.
  - rewrite Hu. simpl bind. eexists; reflexivity.
Qed.

(** C4, as the specification states it, does not hold: two candidates at
    the same distance are not left in the order of the palette.  Of
    [(10, 0, 0)] and [(0, 0, 10)], both at distance 10 of black, the second
    of the palette comes first. *)
Lemma tie_does_not_keep_palette_order :
  candidates (0, 0, 0) [(10, 0, 0); (0, 0, 10)] = [(10, 0, 0); (0, 0, 10)]
  /\ sorted_distances (0, 0, 0) [(10, 0, 0); (0, 0, 10)]
     = Ok [(S754_finite false 5629499534213120 (-49), (0, 0, 10));
           (S754_finite false 5629499534213120 (-49), (10, 0, 0))].
Proof. split; vm_compute; reflexivity. Qed.

(** C4, amended.  The list [distances] that [find_neighbors] selects from
    holds the candidates, the colours of the palette that differ from the
    target, each with its distance to the target, sorted by ascending
    distance; candidates at equal distance are in ascending order of
    their [(r, g, b)] tuples, whatever their order in the palette.  On
    byte colours the list exists and the order of the computed distances
    is the order of the exact Euclidean distances. *)
Theorem candidates_sorted_by_distance_then_colour :
  forall (target_color : color) (colors : list color),
    (forall distances,
        sorted_distances target_color colors = Ok distances ->
        Permutation (map snd distances) (candidates target_color colors)
        /\ Forall (fun e => rgb_distance target_color (snd e) = Ok (fst e))
                  distances
        /\ StronglySorted entry_le distances)
    /\ (byte_color target_color -> Forall byte_color colors ->
        exists distances,
          sorted_distances target_color colors = Ok distances
          /\ StronglySorted
               (fun e1 e2 => nearer_or_tied target_color (snd e1) (snd e2))
               distances).
Proof.
  intros target_color colors. split.
  - intros distances H. apply sorted_distances_spec. exact H.
  - intros Ht Hc.
    destruct (@sorted_distances_total target_color colors Ht Hc)
      as (distances & Hd).
    exists distances. split; [exact Hd|].
    destruct (@sorted_distances_spec _ _ _ Hd) as (Hperm & Hall & Hsorted).
    apply StronglySorted_impl_In with (R := entry_le); [|exact Hsorted].
    intros e1 e2 H1 H2 Hle.
    assert (Hbyte : forall e, In e distances -> byte_color (snd e)).
    { intros e He. rewrite Forall_forall in Hc. apply Hc.
      apply (candidates_In target_color colors).
      apply (Permutation_in _ Hperm). apply in_map. exact He. }
    rewrite Forall_forall in Hall.
    destruct (@distance_order target_color (snd e1) (snd e2) (fst e1) (fst e2)
                Ht (Hbyte _ H1) (Hbyte _ H2) (Hall _ H1) (Hall _ H2))
      as [Hlt Heq].
    unfold entry_le in Hle. unfold nearer_or_tied.
    rewrite Hlt, Heq in Hle. exact Hle.
Qed.

Lemma candidates_sorted_by_distance_then_colour_witness :
  exists distances,
    sorted_distances (0, 0, 0) [(10, 0, 0); (0, 0, 0); (0, 0, 10); (1, 2, 3)]
    = Ok distances
    /\ StronglySorted
         (fun e1 e2 => nearer_or_tied (0, 0, 0) (snd e1) (snd e2)) distances.
Proof.
  apply (@candidates_sorted_by_distance_then_colour (0, 0, 0)
           [(10, 0, 0); (0, 0, 0); (0, 0, 10); (1, 2, 3)]).
  - vm_compute. repeat split; discriminate.
  - repeat constructor; vm_compute; discriminate.
Defined.

Lemma for_each_ext (A S : Type) (body body' : A -> S -> result S) l s :
  (forall a s', In a l -> body a s' = body' a s') ->
  for_each l body s = for_each l body' s.
Proof.
  revert s; induction l as [|a l IH]; simpl; intros s H; [reflexivity|].
  rewrite (H a s (or_introl eq_refl)).
  destruct (body' a s) as [s1|e]; simpl; [|reflexivity].
  apply IH. intros a' s' Ha'. apply H. right; exact Ha'.
Qed.

Lemma py_getitem_In (A : Type) (l : list A) i a :
  py_getitem l i = Ok a -> In a l.
Proof.
  unfold py_getitem.
  destruct ((0 <=? (if i <? 0 then i + len l else i))
            && ((if i <? 0 then i + len l else i) <? len l)); [|discriminate].
  destruct (nth_error l (Z.to_nat (if i <? 0 then i + len l else i))) eqn:E;
    [|discriminate].
  intros H; inversion H; subst. apply nth_error_In with (1 := E).
Qed.

(** The loop of [find_neighbors] reads the entries of [distances] from the
    index [min_distance] on, [max_neighbors] of them at most. *)
Lemma find_neighbors_selection target_color colors max_neighbors min_distance :
  0 <= min_distance ->
  find_neighbors target_color colors max_neighbors min_distance
  = bind (sorted_distances target_color colors)
      (fun distances =>
         mapM (fun i => bind (py_getitem distances i) (fun e => Ok (snd e)))
              (py_range min_distance
                 (Z.min (min_distance + max_neighbors) (len distances)))).
Proof.
  intros Hmin. unfold find_neighbors.
  destruct (sorted_distances target_color colors) as [distances|e]; simpl;
    [|reflexivity].
  rewrite (for_each_ext
             (fun i selected =>
                if i <? len distances
                then bind (py_getitem distances i)
                          (fun e => Ok (selected ++ [snd e]))
                else Ok selected)
             (fun i selected =>
                bind (bind (py_getitem distances i) (fun e => Ok (snd e)))
                     (fun c => Ok (selected ++ [c])))).
  - rewrite for_each_append. simpl app.
    destruct (mapM _ _); reflexivity.
  - intros i selected Hi. apply py_range_In in Hi.
    replace (i <? len distances) with true by (symmetry; apply Z.ltb_lt; lia).
    destruct (py_getitem distances i); reflexivity.
Qed.

(** C5.  For a number of neighbours and a number of entries to skip that
    are not negative, the list [find_neighbors] returns holds colours of
    the palette that differ from the target, [max_neighbors] of them at
    most, and none when the candidates are not more than [min_distance];
    on byte colours the function does return. *)
Theorem neighbors_exclude_target_and_are_bounded :
  forall (target_color : color) (colors : list color)
         (max_neighbors min_distance : Z),
    0 <= max_neighbors -> 0 <= min_distance ->
    (forall selected,
        find_neighbors target_color colors max_neighbors min_distance
        = Ok selected ->
        (forall c, In c selected ->
           In c colors /\ c <> target_color
           /\ color_eqb c target_color = false)
        /\ len selected <= max_neighbors
        /\ (len (candidates target_color colors) <= min_distance ->
            selected = []))
    /\ (byte_color target_color -> Forall byte_color colors ->
        exists selected,
          find_neighbors target_color colors max_neighbors min_distance
          = Ok selected).
Proof.
  intros target_color colors max_neighbors min_distance Hmax Hmin.
  rewrite find_neighbors_selection by exact Hmin. split.
  - intros selected H. apply bind_Ok in H.
    destruct H as (distances & Hd & Hsel).
    destruct (@sorted_distances_spec _ _ _ Hd) as (Hperm & _ & _).
    assert (Hlen : len distances = len (candidates target_color colors)).
    { unfold len. rewrite <- (Permutation_length Hperm), length_map. reflexivity. }
    split; [|split].
    + intros c Hc.
      destruct (@mapM_In _ _ _ _ _ _ Hsel Hc) as (i & _ & Hi).
      apply bind_Ok in Hi. destruct Hi as (e & He & Hce).
      inversion Hce; subst c.
      assert (Hcand : In (snd e) (candidates target_color colors)).
      { apply (Permutation_in _ Hperm). apply in_map.
        apply py_getitem_In with (1 := He). }
      apply candidates_In in Hcand. destruct Hcand as [Hin Hne].
      split; [exact Hin|]. split; [exact Hne|].
      destruct (color_eqb (snd e) target_color) eqn:E; [|reflexivity].
      apply color_eqb_eq in E. contradiction.
    + unfold len. rewrite (mapM_length _ _ Hsel), py_range_length. lia.
    + intros Hfew. rewrite py_range_empty in Hsel by lia.
      inversion Hsel. reflexivity.
  - intros Ht Hc.
    destruct (@sorted_distances_total target_color colors Ht Hc)
      as (distances & Hd).
    rewrite Hd. simpl bind. apply mapM_total.
    intros i Hi. apply py_range_In in Hi.
    destruct (@py_getitem_Ok _ distances i ltac:(lia)) as (e & He & _).
    exists (snd e). rewrite He. reflexivity.
Qed.

Lemma neighbors_exclude_target_and_are_bounded_witness :
  exists selected,
    find_neighbors (0, 0, 0)
      [(10, 0, 0); (0, 0, 10); (0, 0, 0); (1, 2, 3); (5, 5, 5); (200, 0, 0)]
      3 2
    = Ok selected.
Proof.
  apply (@neighbors_exclude_target_and_are_bounded (0, 0, 0)
           [(10, 0, 0); (0, 0, 10); (0, 0, 0); (1, 2, 3); (5, 5, 5);
            (200, 0, 0)] 3 2).
  - lia.
  - lia.
  - vm_compute. repeat split; discriminate.
  - repeat constructor; vm_compute; discriminate.
Defined.

(* ================================================================= *)
(** * Part VI: further properties of the script *)

(** ** [rgb_distance] *)

Lemma dist2_sym c1 c2 : dist2 c1 c2 = dist2 c2 c1.
Proof.
  destruct c1 as [[r1 g1] b1]. destruct c2 as [[r2 g2] b2].
  unfold dist2. ring.
Qed.

Lemma dist2_nonneg c1 c2 : 0 <= dist2 c1 c2.
Proof.
  destruct c1 as [[r1 g1] b1]. destruct c2 as [[r2 g2] b2].
  unfold dist2. nia.
Qed.

Lemma dist2_zero c1 c2 : dist2 c1 c2 = 0 <-> c1 = c2.
Proof.
  destruct c1 as [[r1 g1] b1]. destruct c2 as [[r2 g2] b2].
  unfold dist2. split.
  - intros H. assert (r1 = r2) by nia. assert (g1 = g2) by nia.
    assert (b1 = b2) by nia. subst. reflexivity.
  - intros H; inversion H; subst. ring.
Qed.

Lemma math_sqrt_raises n e :
  0 <= n -> math_sqrt n = Raise e -> e = OverflowError.
Proof.
  intros Hn. unfold math_sqrt, float_of_int.
  destruct (is_infinity (binary_normalize prec emax n 0 false)); simpl.
  - intros H; inversion H; reflexivity.
  - destruct (Z.ltb_spec n 0); [lia | discriminate].
Qed.

Lemma rgb_distance_raises c1 c2 e :
  rgb_distance c1 c2 = Raise e -> e = OverflowError.
Proof.
  rewrite rgb_distance_dist2. apply math_sqrt_raises, dist2_nonneg.
Qed.

Lemma rgb_distance_self c : rgb_distance c c = Ok (S754_zero false).
Proof.
  rewrite rgb_distance_dist2.
  replace (dist2 c c) with 0 by (symmetry; apply dist2_zero; reflexivity).
  reflexivity.
Qed.

(** The distance of two colours does not depend on their order and is
    [0.0] from a colour to itself; the only exception [rgb_distance] can
    raise is the [OverflowError] of a sum of squares that is no [float].
    On byte colours it returns, within one rounding of the exact Euclidean
    distance, and the result is above [0.0] exactly when the colours
    differ. *)
Theorem rgb_distance_symmetric_and_accurate :
  (forall c1 c2, rgb_distance c1 c2 = rgb_distance c2 c1)
  /\ (forall c, rgb_distance c c = Ok (S754_zero false))
  /\ (forall c1 c2 e, rgb_distance c1 c2 = Raise e -> e = OverflowError)
  /\ (forall c1 c2, byte_color c1 -> byte_color c2 ->
        exists d,
          rgb_distance c1 c2 = Ok d /\ ok_float d
          /\ (Rabs (F2R d - sqrt (IZR (dist2 c1 c2)))
              <= rnd_err (sqrt (IZR (dist2 c1 c2))))%R
          /\ (float_lt (S754_zero false) d = true <-> c1 <> c2)).
Proof.
  split; [|split; [exact rgb_distance_self|split; [exact rgb_distance_raises|]]].
  - intros c1 c2. rewrite !rgb_distance_dist2, (dist2_sym c1 c2). reflexivity.
  - intros c1 c2 H1 H2.
    destruct (@math_sqrt_spec _ (@dist2_byte _ _ H1 H2)) as (d & Hd & Hok & _ & Herr).
    rewrite <- rgb_distance_dist2 in Hd.
    exists d. split; [exact Hd|]. split; [exact Hok|]. split; [exact Herr|].
    destruct (@distance_order c1 c1 c2 _ _ H1 H1 H2 (rgb_distance_self c1) Hd)
      as [Hlt _].
    rewrite Hlt.
    replace (dist2 c1 c1) with 0 by (symmetry; apply dist2_zero; reflexivity).
    pose proof (dist2_nonneg c1 c2) as Hnn.
    pose proof (dist2_zero c1 c2) as Hz.
    split.
    + intros Hpos Heq. apply Hz in Heq. lia.
    + intros Hne. destruct (Z.eq_dec (dist2 c1 c2) 0) as [E|E]; [|lia].
      apply Hz in E. contradiction.
Qed.

Lemma rgb_distance_symmetric_and_accurate_witness :
  exists d,
    rgb_distance (255, 0, 0) (0, 0, 255) = Ok d /\ ok_float d
    /\ (Rabs (F2R d - sqrt (IZR (dist2 (255, 0, 0)%Z (0, 0, 255)%Z)))
        <= rnd_err (sqrt (IZR (dist2 (255, 0, 0)%Z (0, 0, 255)%Z))))%R
    /\ (float_lt (S754_zero false) d = true <-> (255, 0, 0) <> (0, 0, 255)).
Proof.
  destruct rgb_distance_symmetric_and_accurate as (_ & _ & _ & H).
  apply (H (255, 0, 0) (0, 0, 255)); vm_compute; repeat split; discriminate.
Defined.

(** ** [find_neighbors]: the neighbours as a slice of the ranking *)

Lemma skipn_nth_error (A : Type) (l : list A) k a :
  nth_error l k = Some a -> skipn k l = a :: skipn (S k) l.
Proof.
  revert k. induction l as [|x l IH]; intros [|k]; simpl; try discriminate.
  - intros H; inversion H; reflexivity.
  - intros H. apply (IH k H).
Qed.

Lemma py_range_single a : py_range a (a + 1) = [a].
Proof. rewrite py_range_succ, py_range_empty by lia. reflexivity. Qed.

Lemma mapM_getitem_range (A B : Type) (g : A -> B) (l : list A) (k : nat) a :
  0 <= a -> a + Z.of_nat k <= len l ->
  mapM (fun i => bind (py_getitem l i) (fun e => Ok (g e)))
       (py_range a (a + Z.of_nat k))
  = Ok (map g (firstn k (skipn (Z.to_nat a) l))).
Proof.
  revert a. induction k as [|k IH]; intros a Ha Hlen.
  - rewrite py_range_empty by lia. reflexivity.
  - rewrite (@py_range_app a (a + 1) (a + Z.of_nat (S k))) by lia.
    rewrite py_range_single.
    replace (a + Z.of_nat (S k)) with (a + 1 + Z.of_nat k) by lia.
    change ([a] ++ py_range (a + 1) (a + 1 + Z.of_nat k))
      with (a :: py_range (a + 1) (a + 1 + Z.of_nat k)).
    cbn [mapM].
    destruct (@py_getitem_Ok _ l a ltac:(lia)) as (e & Hget & Hnth).
    rewrite Hget. cbn [bind].
    rewrite IH by lia. cbn [bind].
    rewrite (skipn_nth_error _ _ Hnth). simpl firstn. simpl map.
    replace (Z.to_nat (a + 1)) with (S (Z.to_nat a)) by lia. reflexivity.
Qed.

Lemma find_neighbors_slice target_color colors max_neighbors min_distance :
  0 <= max_neighbors -> 0 <= min_distance ->
  find_neighbors target_color colors max_neighbors min_distance
  = bind (sorted_distances target_color colors)
      (fun distances =>
         Ok (map snd (firstn (Z.to_nat max_neighbors)
                             (skipn (Z.to_nat min_distance) distances)))).
Proof.
  intros Hmax Hmin. rewrite find_neighbors_selection by exact Hmin.
  destruct (sorted_distances target_color colors) as [distances|e];
    [|reflexivity].
  simpl bind.
  destruct (Z_le_gt_dec (len distances) min_distance) as [Hfew|Hmany].
  - rewrite py_range_empty by lia.
    rewrite skipn_all2 by (unfold len in Hfew; lia).
    rewrite firstn_nil. reflexivity.
  - remember
      (Z.to_nat (Z.min (min_distance + max_neighbors) (len distances)
                 - min_distance)) as k eqn:Hk.
    replace (Z.min (min_distance + max_neighbors) (len distances))
      with (min_distance + Z.of_nat k) by lia.
    rewrite mapM_getitem_range by lia.
    do 2 f_equal.
    destruct (Z_le_gt_dec (min_distance + max_neighbors) (len distances)).
    + f_equal. lia.
    + rewrite !firstn_all2; [reflexivity | |];
        rewrite length_skipn; unfold len in *; lia.
Qed.

(** With a number of neighbours and a number of entries to skip that are
    not negative, the loop of [find_neighbors] returns the colours of
    [distances[min_distance : min_distance + max_neighbors]], and so as
    many colours as there are candidates past the first [min_distance],
    up to [max_neighbors]. *)
Theorem neighbors_are_a_slice_of_the_ranking :
  forall (target_color : color) (colors : list color)
         (max_neighbors min_distance : Z),
    0 <= max_neighbors -> 0 <= min_distance ->
    find_neighbors target_color colors max_neighbors min_distance
    = bind (sorted_distances target_color colors)
        (fun distances =>
           Ok (map snd (firstn (Z.to_nat max_neighbors)
                               (skipn (Z.to_nat min_distance) distances))))
    /\ forall selected,
         find_neighbors target_color colors max_neighbors min_distance
         = Ok selected ->
         len selected
         = Z.max 0 (Z.min max_neighbors
                      (len (candidates target_color colors) - min_distance)).
Proof.
  intros target_color colors max_neighbors min_distance Hmax Hmin.
  split; [apply find_neighbors_slice; assumption|].
  intros selected H. rewrite find_neighbors_slice in H by assumption.
  apply bind_Ok in H. destruct H as (distances & Hd & Hsel).
  inversion Hsel; subst selected.
  destruct (@sorted_distances_spec _ _ _ Hd) as (Hperm & _ & _).
  apply Permutation_length in Hperm. rewrite length_map in Hperm.
  unfold len. rewrite length_map, length_firstn, length_skipn, <- Hperm. lia.
Qed.

Lemma neighbors_are_a_slice_of_the_ranking_witness :
  find_neighbors (0, 0, 0)
    [(9, 0, 0); (0, 0, 0); (0, 3, 0); (0, 0, 7); (5, 5, 5)] 3 2
  = Ok [(5, 5, 5); (9, 0, 0)]
  /\ len [(5, 5, 5); (9, 0, 0)]
     = Z.max 0 (Z.min 3
                  (len (candidates (0, 0, 0)
                          [(9, 0, 0); (0, 0, 0); (0, 3, 0); (0, 0, 7);
                           (5, 5, 5)]) - 2)).
Proof.
  split; [vm_compute; reflexivity|].
  apply (proj2 (@neighbors_are_a_slice_of_the_ranking (0, 0, 0)
                  [(9, 0, 0); (0, 0, 0); (0, 3, 0); (0, 0, 7); (5, 5, 5)] 3 2
                  ltac:(lia) ltac:(lia))).
  vm_compute. reflexivity.
Defined.

(** ** [find_neighbors]: the order of the palette does not matter *)

Lemma mapM_perm (A B : Type) (f : A -> result B) l l' :
  Permutation l l' ->
  forall bs, mapM f l = Ok bs ->
             exists bs', mapM f l' = Ok bs' /\ Permutation bs bs'.
Proof.
  induction 1 as [|x l l' Hp IH|x y l|l l' l'' Hp1 IH1 Hp2 IH2]; intros bs H.
  - exists []. inversion H. split; [reflexivity | constructor].
  - simpl in *. destruct (f x) as [b|e]; [|discriminate].
    simpl in *. destruct (mapM f l) as [bs0|e]; [|discriminate].
    simpl in H. inversion H; subst bs.
    destruct (IH bs0 eq_refl) as (bs' & Hbs' & Hperm).
    rewrite Hbs'. exists (b :: bs'). split; [reflexivity|].
    apply perm_skip. exact Hperm.
  - simpl in *. destruct (f y) as [by_|e]; [|discriminate].
    simpl in *. destruct (f x) as [bx|e]; [|discriminate].
    simpl in *. destruct (mapM f l) as [bs0|e]; [|discriminate].
    simpl in *. inversion H; subst bs.
    exists (bx :: by_ :: bs0). split; [reflexivity | apply perm_swap].
  - destruct (IH1 bs H) as (bs1 & H1 & P1).
    destruct (IH2 bs1 H1) as (bs2 & H2 & P2).
    exists bs2. split; [exact H2 | apply perm_trans with bs1; assumption].
Qed.

Lemma filter_perm (A : Type) (p : A -> bool) l l' :
  Permutation l l' -> Permutation (filter p l) (filter p l').
Proof.
  induction 1 as [|x l l' Hp IH|x y l|l l' l'' Hp1 IH1 Hp2 IH2]; simpl.
  - constructor.
  - destruct (p x); [apply perm_skip|]; exact IH.
  - destruct (p x), (p y); try apply Permutation_refl. apply perm_swap.
  - apply perm_trans with (filter p l'); assumption.
Qed.

Lemma sorted_perm_unique (A : Type) (R : A -> A -> Prop) l :
  (forall a b, In a l -> In b l -> R a b -> R b a -> a = b) ->
  forall l', StronglySorted R l -> StronglySorted R l' -> Permutation l l' ->
             l = l'.
Proof.
  induction l as [|a l IH]; intros Hanti l' Hs Hs' Hp.
  - apply Permutation_nil in Hp. symmetry; exact Hp.
  - destruct l' as [|a' l'].
    { apply Permutation_sym, Permutation_nil in Hp. discriminate. }
    inversion Hs as [|? ? Hs1 Hall]; subst.
    inversion Hs' as [|? ? Hs1' Hall']; subst.
    rewrite Forall_forall in Hall, Hall'.
    assert (Heq : a = a').
    { assert (Hin' : In a' (a :: l))
        by (apply (Permutation_in _ (Permutation_sym Hp)); left; reflexivity).
      assert (Hin : In a (a' :: l'))
        by (apply (Permutation_in _ Hp); left; reflexivity).
      destruct Hin' as [E|Hin']; [exact E|].
      destruct Hin as [E|Hin]; [symmetry; exact E|].
      apply Hanti; [left; reflexivity | right; exact Hin' | auto | auto]. }
    subst a'. f_equal. apply IH.
    + intros x y Hx Hy. apply Hanti; right; assumption.
    + exact Hs1.
    + exact Hs1'.
    + apply Permutation_cons_inv with a. exact Hp.
Qed.

Lemma color_le_antisym c1 c2 : color_le c1 c2 -> color_le c2 c1 -> c1 = c2.
Proof.
  rewrite !color_le_lex.
  destruct c1 as [[r1 g1] b1]. destruct c2 as [[r2 g2] b2]. simpl.
  intros H1 H2. assert (r1 = r2) by lia. assert (g1 = g2) by lia.
  assert (b1 = b2) by lia. subst. reflexivity.
Qed.

Lemma entry_le_antisym target_color e1 e2 :
  rgb_distance target_color (snd e1) = Ok (fst e1) ->
  rgb_distance target_color (snd e2) = Ok (fst e2) ->
  entry_le e1 e2 -> entry_le e2 e1 -> e1 = e2.
Proof.
  intros H1 H2.
  assert (D1 : dist_entry e1) by (apply (@rgb_distance_kind _ _ _ H1)).
  assert (D2 : dist_entry e2) by (apply (@rgb_distance_kind _ _ _ H2)).
  rewrite (@entry_le_cases _ _ D1 D2), (@entry_le_cases _ _ D2 D1).
  intros L1 L2.
  assert (Hc : snd e1 = snd e2).
  { destruct (fkey (fst e1)) as [[a1 b1] c1].
    destruct (fkey (fst e2)) as [[a2 b2] c2].
    unfold lex3 in *. simpl in *.
    destruct L1 as [L1|[K1 C1]]; destruct L2 as [L2|[K2 C2]].
    - lia.
    - inversion K2; subst. lia.
    - inversion K1; subst. lia.
    - apply color_le_antisym; assumption. }
  destruct e1 as [d1 c1]. destruct e2 as [d2 c2]. simpl in *. subst c2.
  rewrite H1 in H2. inversion H2. reflexivity.
Qed.

Lemma sorted_distances_perm target_color colors colors' :
  Permutation colors colors' ->
  sorted_distances target_color colors = sorted_distances target_color colors'.
Proof.
  intros Hp.
  assert (Hcand : Permutation
                    (filter (fun c => negb (color_eqb c target_color)) colors)
                    (filter (fun c => negb (color_eqb c target_color)) colors'))
    by (apply filter_perm; exact Hp).
  destruct (sorted_distances target_color colors) as [ds|e] eqn:E;
    destruct (sorted_distances target_color colors') as [ds'|e'] eqn:E'.
  - f_equal.
    destruct (@sorted_distances_spec _ _ _ E) as (P & Hall & Hs).
    destruct (@sorted_distances_spec _ _ _ E') as (P' & Hall' & Hs').
    apply sorted_perm_unique with (R := entry_le); [|exact Hs|exact Hs'|].
    + rewrite Forall_forall in Hall. intros a b Ha Hb.
      apply entry_le_antisym with target_color; auto.
    + unfold sorted_distances in E, E'.
      apply bind_Ok in E. destruct E as (us & Hus & Hds).
      apply bind_Ok in E'. destruct E' as (us' & Hus' & Hds').
      inversion Hds; inversion Hds'; subst.
      unfold distance_list in Hus, Hus'.
      destruct (@mapM_perm _ _ _ _ _ Hcand _ Hus) as (us2 & Hus2 & Pus).
      rewrite Hus' in Hus2. inversion Hus2; subst us2.
      apply perm_trans with us; [apply py_sort_perm|].
      apply perm_trans with us'; [exact Pus|].
      apply Permutation_sym, py_sort_perm.
  - exfalso. unfold sorted_distances in E, E'.
    apply bind_Ok in E. destruct E as (us & Hus & _).
    unfold distance_list in Hus, E'.
    destruct (@mapM_perm _ _ _ _ _ Hcand _ Hus) as (us2 & Hus2 & _).
    unfold distance_list in E'. rewrite Hus2 in E'. discriminate.
  - exfalso. unfold sorted_distances in E, E'.
    apply bind_Ok in E'. destruct E' as (us & Hus & _).
    unfold distance_list in Hus, E.
    destruct (@mapM_perm _ _ _ _ _ (Permutation_sym Hcand) _ Hus) as (us2 & Hus2 & _).
    rewrite Hus2 in E. discriminate.
  - assert (Hov : forall cs x,
               sorted_distances target_color cs = Raise x -> x = OverflowError).
    { intros cs x. unfold sorted_distances, distance_list.
      destruct (mapM _ _) as [us|x0] eqn:Hm; simpl; [discriminate|].
      intros H; inversion H; subst x0.
      apply mapM_Raise_In in Hm. destruct Hm as (c & _ & Hc).
      destruct (rgb_distance target_color c) as [d|x1] eqn:Hd; simpl in Hc;
        [discriminate|].
      inversion Hc; subst. apply (@rgb_distance_raises _ _ _ Hd). }
    rewrite (Hov _ _ E), (Hov _ _ E'). reflexivity.
Qed.

(** The neighbours of a colour depend on the colours of the palette, not
    on their order: [find_neighbors] gives the same result, or raises the
    same exception, on two palettes that are permutations of each other. *)
Theorem neighbors_do_not_depend_on_palette_order :
  forall (target_color : color) (colors colors' : list color)
         (max_neighbors min_distance : Z),
    Permutation colors colors' ->
    find_neighbors target_color colors max_neighbors min_distance
    = find_neighbors target_color colors' max_neighbors min_distance.
Proof.
  intros target_color colors colors' max_neighbors min_distance Hp.
  unfold find_neighbors. rewrite (@sorted_distances_perm target_color _ _ Hp).
  reflexivity.
Qed.

Lemma neighbors_do_not_depend_on_palette_order_witness :
  find_neighbors (0, 0, 0) [(10, 0, 0); (0, 0, 10); (1, 2, 3)] 3 0
  = find_neighbors (0, 0, 0) [(0, 0, 10); (10, 0, 0); (1, 2, 3)] 3 0.
Proof.
  apply (@neighbors_do_not_depend_on_palette_order (0, 0, 0)
           [(10, 0, 0); (0, 0, 10); (1, 2, 3)]
           [(0, 0, 10); (10, 0, 0); (1, 2, 3)] 3 0).
  apply perm_swap.
Defined.

(** ** [get_lightest_darkest] *)

(** The first and the last element of a sorted list.  The sort is stable:
    of the least elements the first of the list comes first, of the
    greatest the last of the list comes last. *)
Section SortExtremes.

Variable A : Type.
Variable lt : A -> A -> bool.
Variable dom : A -> Prop.
Hypothesis lt_trans :
  forall a b c, dom a -> dom b -> dom c ->
                lt a b = true -> lt b c = true -> lt a c = true.
Hypothesis not_lt_trans :
  forall a b c, dom a -> dom b -> dom c ->
                lt a b = false -> lt b c = false -> lt a c = false.

Lemma py_sort_head l :
  Forall dom l -> l <> [] ->
  exists before c after rest,
    l = before ++ c :: after /\ py_sort lt l = c :: rest
    /\ (forall b, In b before -> lt c b = true)
    /\ (forall a, In a after -> lt a c = false).
Proof.
  induction l as [|x l IH]; intros Hdom Hne; [contradiction|].
  inversion Hdom as [|? ? Hx Hl]; subst.
  destruct l as [|y l'].
  - exists [], x, [], []. simpl. repeat split; intros ? [].
  - destruct (IH Hl ltac:(discriminate))
      as (before & c & after & rest & Hl' & Hsort & Hb & Ha).
    assert (Hdoml : forall a, In a (y :: l') -> dom a)
      by (apply Forall_forall; exact Hl).
    assert (Hc : dom c).
    { apply Hdoml. rewrite Hl'. apply in_or_app. right; left; reflexivity. }
    change (py_sort lt (x :: y :: l'))
      with (sort_insert lt x (py_sort lt (y :: l'))).
    rewrite Hsort. simpl sort_insert.
    destruct (lt c x) eqn:E.
    + exists (x :: before), c, after, (sort_insert lt x rest).
      split; [rewrite Hl'; reflexivity|]. split; [reflexivity|].
      split; [|exact Ha].
      intros b [<-|Hin]; [exact E | apply Hb; exact Hin].
    + exists [], x, (y :: l'), (c :: rest).
      split; [reflexivity|]. split; [reflexivity|].
      split; [intros ? []|].
      intros a Hin. assert (Hda : dom a) by (apply Hdoml; exact Hin).
      rewrite Hl' in Hin. apply in_app_or in Hin.
      destruct Hin as [Hin|[<-|Hin]].
      * destruct (lt a x) eqn:Eax; [|reflexivity].
        rewrite (lt_trans Hc Hda Hx (Hb _ Hin) Eax) in E. discriminate.
      * exact E.
      * apply (not_lt_trans Hda Hc Hx (Ha _ Hin) E).
Qed.

Lemma sort_insert_greatest x s :
  (forall y, In y s -> lt y x = true) -> sort_insert lt x s = s ++ [x].
Proof.
  induction s as [|y s IH]; simpl; intros H; [reflexivity|].
  rewrite (H y (or_introl eq_refl)). f_equal. apply IH.
  intros z Hz. apply H. right; exact Hz.
Qed.

Lemma sort_insert_keeps_last x s c :
  lt c x = false -> exists s', sort_insert lt x (s ++ [c]) = s' ++ [c].
Proof.
  intros Hc. induction s as [|y s IH]; simpl.
  - rewrite Hc. exists [x]. reflexivity.
  - destruct (lt y x).
    + destruct IH as (s' & Hs'). rewrite Hs'. exists (y :: s'). reflexivity.
    + exists (x :: y :: s). reflexivity.
Qed.

Lemma py_sort_last l :
  Forall dom l -> l <> [] ->
  exists before c after rest,
    l = before ++ c :: after /\ py_sort lt l = rest ++ [c]
    /\ (forall b, In b before -> lt c b = false)
    /\ (forall a, In a after -> lt a c = true).
Proof.
  induction l as [|x l IH]; intros Hdom Hne; [contradiction|].
  inversion Hdom as [|? ? Hx Hl]; subst.
  destruct l as [|y l'].
  - exists [], x, [], []. simpl. repeat split; intros ? [].
  - destruct (IH Hl ltac:(discriminate))
      as (before & c & after & rest & Hl' & Hsort & Hb & Ha).
    assert (Hdoml : forall a, In a (y :: l') -> dom a)
      by (apply Forall_forall; exact Hl).
    assert (Hc : dom c).
    { apply Hdoml. rewrite Hl'. apply in_or_app. right; left; reflexivity. }
    change (py_sort lt (x :: y :: l'))
      with (sort_insert lt x (py_sort lt (y :: l'))).
    destruct (lt c x) eqn:E.
    + assert (Hall : forall a, In a (y :: l') -> lt a x = true).
      { intros a Hin. assert (Hda : dom a) by (apply Hdoml; exact Hin).
        rewrite Hl' in Hin. apply in_app_or in Hin.
        destruct Hin as [Hin|[<-|Hin]].
        - destruct (lt a x) eqn:Eax; [reflexivity|].
          rewrite (not_lt_trans Hc Hda Hx (Hb _ Hin) Eax) in E. discriminate.
        - exact E.
        - apply (lt_trans Hda Hc Hx (Ha _ Hin) E). }
      exists [], x, (y :: l'), (py_sort lt (y :: l')).
      split; [reflexivity|]. split.
      * apply sort_insert_greatest. intros z Hz. apply Hall.
        apply (Permutation_in _ (py_sort_perm lt (y :: l')) Hz).
      * split; [intros ? [] | exact Hall].
    + rewrite Hsort.
      destruct (sort_insert_keeps_last rest E) as (s' & Hs').
      exists (x :: before), c, after, s'.
      split; [rewrite Hl'; reflexivity|]. split; [exact Hs'|].
      split; [|exact Ha].
      intros b [<-|Hin]; [exact E | apply Hb; exact Hin].
Qed.

End SortExtremes.

Lemma binary_normalize_kind m e :
  0 <= m -> dist_float (binary_normalize prec emax m e false).
Proof.
  intros Hm. destruct m as [|p|p]; try lia; simpl binary_normalize; [exact I|].
  unfold binary_round.
  destruct (shl_align p e (fexp prec emax (Zpos (digits2_pos p) + e)))
    as [mz ez].
  apply binary_round_aux_kind. lia.
Qed.

Lemma float_mul_kind x y :
  match x with S754_finite false _ _ => True | _ => False end ->
  dist_float y -> dist_float (float_mul x y).
Proof.
  destruct x as [sx|sx| |[|] mx ex]; try contradiction. intros _.
  destruct y as [sy|[|]| |[|] my ey]; try contradiction; intros _;
    try exact I.
  unfold float_mul, SFmul. simpl xorb. apply binary_round_aux_kind. lia.
Qed.

Lemma float_add_kind x y :
  dist_float x -> dist_float y -> dist_float (float_add x y).
Proof.
  destruct x as [sx|[|]| |[|] mx ex]; try contradiction; intros _;
    destruct y as [sy|[|]| |[|] my ey]; try contradiction; intros _;
    try exact I.
  - destruct sx, sy; exact I.
  - unfold float_add, SFadd. apply binary_normalize_kind. simpl. lia.
Qed.

Lemma float_of_byte r :
  byte r -> exists f, float_of_int r = Ok f /\ dist_float f.
Proof.
  intros [Hlo Hhi].
  destruct (@float_of_int_spec r) as (f & Hf & _).
  { apply below_max. rewrite Rabs_right by (apply Rle_ge, IZR_le; lia).
    apply Rle_trans with (IZR 255); [apply IZR_le; lia | lra]. }
  exists f. split; [exact Hf|].
  pose proof (@float_of_nonneg_int_kind _ _ Hlo Hf) as Hk.
  destruct f as [s|[|]| |[|] m e]; try contradiction; exact I.
Qed.

Lemma luminance_byte c :
  byte_color c -> exists l, luminance c = Ok l /\ dist_float l.
Proof.
  destruct c as [[r g] b]. intros (Hr & Hg & Hb). unfold luminance.
  destruct (float_of_byte Hr) as (fr & -> & Kr).
  destruct (float_of_byte Hg) as (fg & -> & Kg).
  destruct (float_of_byte Hb) as (fb & -> & Kb).
  cbn [bind].
  exists (float_add (float_add (float_mul lit_0_299 fr) (float_mul lit_0_587 fg))
                    (float_mul lit_0_114 fb)).
  split; [reflexivity|].
  apply float_add_kind; [apply float_add_kind|];
    apply float_mul_kind; try assumption; exact I.
Qed.

Lemma lex3_trans k1 k2 k3 : lex3 k1 k2 -> lex3 k2 k3 -> lex3 k1 k3.
Proof.
  destruct k1 as [[a1 b1] c1]. destruct k2 as [[a2 b2] c2].
  destruct k3 as [[a3 b3] c3]. unfold lex3. simpl. lia.
Qed.

Lemma not_lex3_trans k1 k2 k3 : ~ lex3 k1 k2 -> ~ lex3 k2 k3 -> ~ lex3 k1 k3.
Proof.
  destruct k1 as [[a1 b1] c1]. destruct k2 as [[a2 b2] c2].
  destruct k3 as [[a3 b3] c3]. unfold lex3. simpl. lia.
Qed.

Lemma key_ltb_trans (e1 e2 e3 : float * color) :
  dist_entry e1 -> dist_entry e2 -> dist_entry e3 ->
  key_ltb e1 e2 = true -> key_ltb e2 e3 = true -> key_ltb e1 e3 = true.
Proof.
  unfold key_ltb, dist_entry. intros D1 D2 D3.
  rewrite (@float_lt_key _ _ D1 D2), (@float_lt_key _ _ D2 D3),
    (@float_lt_key _ _ D1 D3).
  apply lex3_trans.
Qed.

Lemma key_ltb_not_trans (e1 e2 e3 : float * color) :
  dist_entry e1 -> dist_entry e2 -> dist_entry e3 ->
  key_ltb e1 e2 = false -> key_ltb e2 e3 = false -> key_ltb e1 e3 = false.
Proof.
  unfold key_ltb, dist_entry. intros D1 D2 D3 H12 H23.
  destruct (float_lt (fst e1) (fst e3)) eqn:E; [|reflexivity].
  apply (@float_lt_key _ _ D1 D3) in E. exfalso.
  revert E. apply not_lex3_trans with (fkey (fst e2)).
  - intros H. apply (@float_lt_key _ _ D1 D2) in H. congruence.
  - intros H. apply (@float_lt_key _ _ D2 D3) in H. congruence.
Qed.

Lemma mapM_keyed (A K : Type) (f : A -> result K) l keyed :
  mapM (fun a => bind (f a) (fun k => Ok (k, a))) l = Ok keyed ->
  map snd keyed = l /\ Forall (fun e => f (snd e) = Ok (fst e)) keyed.
Proof.
  revert keyed; induction l as [|a l IH]; simpl; intros keyed H.
  - inversion H; subst. split; [reflexivity | constructor].
  - apply bind_Ok in H. destruct H as (e & He & H).
    apply bind_Ok in He. destruct He as (k & Hk & He). inversion He; subst e.
    apply bind_Ok in H. destruct H as (es & Hes & H). inversion H; subst.
    destruct (IH _ Hes) as [Hmap Hall]. simpl. split.
    + f_equal. exact Hmap.
    + constructor; [exact Hk | exact Hall].
Qed.

Lemma py_getitem_first (A : Type) (a : A) l : py_getitem (a :: l) 0 = Ok a.
Proof.
  destruct (@py_getitem_Ok _ (a :: l) 0) as (a' & Hget & Hnth).
  - unfold len. simpl List.length. lia.
  - simpl in Hnth. inversion Hnth; subst. exact Hget.
Qed.

Lemma py_getitem_last (A : Type) (a : A) l : py_getitem (l ++ [a]) (-1) = Ok a.
Proof.
  unfold py_getitem. change (-1 <? 0) with true. cbv iota.
  rewrite len_app. change (len [a]) with 1.
  replace (-1 + (len l + 1)) with (len l) by lia.
  pose proof (len_nonneg l) as Hl.
  replace (0 <=? len l) with true by (symmetry; apply Z.leb_le; lia).
  replace (len l <? len l + 1) with true by (symmetry; apply Z.ltb_lt; lia).
  simpl andb. unfold len. rewrite Nat2Z.id.
  rewrite nth_error_app2, Nat.sub_diag by lia. reflexivity.
Qed.

Lemma get_lightest_darkest_spec :
  forall colors : list color,
    colors <> [] -> Forall byte_color colors ->
    exists darkest lightest,
      get_lightest_darkest colors = Ok (darkest, lightest)
      /\ (exists before after,
             colors = before ++ darkest :: after
             /\ Forall (fun c => darker darkest c) before
             /\ Forall (fun c => not_lighter darkest c) after)
      /\ (exists before after,
             colors = before ++ lightest :: after
             /\ Forall (fun c => not_lighter c lightest) before
             /\ Forall (fun c => darker c lightest) after).
Proof.
  intros colors Hne Hbytes.
  destruct (mapM_total (fun c => bind (luminance c) (fun k => Ok (k, c))) colors)
    as (keyed & Hkeyed).
  { intros c Hc. rewrite Forall_forall in Hbytes.
    destruct (@luminance_byte _ (Hbytes c Hc)) as (l & Hl & _).
    exists (l, c). rewrite Hl. reflexivity. }
  destruct (@mapM_keyed _ _ _ _ _ Hkeyed) as [Hmap Hlum].
  assert (Hdom : Forall dist_entry keyed).
  { rewrite Forall_forall in *. intros e He.
    assert (Hce : In (snd e) colors) by (rewrite <- Hmap; apply in_map; exact He).
    destruct (@luminance_byte _ (Hbytes _ Hce)) as (l & Hl & Hk).
    rewrite (Hlum e He) in Hl. inversion Hl; subst l. exact Hk. }
  assert (Hkne : keyed <> []).
  { intros ->. simpl in Hmap. symmetry in Hmap. contradiction. }
  destruct (@py_sort_head _ key_ltb dist_entry key_ltb_trans
              key_ltb_not_trans keyed Hdom Hkne)
    as (b1 & d & a1 & rest1 & Hsplit1 & Hsort1 & Hb1 & Ha1).
  destruct (@py_sort_last _ key_ltb dist_entry key_ltb_trans
              key_ltb_not_trans keyed Hdom Hkne)
    as (b2 & l & a2 & rest2 & Hsplit2 & Hsort2 & Hb2 & Ha2).
  rewrite Forall_forall in Hlum.
  assert (Hin : forall e before after,
             keyed = before ++ e :: after ->
             forall x, In x (before ++ e :: after) -> In x keyed)
    by (intros e before after ->; auto).
  exists (snd d), (snd l). split; [|split].
  - unfold get_lightest_darkest. rewrite Hkeyed. simpl bind.
    rewrite Hsort1 at 1. simpl map. rewrite py_getitem_first. simpl bind.
    rewrite Hsort2, map_app. simpl map. rewrite py_getitem_last. reflexivity.
  - exists (map snd b1), (map snd a1).
    split; [rewrite <- Hmap, Hsplit1, map_app; reflexivity|].
    split; apply Forall_forall; intros c Hc; apply in_map_iff in Hc;
      destruct Hc as (e & <- & He).
    + exists (fst d), (fst e).
      split; [|split; [|apply Hb1; exact He]]; apply Hlum;
        apply (Hin _ _ _ Hsplit1); apply in_or_app; simpl; auto.
    + exists (fst d), (fst e).
      split; [|split; [|apply Ha1; exact He]]; apply Hlum;
        apply (Hin _ _ _ Hsplit1); apply in_or_app; simpl; auto.
  - exists (map snd b2), (map snd a2).
    split; [rewrite <- Hmap, Hsplit2, map_app; reflexivity|].
    split; apply Forall_forall; intros c Hc; apply in_map_iff in Hc;
      destruct Hc as (e & <- & He).
    + exists (fst e), (fst l).
      split; [|split; [|apply Hb2; exact He]]; apply Hlum;
        apply (Hin _ _ _ Hsplit2); apply in_or_app; simpl; auto.
    + exists (fst e), (fst l).
      split; [|split; [|apply Ha2; exact He]]; apply Hlum;
        apply (Hin _ _ _ Hsplit2); apply in_or_app; simpl; auto.
Qed.


(** On an empty list [get_lightest_darkest] raises [IndexError].  On a
    list of byte colours that is not empty it returns two colours of the
    list.  The darkest has the least luminance, and is the first of the
    list to have it: the colours before it have a greater luminance and
    the colours after it do not have a lower one.  The lightest has the
    greatest luminance, and is the last of the list to have it. *)
Theorem darkest_and_lightest_are_extremes :
  get_lightest_darkest [] = Raise IndexError
  /\ forall colors : list color,
       colors <> [] -> Forall byte_color colors ->
       exists darkest lightest,
         get_lightest_darkest colors = Ok (darkest, lightest)
         /\ (exists before after,
                colors = before ++ darkest :: after
                /\ Forall (fun c => darker darkest c) before
                /\ Forall (fun c => not_lighter darkest c) after)
         /\ (exists before after,
                colors = before ++ lightest :: after
                /\ Forall (fun c => not_lighter c lightest) before
                /\ Forall (fun c => darker c lightest) after).
Proof. split; [reflexivity | exact get_lightest_darkest_spec]. Qed.

Lemma darkest_and_lightest_are_extremes_witness :
  exists darkest lightest,
    get_lightest_darkest [(0, 0, 255); (255, 255, 255); (0, 0, 0); (0, 0, 0)]
    = Ok (darkest, lightest)
    /\ (exists before after,
           [(0, 0, 255); (255, 255, 255); (0, 0, 0); (0, 0, 0)]
           = before ++ darkest :: after
           /\ Forall (fun c => darker darkest c) before
           /\ Forall (fun c => not_lighter darkest c) after)
    /\ (exists before after,
           [(0, 0, 255); (255, 255, 255); (0, 0, 0); (0, 0, 0)]
           = before ++ lightest :: after
           /\ Forall (fun c => not_lighter c lightest) before
           /\ Forall (fun c => darker c lightest) after).
Proof.
  destruct darkest_and_lightest_are_extremes as [_ H].
  apply (H [(0, 0, 255); (255, 255, 255); (0, 0, 0); (0, 0, 0)]).
  - discriminate.
  - repeat constructor; vm_compute; discriminate.
Defined.

(** ** [create_gradient]: the start of the gradient *)

Lemma int_truediv_zero b : 0 < b -> int_truediv 0 b = Ok (S754_zero false).
Proof. intros Hb. destruct b as [|p|p]; try lia. reflexivity. Qed.

Lemma position_zero axis_length :
  1 <= axis_length ->
  (if axis_length >? 1 then int_truediv 0 (axis_length - 1) else Ok lit_0_0)
  = Ok (S754_zero false).
Proof.
  intros H. rewrite Z.gtb_ltb.
  destruct (Z.ltb_spec 1 axis_length); [|reflexivity].
  apply int_truediv_zero. lia.
Qed.

(** Where the coordinate along the axis is [0], the position is [0.0]
    whatever the size of the image. *)
Lemma locate_axis_start num_colors width height (vertical : bool) (x y : Z) :
  1 <= width -> 1 <= height -> (if vertical then y = 0 else x = 0) ->
  locate num_colors width height vertical x y = locate num_colors 1 1 true 0 0.
Proof.
  intros Hw Hh H. unfold locate. destruct vertical; subst;
    rewrite position_zero by assumption; reflexivity.
Qed.

Lemma locate_start_value n :
  2 <= n <= 2 ^ 40 -> exists s, locate n 1 1 true 0 0 = Ok (0, S754_zero s).
Proof.
  intros Hn.
  destruct (@local_pos_spec (n - 1) (S754_zero false))
    as (f1 & ss & q & seg0 & fseg & lp & H1 & H2 & H3 & H4 & _ & H6 & H7
        & Hok & _).
  { lia. }
  { exact I. }
  { simpl F2R. unfold eps. lra. }
  replace (n - 1 - 1) with (n - 2) in H6 by lia.
  unfold locate. change (1 >? 1) with false. cbv iota.
  change lit_0_0 with (S754_zero false). cbn [bind].
  rewrite H1. cbn [bind]. rewrite H2. cbn [bind]. rewrite H3. cbn [bind].
  rewrite H4. cbn [bind]. rewrite H6. cbn [bind]. rewrite H7. cbn [bind].
  destruct ss as [s|s| |s m e].
  - discriminate H3.
  - simpl in H3. inversion H3; subst q. simpl in H4. inversion H4; subst seg0.
    replace (Z.min 0 (n - 2)) with 0 in H6 by lia.
    vm_compute in H6. inversion H6; subst fseg.
    simpl in H7. inversion H7; subst lp. contradiction.
  - simpl in H3. inversion H3; subst q. discriminate H4.
  - simpl in H3. inversion H3; subst q. simpl in H4. inversion H4; subst seg0.
    replace (Z.min 0 (n - 2)) with 0 in H6 |- * by lia.
    vm_compute in H6. inversion H6; subst fseg.
    simpl in H7. inversion H7; subst lp.
    destruct s; eexists; reflexivity.
Qed.

Lemma byte_below_max (a : Z) : -255 <= a <= 255 -> (Rabs (IZR a) < bpow 1023)%R.
Proof.
  intros H. apply below_max. apply Rabs_le.
  split.
  - apply Rle_trans with (IZR (-255)); [lra | apply IZR_le; lia].
  - apply Rle_trans with (IZR 255); [apply IZR_le; lia | lra].
Qed.

Lemma interpolate_at_zero a b s :
  byte a -> byte b -> interpolate a b (S754_zero s) = Ok a.
Proof.
  intros Ha Hb. unfold byte in *. unfold interpolate, interpolate_float.
  destruct (@float_of_int_spec (b - a)) as (fd & Hfd & Hokd & _);
    [apply byte_below_max; lia|].
  destruct (@float_of_int_spec a) as (fa & Hfa & Hoka & _ & Hexact);
    [apply byte_below_max; lia|].
  specialize (Hexact ltac:(lia)).
  rewrite Hfd, Hfa. cbn [bind].
  assert (Hmul : exists s', float_mul fd (S754_zero s) = S754_zero s').
  { destruct fd as [sd|sd| |sd md ed]; try contradiction; eexists; reflexivity. }
  destruct Hmul as (s' & ->).
  destruct fa as [sa|sa| |sa ma ea]; try contradiction.
  - simpl in Hexact. apply eq_IZR in Hexact. subst a.
    destruct sa, s'; reflexivity.
  - change (float_add (S754_finite sa ma ea) (S754_zero s'))
      with (S754_finite sa ma ea).
    destruct (@int_of_float_spec (S754_finite sa ma ea) Hoka)
      as (k & Hk & Hpos & _).
    rewrite Hk. f_equal.
    rewrite Hexact in Hpos.
    destruct (Hpos ltac:(apply IZR_le; lia)) as [Hlo Hhi].
    apply le_IZR in Hlo. rewrite <- plus_IZR in Hhi. apply lt_IZR in Hhi. lia.
Qed.

Lemma gradient_pixel_start colors width height (vertical : bool) (x y : Z) :
  Forall byte_color colors -> 2 <= len colors <= 2 ^ 40 ->
  1 <= width -> 1 <= height -> (if vertical then y = 0 else x = 0) ->
  gradient_pixel colors width height vertical x y = py_getitem colors 0.
Proof.
  intros Hbytes Hn Hw Hh Hstart. unfold gradient_pixel.
  rewrite (@locate_axis_start (len colors) _ _ _ _ _ Hw Hh Hstart).
  destruct (@locate_start_value _ Hn) as (s & ->). cbn [bind].
  destruct colors as [|c0 [|c1 colors]];
    try (unfold len in Hn; simpl in Hn; lia).
  unfold blend. rewrite py_getitem_first. cbn [bind].
  destruct (@py_getitem_Ok _ (c0 :: c1 :: colors) (0 + 1)) as (c & Hc & Hnth).
  { unfold len. simpl List.length. lia. }
  simpl in Hnth. inversion Hnth; subst c. rewrite Hc. cbn [bind].
  inversion Hbytes as [|? ? Hb0 Hrest]; subst.
  inversion Hrest as [|? ? Hb1 _]; subst.
  destruct c0 as [[r0 g0] b0]. destruct c1 as [[r1 g1] b1].
  destruct Hb0 as (? & ? & ?). destruct Hb1 as (? & ? & ?).
  rewrite !interpolate_at_zero by assumption. reflexivity.
Qed.

Lemma create_gradient_start :
  forall (colors : list color) (width height : Z) (vertical : bool),
    Forall byte_color colors -> 2 <= len colors <= 2 ^ 40 ->
    1 <= width -> 1 <= height ->
    exists pixels,
      create_gradient colors width height vertical
      = Ok (Pixels width height pixels)
      /\ forall x y, 0 <= x < width -> 0 <= y < height ->
           (if vertical then y = 0 else x = 0) ->
           py_getitem pixels (y * width + x) = py_getitem colors 0.
Proof.
  intros colors width height vertical Hbytes Hn Hw Hh.
  destruct (@spec_buffer_byte colors width height vertical Hbytes Hn Hw Hh)
    as (pixels & Hbuf & _).
  exists pixels. split.
  - unfold create_gradient.
    rewrite gradient_pixels_spec, Hbuf by (assumption || lia). reflexivity.
  - intros x y Hx Hy Hstart.
    destruct (@spec_buffer_layout _ _ _ _ _ Hw Hh Hbuf) as [_ Hat].
    rewrite <- (Hat x y Hx Hy).
    rewrite <- gradient_pixel_spec by lia.
    apply gradient_pixel_start; assumption.
Qed.


(** A gradient of two or more byte colours begins with its first colour,
    exactly: in a vertical gradient every pixel of the first row, in a
    horizontal one every pixel of the first column, is [colors[0]]. *)
Theorem gradient_starts_at_first_colour :
  forall (colors : list color) (width height : Z) (vertical : bool),
    Forall byte_color colors -> 2 <= len colors <= 2 ^ 40 ->
    1 <= width -> 1 <= height ->
    exists pixels,
      create_gradient colors width height vertical
      = Ok (Pixels width height pixels)
      /\ forall x y, 0 <= x < width -> 0 <= y < height ->
           (if vertical then y = 0 else x = 0) ->
           py_getitem pixels (y * width + x) = py_getitem colors 0.
Proof. exact create_gradient_start. Qed.

Lemma gradient_starts_at_first_colour_witness :
  exists pixels,
    create_gradient [(255, 0, 0); (0, 255, 0); (0, 0, 255)] 2 3 true
    = Ok (Pixels 2 3 pixels)
    /\ forall x y, 0 <= x < 2 -> 0 <= y < 3 -> y = 0 ->
         py_getitem pixels (y * 2 + x)
         = py_getitem [(255, 0, 0); (0, 255, 0); (0, 0, 255)] 0.
Proof.
  apply (@gradient_starts_at_first_colour
           [(255, 0, 0); (0, 255, 0); (0, 0, 255)] 2 3 true).
  - repeat constructor; vm_compute; discriminate.
  - vm_compute. split; discriminate.
  - lia.
  - lia.
Defined.

(** ** [create_gradient]: the end of the gradient *)

(** An integer divided by itself is [1.0]. *)
Lemma int_truediv_self k : 0 < k -> int_truediv k k = Ok lit_1_0.
Proof.
  intros Hk. destruct k as [|p|p]; try lia.
  unfold int_truediv. change (Z.pos p =? 0) with false. cbv iota.
  unfold exact_int, SFdiv, SFdiv_core_binary.
  replace (Zdigits2 (Z.pos p) + 0 - (Zdigits2 (Z.pos p) + 0)) with 0 by lia.
  change (Z.min (fexp prec emax 0) (0 - 0)) with (-53).
  change (0 - 0 - -53) with 53.
  rewrite Z.shiftl_mul_pow2 by lia.
  destruct (Z.div_eucl (Z.pos p * 2 ^ 53) (Z.pos p)) as [q r] eqn:E.
  assert (Hq : q = Z.pos p * 2 ^ 53 / Z.pos p)
    by (unfold Z.div; rewrite E; reflexivity).
  assert (Hr : r = (Z.pos p * 2 ^ 53) mod Z.pos p)
    by (unfold Z.modulo; rewrite E; reflexivity).
  rewrite (Z.mul_comm (Z.pos p)), Z.div_mul in Hq by lia.
  rewrite (Z.mul_comm (Z.pos p)), Z.mod_mul in Hr by lia.
  subst q r.
  assert (Hloc : new_location (Z.pos p) 0 = loc_Exact).
  { unfold new_location, new_location_even, new_location_odd.
    destruct (Z.even (Z.pos p)); reflexivity. }
  rewrite Hloc. reflexivity.
Qed.

Lemma locate_axis_end num_colors width height (vertical : bool) (x y : Z) :
  1 <= width -> 1 <= height ->
  (if vertical then y = height - 1 /\ 1 < height
   else x = width - 1 /\ 1 < width) ->
  locate num_colors width height vertical x y = locate num_colors 2 2 true 0 1.
Proof.
  intros Hw Hh H. unfold locate. destruct vertical; destruct H as [-> Hlt].
  - replace (height >? 1) with true by (symmetry; apply Z.gtb_lt; lia).
    rewrite int_truediv_self by lia. reflexivity.
  - replace (width >? 1) with true by (symmetry; apply Z.gtb_lt; lia).
    rewrite int_truediv_self by lia. reflexivity.
Qed.

(** At the local position [1.0] the mix of two bytes is the second one:
    checked on each of the [256 * 256] pairs. *)
Lemma interpolate_full_table :
  forallb (fun a =>
             forallb (fun b =>
                        match interpolate a b lit_1_0 with
                        | Ok v => v =? b
                        | Raise _ => false
                        end)
                     (py_range 0 256))
          (py_range 0 256)
  = true.
Proof. vm_compute. reflexivity. Qed.

Lemma interpolate_at_one a b :
  byte a -> byte b -> interpolate a b lit_1_0 = Ok b.
Proof.
  intros Ha Hb. unfold byte in *.
  pose proof interpolate_full_table as H.
  rewrite forallb_forall in H.
  specialize (H a ltac:(apply py_range_In; lia)).
  rewrite forallb_forall in H.
  specialize (H b ltac:(apply py_range_In; lia)).
  destruct (interpolate a b lit_1_0) as [v|e]; [|discriminate].
  apply Z.eqb_eq in H. subst v. reflexivity.
Qed.

Lemma gradient_pixel_end colors width height (vertical : bool) (x y : Z) :
  Forall byte_color colors -> len colors = 2 \/ len colors = 3 ->
  1 <= width -> 1 <= height ->
  (if vertical then y = height - 1 /\ 1 < height
   else x = width - 1 /\ 1 < width) ->
  gradient_pixel colors width height vertical x y = py_getitem colors (-1).
Proof.
  intros Hbytes Hn Hw Hh Hend. unfold gradient_pixel.
  rewrite (@locate_axis_end (len colors) _ _ _ _ _ Hw Hh Hend).
  destruct colors as [|c0 [|c1 [|c2 [|c3 colors]]]];
    try (unfold len in Hn; simpl in Hn; lia).
  - change (locate (len [c0; c1]) 2 2 true 0 1) with (Ok (0, lit_1_0)).
    cbn [bind]. change (py_getitem [c0; c1] (-1)) with (Ok c1).
    change (blend [c0; c1] 0 lit_1_0)
      with (let '(r1, g1, b1) := c0 in
            let '(r2, g2, b2) := c1 in
            bind (interpolate r1 r2 lit_1_0) (fun r =>
            bind (interpolate g1 g2 lit_1_0) (fun g =>
            bind (interpolate b1 b2 lit_1_0) (fun b => Ok (r, g, b))))).
    inversion Hbytes as [|? ? Hb0 Hrest]; subst.
    inversion Hrest as [|? ? Hb1 _]; subst.
    destruct c0 as [[r0 g0] b0]. destruct c1 as [[r1 g1] b1].
    destruct Hb0 as (? & ? & ?). destruct Hb1 as (? & ? & ?).
    rewrite !interpolate_at_one by assumption. reflexivity.
  - change (locate (len [c0; c1; c2]) 2 2 true 0 1) with (Ok (1, lit_1_0)).
    cbn [bind]. change (py_getitem [c0; c1; c2] (-1)) with (Ok c2).
    change (blend [c0; c1; c2] 1 lit_1_0)
      with (let '(r1, g1, b1) := c1 in
            let '(r2, g2, b2) := c2 in
            bind (interpolate r1 r2 lit_1_0) (fun r =>
            bind (interpolate g1 g2 lit_1_0) (fun g =>
            bind (interpolate b1 b2 lit_1_0) (fun b => Ok (r, g, b))))).
    inversion Hbytes as [|? ? Hb0 Hrest]; subst.
    inversion Hrest as [|? ? Hb1 Hrest']; subst.
    inversion Hrest' as [|? ? Hb2 _]; subst.
    destruct c1 as [[r1 g1] b1]. destruct c2 as [[r2 g2] b2].
    destruct Hb1 as (? & ? & ?). destruct Hb2 as (? & ? & ?).
    rewrite !interpolate_at_one by assumption. reflexivity.
Qed.

Lemma create_gradient_end :
  forall (colors : list color) (width height : Z) (vertical : bool),
    Forall byte_color colors -> len colors = 2 \/ len colors = 3 ->
    1 <= width -> 1 <= height ->
    exists pixels,
      create_gradient colors width height vertical
      = Ok (Pixels width height pixels)
      /\ forall x y, 0 <= x < width -> 0 <= y < height ->
           (if vertical then y = height - 1 /\ 1 < height
            else x = width - 1 /\ 1 < width) ->
           py_getitem pixels (y * width + x) = py_getitem colors (-1).
Proof.
  intros colors width height vertical Hbytes Hn Hw Hh.
  assert (Hn' : 2 <= len colors <= 2 ^ 40)
    by (change (2 ^ 40) with 1099511627776; lia).
  destruct (@spec_buffer_byte colors width height vertical Hbytes Hn' Hw Hh)
    as (pixels & Hbuf & _).
  exists pixels. split.
  - unfold create_gradient.
    rewrite gradient_pixels_spec, Hbuf by (assumption || lia). reflexivity.
  - intros x y Hx Hy Hend.
    destruct (@spec_buffer_layout _ _ _ _ _ Hw Hh Hbuf) as [_ Hat].
    rewrite <- (Hat x y Hx Hy).
    rewrite <- gradient_pixel_spec by lia.
    apply gradient_pixel_end; assumption.
Qed.


(** A gradient of two or of three byte colours, the only lengths the
    bottom gradients have, ends with its last colour, exactly: along an
    axis of more than one pixel, every pixel of the last row of a vertical
    gradient, of the last column of a horizontal one, is [colors[-1]].
    Longer lists can miss their last colour by one: with eleven colours
    the local position of the last row is [0.9999999999999998], and the
    channels that go from 0 to 255 end at 254. *)
Theorem short_gradient_ends_at_last_colour :
  (forall (colors : list color) (width height : Z) (vertical : bool),
      Forall byte_color colors -> len colors = 2 \/ len colors = 3 ->
      1 <= width -> 1 <= height ->
      exists pixels,
        create_gradient colors width height vertical
        = Ok (Pixels width height pixels)
        /\ forall x y, 0 <= x < width -> 0 <= y < height ->
             (if vertical then y = height - 1 /\ 1 < height
              else x = width - 1 /\ 1 < width) ->
             py_getitem pixels (y * width + x) = py_getitem colors (-1))
  /\ create_gradient (repeat (0, 0, 0) 10 ++ [(255, 255, 255)]) 1 2 true
     = Ok (Pixels 1 2 [(0, 0, 0); (254, 254, 254)]).
Proof. split; [exact create_gradient_end | vm_compute; reflexivity]. Qed.

Lemma short_gradient_ends_at_last_colour_witness :
  exists pixels,
    create_gradient [(255, 0, 0); (0, 255, 0); (0, 0, 255)] 2 3 true
    = Ok (Pixels 2 3 pixels)
    /\ forall x y, 0 <= x < 2 -> 0 <= y < 3 -> y = 3 - 1 /\ 1 < 3 ->
         py_getitem pixels (y * 2 + x)
         = py_getitem [(255, 0, 0); (0, 255, 0); (0, 0, 255)] (-1).
Proof.
  destruct short_gradient_ends_at_last_colour as [H _].
  apply (H [(255, 0, 0); (0, 255, 0); (0, 0, 255)] 2 3 true).
  - repeat constructor; vm_compute; discriminate.
  - right. reflexivity.
  - lia.
  - lia.
Defined.

(** ** [create_gradient]: no colour at all, and the bands of a gradient *)

Lemma py_range_cons a b : a < b -> py_range a b = a :: py_range (a + 1) b.
Proof.
  intros H. rewrite (@py_range_app a (a + 1) b) by lia.
  rewrite py_range_single. reflexivity.
Qed.

Lemma gradient_pixels_empty width height vertical :
  1 <= width -> 1 <= height ->
  gradient_pixels [] width height vertical = Raise IndexError.
Proof.
  intros Hw Hh. unfold gradient_pixels. change (len [] =? 1) with false.
  cbv iota. rewrite (@py_range_cons 0 height) by lia. cbn [for_each].
  rewrite (@py_range_cons 0 width) by lia. cbn [for_each].
  assert (Hpix : gradient_pixel [] width height vertical 0 0 = Raise IndexError).
  { unfold gradient_pixel.
    rewrite (@locate_axis_start (len []) width height vertical 0 0 Hw Hh)
      by (destruct vertical; reflexivity).
    reflexivity. }
  rewrite Hpix. reflexivity.
Qed.

(** Without a colour there is no gradient: on the empty list, and for a
    width and a height of at least one, [create_gradient] raises the
    [IndexError] of [colors[segment]] at its first pixel. *)
Theorem gradient_of_no_colour_raises :
  forall (width height : Z) (vertical : bool),
    1 <= width -> 1 <= height ->
    create_gradient [] width height vertical = Raise IndexError.
Proof.
  intros width height vertical Hw Hh. unfold create_gradient.
  rewrite gradient_pixels_empty by assumption. reflexivity.
Qed.

Lemma gradient_of_no_colour_raises_witness :
  create_gradient [] 162 724 true = Raise IndexError.
Proof. apply (@gradient_of_no_colour_raises 162 724 true); lia. Defined.

Lemma py_getitem_repeat (A : Type) (a : A) n i :
  0 <= i < Z.of_nat n -> py_getitem (repeat a n) i = Ok a.
Proof.
  intros Hi.
  destruct (@py_getitem_Ok _ (repeat a n) i) as (a' & Hget & Hnth).
  - rewrite len_repeat. exact Hi.
  - rewrite Hget. f_equal. apply nth_error_In in Hnth.
    apply repeat_spec in Hnth. exact Hnth.
Qed.

Lemma spec_pixel_axis colors width height (vertical : bool) (x y x' y' : Z) :
  (if vertical then y = y' else x = x') ->
  spec_pixel colors width height vertical x y
  = spec_pixel colors width height vertical x' y'.
Proof. intros H. unfold spec_pixel. destruct vertical; subst; reflexivity. Qed.

(** The colour of a pixel depends on its coordinate along the axis of the
    gradient only: whatever the colours, in the buffer [create_gradient]
    returns the pixels of a row of a vertical gradient are equal, and so
    are the pixels of a column of a horizontal one. *)
Theorem gradient_is_made_of_bands :
  forall (colors : list color) (width height : Z) (vertical : bool)
         (pixels : list color),
    1 <= width -> 1 <= height ->
    create_gradient colors width height vertical
    = Ok (Pixels width height pixels) ->
    forall x y x' y',
      0 <= x < width -> 0 <= y < height ->
      0 <= x' < width -> 0 <= y' < height ->
      (if vertical then y = y' else x = x') ->
      py_getitem pixels (y * width + x) = py_getitem pixels (y' * width + x').
Proof.
  intros colors width height vertical pixels Hw Hh H x y x' y' Hx Hy Hx' Hy' Hax.
  unfold create_gradient in H. apply bind_Ok in H.
  destruct H as (pixels' & Hpix & H). inversion H; subst pixels'. clear H.
  destruct colors as [|c0 [|c1 colors]].
  - rewrite gradient_pixels_empty in Hpix by assumption. discriminate.
  - rewrite gradient_pixels_single in Hpix. inversion Hpix; subst pixels.
    rewrite !py_getitem_repeat by nia. reflexivity.
  - rewrite gradient_pixels_spec in Hpix
      by (assumption || (unfold len; simpl List.length; lia)).
    destruct (@spec_buffer_layout _ _ _ _ _ Hw Hh Hpix) as [_ Hat].
    rewrite <- (Hat x y Hx Hy), <- (Hat x' y' Hx' Hy').
    apply spec_pixel_axis. exact Hax.
Qed.

Lemma gradient_is_made_of_bands_witness :
  py_getitem [(255, 0, 0); (255, 0, 0); (255, 0, 0);
              (0, 0, 255); (0, 0, 255); (0, 0, 255)] (1 * 3 + 0)
  = py_getitem [(255, 0, 0); (255, 0, 0); (255, 0, 0);
                (0, 0, 255); (0, 0, 255); (0, 0, 255)] (1 * 3 + 2).
Proof.
  apply (@gradient_is_made_of_bands [(255, 0, 0); (0, 0, 255)] 3 2 true
           [(255, 0, 0); (255, 0, 0); (255, 0, 0);
            (0, 0, 255); (0, 0, 255); (0, 0, 255)]).
  - lia.
  - lia.
  - vm_compute. reflexivity.
  - lia.
  - lia.
  - lia.
  - lia.
  - reflexivity.
Defined.

(** ** The layout of the colour grid *)

(** The quotient of a multiple of [b] by [b] is computed exactly. *)
Lemma div_core_multiple b c :
  0 < b -> 0 < c ->
  exists s, 0 <= s
            /\ SFdiv_core_binary prec emax (b * c) 0 b 0
               = (c * 2 ^ s, - s, loc_Exact).
Proof.
  intros Hb Hc. unfold SFdiv_core_binary. rewrite fexp64_eq.
  set (e' := Z.min (fexp64 (Zdigits2 (b * c) + 0 - (Zdigits2 b + 0))) (0 - 0)).
  set (s := 0 - 0 - e').
  assert (Hs : 0 <= s) by (unfold s, e'; lia).
  exists s. split; [exact Hs|].
  rewrite (@shift_match (b * c) s Hs).
  destruct (Z.div_eucl (b * c * 2 ^ s) b) as [q r] eqn:E.
  assert (Hq : q = b * c * 2 ^ s / b)
    by (unfold Z.div; rewrite E; reflexivity).
  assert (Hr : r = (b * c * 2 ^ s) mod b)
    by (unfold Z.modulo; rewrite E; reflexivity).
  replace (b * c * 2 ^ s) with (c * 2 ^ s * b) in Hq, Hr by ring.
  rewrite Z.div_mul in Hq by lia. rewrite Z.mod_mul in Hr by lia.
  subst q r. replace e' with (- s) by (unfold s; lia).
  assert (Hloc : new_location b 0 = loc_Exact).
  { unfold new_location, new_location_even, new_location_odd.
    destruct (Z.even b); reflexivity. }
  rewrite Hloc. reflexivity.
Qed.

Lemma int_truediv_multiple b c :
  0 < b -> 0 < c < 2 ^ 53 ->
  exists z, int_truediv (b * c) b = Ok z /\ ok_float z /\ F2R z = IZR c.
Proof.
  intros Hb [Hc Hc53].
  destruct (@div_core_multiple b c Hb Hc) as (s & Hs & Hcore).
  pose proof (@div_core_spec (b * c) 0 b 0 ltac:(nia) Hb) as Hspec.
  rewrite Hcore in Hspec. destruct Hspec as (Hq & He' & _).
  assert (Hval : (IZR (c * 2 ^ s) * bpow (- s) = IZR c)%R).
  { rewrite mult_IZR, <- bpow_IZR by exact Hs.
    rewrite Rmult_assoc, <- bpow_add.
    replace (s + - s) with 0 by lia. unfold bpow. simpl. lra. }
  destruct (@binary_round_aux_R false (c * 2 ^ s) (- s) loc_Exact (IZR c))
    as (a & Hok & HF & _ & _ & _ & Hexact).
  - exact Hq.
  - exact He'.
  - rewrite Rmult_plus_distr_r, Hval.
    pose proof (bpow_pos (- s)). lra.
  - apply Rle_lt_trans with (Rabs (IZR c)); [apply Rle_abs|].
    apply below_max. rewrite Rabs_right by (apply Rle_ge, IZR_le; lia).
    apply Rle_trans with (IZR (2 ^ 53)); [apply IZR_le; lia|].
    change (2 ^ 53) with 9007199254740992. lra.
  - assert (Hex : a = (IZR (c * 2 ^ s) * bpow (- s))%R).
    { apply Hexact; [reflexivity|].
      rewrite mul_pow2_digits in * by lia.
      replace (Zdigits2 c + s + - s) with (Zdigits2 c) in * by lia.
      assert (Hd : Zdigits2 c <= 53).
      { pose proof (Zdigits2_bounds Hc) as [Hlo _].
        assert (H : 2 ^ (Zdigits2 c - 1) < 2 ^ 53) by lia.
        apply pow2_lt_inv in H; lia. }
      set (t := fexp64 (Zdigits2 c) - - s) in *.
      assert (Ht : 0 <= t <= s) by (unfold t, fexp64 in *; lia).
      replace s with (s - t + t) at 1 by lia.
      rewrite pow2_split by lia. rewrite Z.mul_assoc. apply Z.mod_mul.
      pose proof (@pow2_pos t ltac:(lia)). lia. }
    unfold int_truediv.
    replace (b =? 0) with false by (symmetry; apply Z.eqb_neq; lia).
    destruct b as [|pb|pb]; try lia.
    destruct (Z.pos pb * c) as [|pa|pa] eqn:Ea; try lia.
    simpl exact_int. simpl SFdiv. rewrite Hcore. simpl xorb.
    rewrite (ok_not_infinity _ Hok).
    eexists. split; [reflexivity|]. split; [exact Hok|].
    rewrite HF, Hex. exact Hval.
Qed.

(** The number of rows, which the script computes in floating point, is
    the exact ceiling of the quotient. *)
Lemma grid_rows_exact n :
  1 <= n <= 2 ^ 40 ->
  grid_rows n = Ok ((n + grid_cols n - 1) / grid_cols n).
Proof.
  intros [Hlo Hhi]. change (2 ^ 40) with 1099511627776 in Hhi.
  unfold grid_rows, grid_cols. rewrite max_cols_value.
  destruct (Z.geb_spec (Z.min 19 n) n) as [Hone|Hmany].
  - f_equal. apply Z.div_unique with (n - 1); lia.
  - replace (Z.min 19 n) with 19 by lia.
    pose proof (Z.div_mod n 19 ltac:(lia)) as Hdm.
    pose proof (Z.mod_pos_bound n 19 ltac:(lia)) as Hr.
    set (a := n / 19) in *. set (r := n mod 19) in *.
    assert (Ha : 1 <= a) by lia.
    destruct (Z.eq_dec r 0) as [Hz|Hnz].
    + replace n with (19 * a) by lia.
      destruct (@int_truediv_multiple 19 a) as (z & Hz1 & Hok & Hval);
        [lia | change (2 ^ 53) with 9007199254740992; lia|].
      rewrite Hz1. cbn [bind].
      destruct (@math_ceil_spec z Hok) as (k & Hk & Hk1 & Hk2).
      rewrite Hk. f_equal. rewrite Hval in Hk1, Hk2.
      apply le_IZR in Hk1. rewrite <- plus_IZR in Hk2. apply lt_IZR in Hk2.
      assert (k = a) by lia. subst k.
      apply Z.div_unique with 18; lia.
    + assert (HnR : IZR n = (19 * IZR a + IZR r)%R).
      { rewrite Hdm at 1. rewrite plus_IZR, mult_IZR. reflexivity. }
      assert (HrR : (1 <= IZR r <= 18)%R) by (split; apply IZR_le; lia).
      assert (HaR : (1 <= IZR a)%R) by (apply IZR_le; lia).
      assert (HnB : (IZR n <= 1099511627776)%R) by (apply IZR_le; lia).
      destruct (@int_truediv_spec n 19) as (z & Hz1 & Hok & Herr & _).
      * lia.
      * apply below_max. rewrite Rabs_right; lra.
      * rewrite Hz1. cbn [bind].
        destruct (@math_ceil_spec z Hok) as (k & Hk & Hk1 & Hk2).
        rewrite Hk. f_equal.
        assert (HB : (Rabs (IZR n / 19) <= 1099511627776)%R)
          by (rewrite Rabs_right; lra).
        pose proof (@rnd_bounds_abs _ _ _ Herr HB) as [Hzlo Hzhi].
        pose proof eta_tiny as [_ Heta].
        assert (Hza : (IZR a < F2R z < IZR a + 1)%R)
          by (unfold eps, tiny in *; lra).
        assert (Hk3 : (IZR a < IZR k)%R) by lra.
        assert (Hk4 : (IZR k < IZR (a + 2))%R) by (rewrite plus_IZR; lra).
        apply lt_IZR in Hk3. apply lt_IZR in Hk4.
        assert (k = a + 1) by lia. subst k.
        apply Z.div_unique with (r - 1); lia.
Qed.

Lemma square_x_formula n i :
  square_x n i
  = square_col n i * square_width n
    + Z.min (square_col n i) (remaining_width_per_row n).
Proof.
  unfold square_x.
  destruct (Z.ltb_spec (square_col n i) (remaining_width_per_row n)); lia.
Qed.

Lemma current_square_width_formula n i :
  current_square_width n i
  = square_width n
    + (Z.min (square_col n i + 1) (remaining_width_per_row n)
       - Z.min (square_col n i) (remaining_width_per_row n)).
Proof.
  unfold current_square_width.
  destruct (Z.ltb_spec (square_col n i) (remaining_width_per_row n)); lia.
Qed.

Lemma square_width_pos n : 1 <= n -> 102 <= square_width n.
Proof.
  intros Hn. unfold square_width. rewrite total_gradient_width_value.
  pose proof (grid_cols_bounds Hn) as Hc.
  rewrite grid_cols_min, max_cols_value in *.
  apply Z.div_le_lower_bound; lia.
Qed.

Lemma grid_rows_bounds n :
  1 <= n ->
  ((n + grid_cols n - 1) / grid_cols n - 1) * grid_cols n < n
  /\ n <= (n + grid_cols n - 1) / grid_cols n * grid_cols n.
Proof.
  intros Hn. pose proof (grid_cols_bounds Hn) as Hcols.
  pose proof (Z.div_mod (n + grid_cols n - 1) (grid_cols n) ltac:(lia)) as Hdm.
  pose proof (Z.mod_pos_bound (n + grid_cols n - 1) (grid_cols n) ltac:(lia)).
  nia.
Qed.

Lemma square_height_exact n :
  1 <= n <= 2 ^ 40 ->
  square_height n
  = Ok (Z.min (square_width n)
              (gradient_start_y / ((n + grid_cols n - 1) / grid_cols n))).
Proof.
  intros Hn. unfold square_height. rewrite grid_rows_exact by exact Hn.
  cbn [bind]. unfold py_floordiv.
  pose proof (@grid_rows_bounds n ltac:(lia)) as Hr.
  pose proof (@grid_cols_bounds n ltac:(lia)) as Hc.
  replace ((n + grid_cols n - 1) / grid_cols n =? 0) with false
    by (symmetry; apply Z.eqb_neq; nia).
  reflexivity.
Qed.

Lemma square_in_band n i :
  1 <= n -> 0 <= i < n ->
  0 <= Z.min (square_width n)
             (gradient_start_y / ((n + grid_cols n - 1) / grid_cols n))
  /\ 0 <= square_x n i
  /\ square_x n i + current_square_width n i <= total_gradient_width
  /\ 0 <= square_row n i
          * Z.min (square_width n)
                  (gradient_start_y / ((n + grid_cols n - 1) / grid_cols n))
  /\ square_row n i
     * Z.min (square_width n)
             (gradient_start_y / ((n + grid_cols n - 1) / grid_cols n))
     + Z.min (square_width n)
             (gradient_start_y / ((n + grid_cols n - 1) / grid_cols n))
     <= gradient_start_y.
Proof.
  intros Hn Hi.
  pose proof (grid_cols_bounds Hn) as Hcols.
  pose proof (grid_division Hn) as [Hdiv Hrem].
  pose proof (square_width_pos Hn) as Hsw.
  pose proof (grid_rows_bounds Hn) as Hrows.
  set (rows := (n + grid_cols n - 1) / grid_cols n) in *.
  assert (Hrows1 : 1 <= rows) by nia.
  assert (Hq : 0 <= gradient_start_y / rows)
    by (apply Z.div_pos; unfold gradient_start_y; lia).
  assert (Hq600 : rows * (gradient_start_y / rows) <= gradient_start_y)
    by (apply Z.mul_div_le; lia).
  pose proof (@square_col_bounds n i Hn) as Hcol.
  rewrite current_square_width_formula, square_x_formula.
  assert (Hrow : 0 <= square_row n i <= rows - 1).
  { unfold square_row. split; [apply Z.div_pos; lia|].
    assert (i / grid_cols n < rows); [|lia].
    apply Z.div_lt_upper_bound; lia. }
  split; [lia|]. split; [nia|]. split; [nia|]. split; [nia|]. nia.
Qed.

(** For a palette of [n] colours, [1 <= n <= 2^40], the number of rows of
    the grid is the exact ceiling of [n / grid_cols], although the script
    computes it in floating point.  The squares have a positive height as
    long as the rows are not more than [gradient_start_y], that is up to
    11400 colours, and the height 0 beyond.  Every square of the palette
    lies in the band the script reserves for the grid: from 0 to
    [total_gradient_width] across and from 0 to [gradient_start_y]
    down. *)
Theorem squares_fit_the_top_band :
  forall n, 1 <= n <= 2 ^ 40 ->
    exists rows sq_height,
      grid_rows n = Ok rows /\ square_height n = Ok sq_height
      /\ (rows - 1) * grid_cols n < n <= rows * grid_cols n
      /\ sq_height = Z.min (square_width n) (gradient_start_y / rows)
      /\ (0 < sq_height <-> n <= 11400)
      /\ forall i, 0 <= i < n ->
           0 <= square_x n i
           /\ square_x n i + current_square_width n i <= total_gradient_width
           /\ 0 <= square_row n i * sq_height
           /\ square_row n i * sq_height + sq_height <= gradient_start_y.
Proof.
  intros n Hn. assert (Hn1 : 1 <= n) by lia.
  pose proof (grid_cols_bounds Hn1) as Hcols.
  pose proof (grid_division Hn1) as [Hdiv Hrem].
  pose proof (square_width_pos Hn1) as Hsw.
  set (rows := (n + grid_cols n - 1) / grid_cols n).
  assert (Hrows : (rows - 1) * grid_cols n < n <= rows * grid_cols n).
  { pose proof (Z.div_mod (n + grid_cols n - 1) (grid_cols n) ltac:(lia)) as Hdm.
    pose proof (Z.mod_pos_bound (n + grid_cols n - 1) (grid_cols n) ltac:(lia)).
    fold rows in Hdm. nia. }
  assert (Hrows1 : 1 <= rows) by nia.
  exists rows, (Z.min (square_width n) (gradient_start_y / rows)).
  assert (Hq : 0 <= gradient_start_y / rows)
    by (apply Z.div_pos; unfold gradient_start_y; lia).
  assert (Hq600 : rows * (gradient_start_y / rows) <= gradient_start_y)
    by (apply Z.mul_div_le; lia).
  split; [apply grid_rows_exact; exact Hn|].
  split.
  { unfold square_height. rewrite grid_rows_exact by exact Hn. fold rows.
    cbn [bind]. unfold py_floordiv.
    replace (rows =? 0) with false by (symmetry; apply Z.eqb_neq; lia).
    reflexivity. }
  split; [exact Hrows|]. split; [reflexivity|]. split.
  { rewrite grid_cols_min, max_cols_value in *.
    unfold gradient_start_y in *. split.
    - intros Hpos.
      assert (H1 : 1 <= 600 / rows) by lia.
      assert (rows <= 600) by nia. lia.
    - intros Hsmall. assert (Hr600 : rows <= 600) by lia.
      assert (1 <= 600 / rows) by (apply Z.div_le_lower_bound; lia). lia. }
  intros i Hi.
  pose proof (@square_col_bounds n i Hn1) as Hcol.
  rewrite current_square_width_formula, square_x_formula.
  assert (Hrow : 0 <= square_row n i <= rows - 1).
  { unfold square_row. split; [apply Z.div_pos; lia|].
    assert (i / grid_cols n < rows); [|lia].
    apply Z.div_lt_upper_bound; lia. }
  split; [nia|]. split; [nia|]. split; [nia|]. nia.
Qed.

Lemma squares_fit_the_top_band_witness :
  exists rows sq_height,
    grid_rows 38 = Ok rows /\ square_height 38 = Ok sq_height
    /\ (rows - 1) * grid_cols 38 < 38 <= rows * grid_cols 38
    /\ sq_height = Z.min (square_width 38) (gradient_start_y / rows)
    /\ (0 < sq_height <-> 38 <= 11400)
    /\ forall i, 0 <= i < 38 ->
         0 <= square_x 38 i
         /\ square_x 38 i + current_square_width 38 i <= total_gradient_width
         /\ 0 <= square_row 38 i * sq_height
         /\ square_row 38 i * sq_height + sq_height <= gradient_start_y.
Proof.
  apply (@squares_fit_the_top_band 38). vm_compute. split; discriminate.
Defined.

Lemma square_rows_apart :
  forall n i j sq_height,
    1 <= n -> 0 <= i < j -> 0 <= sq_height ->
    (square_row n i = square_row n j
     /\ square_x n i + current_square_width n i <= square_x n j)
    \/ square_row n i * sq_height + sq_height <= square_row n j * sq_height.
Proof.
  intros n i j sq_height Hn Hij Hsh.
  pose proof (grid_cols_bounds Hn) as Hcols.
  pose proof (grid_division Hn) as [Hdiv Hrem].
  pose proof (square_width_pos Hn) as Hsw.
  pose proof (@square_col_bounds n i Hn) as Hci.
  pose proof (@square_col_bounds n j Hn) as Hcj.
  pose proof (Z.div_mod i (grid_cols n) ltac:(lia)) as Hdi.
  pose proof (Z.div_mod j (grid_cols n) ltac:(lia)) as Hdj.
  assert (Hmono : i / grid_cols n <= j / grid_cols n)
    by (apply Z.div_le_mono; lia).
  unfold square_row.
  destruct (Z.eq_dec (i / grid_cols n) (j / grid_cols n)) as [Heq|Hne].
  - left. split; [exact Heq|].
    rewrite current_square_width_formula, !square_x_formula.
    unfold square_col in *. rewrite Heq in Hdi.
    assert (Hlt : i mod grid_cols n + 1 <= j mod grid_cols n) by lia.
    nia.
  - right. nia.
Qed.


(** Two squares of the grid never overlap, whatever the height of the
    squares: in the same row the earlier square ends where or before the
    later one begins, and a later row begins where or after the earlier
    row ends. *)
Theorem squares_do_not_overlap :
  forall n i j sq_height,
    1 <= n -> 0 <= i < j -> 0 <= sq_height ->
    (square_row n i = square_row n j
     /\ square_x n i + current_square_width n i <= square_x n j)
    \/ square_row n i * sq_height + sq_height <= square_row n j * sq_height.
Proof. exact square_rows_apart. Qed.

Lemma squares_do_not_overlap_witness :
  (square_row 38 3 = square_row 38 21
   /\ square_x 38 3 + current_square_width 38 3 <= square_x 38 21)
  \/ square_row 38 3 * 102 + 102 <= square_row 38 21 * 102.
Proof. apply (@squares_do_not_overlap 38 3 21 102); lia. Defined.

(** ** The canvas of a completed run *)

(** An image [create_gradient] returns has the size asked for and a
    buffer of as many pixels. *)
Lemma create_gradient_size colors width height vertical img :
  1 <= width -> 1 <= height ->
  create_gradient colors width height vertical = Ok img ->
  exists pixels,
    img = Pixels width height pixels /\ len pixels = width * height.
Proof.
  intros Hw Hh H. unfold create_gradient in H. apply bind_Ok in H.
  destruct H as (pixels & Hpix & H). inversion H; subst img. clear H.
  exists pixels. split; [reflexivity|].
  destruct colors as [|c0 [|c1 colors]].
  - rewrite gradient_pixels_empty in Hpix by assumption. discriminate.
  - rewrite gradient_pixels_single in Hpix. inversion Hpix; subst pixels.
    rewrite len_repeat. nia.
  - rewrite gradient_pixels_spec in Hpix
      by (assumption || (unfold len; simpl List.length; lia)).
    apply (@spec_buffer_layout _ _ _ _ _ Hw Hh Hpix).
Qed.

Lemma draw_squares_pastes n sq_height l cv :
  fold_left (fun cv entry => draw_square n sq_height entry cv) l cv
  = Canvas (background cv) (pastes cv ++ map (square_paste n sq_height) l).
Proof.
  revert cv; induction l as [|[i c] l IH]; intros cv; simpl.
  - rewrite app_nil_r. destruct cv; reflexivity.
  - rewrite IH. simpl. rewrite <- app_assoc. reflexivity.
Qed.

Lemma length_enumerate (A : Type) (l : list A) :
  List.length (enumerate l) = List.length l.
Proof.
  unfold enumerate. rewrite length_combine, py_range_length.
  unfold len. lia.
Qed.

Lemma length_cells (A B : Type) (f : Z * A -> B) a b (ds : list A) :
  List.length (map f (combine (py_range a b) ds))
  = Nat.min (Z.to_nat (b - a)) (List.length ds).
Proof. rewrite length_map, length_combine, py_range_length. reflexivity. Qed.

(** A loop whose body pastes one image per turn. *)
Lemma loop_pastes (S' : Type)
  (body : Z -> canvas * S' -> result (canvas * S'))
  (mk : Z -> list color -> paste) (Q : list color -> Prop) :
  (forall i st st', body i st = Ok st' ->
     exists d, Q d
       /\ fst st' = Canvas (background (fst st)) (pastes (fst st) ++ [mk i d])) ->
  forall l st st', for_each l body st = Ok st' ->
    exists ds, List.length ds = List.length l /\ Forall Q ds
      /\ fst st' = Canvas (background (fst st))
                     (pastes (fst st)
                      ++ map (fun e => mk (fst e) (snd e)) (combine l ds)).
Proof.
  intros Hbody. induction l as [|i l IH]; intros st st' H; simpl in H.
  - inversion H; subst st'. exists []. split; [reflexivity|].
    split; [constructor|]. simpl. rewrite app_nil_r.
    destruct (fst st); reflexivity.
  - apply bind_Ok in H. destruct H as (st1 & H1 & H).
    destruct (Hbody _ _ _ H1) as (d & Hd & Hst1).
    destruct (IH _ _ H) as (ds & Hlen & HQ & Hst').
    exists (d :: ds). split; [simpl; f_equal; exact Hlen|].
    split; [constructor; assumption|].
    rewrite Hst', Hst1. simpl. rewrite <- app_assoc. reflexivity.
Qed.

Section Atlas.

Variable rng : Type.
Variable random_choice : list color -> rng -> color * rng.
Variable random_randint : Z -> Z -> rng -> Z * rng.
Variable random_sample : list color -> Z -> rng -> list color * rng.

Lemma neighbor_gradient_pastes rgb_colors i st st' :
  neighbor_gradient random_choice random_randint rgb_colors i st = Ok st' ->
  exists d, len d = gradient_width * gradient_height
    /\ fst st' = Canvas (background (fst st))
                   (pastes (fst st) ++ [gradient_cell (i + 1) 0 d]).
Proof.
  unfold neighbor_gradient. destruct st as [cv g].
  destruct (random_choice rgb_colors g) as [start_color g1].
  destruct (random_randint 1 3 g1) as [max_neighbors g2].
  destruct (random_randint 2 4 g2) as [min_distance g3].
  intros H. apply bind_Ok in H. destruct H as (neighbors & _ & H).
  destruct (if is_empty neighbors then ([start_color], g3)
            else let '(k, g) := random_randint 1 (Z.min 2 (len neighbors)) g3 in
                 (start_color :: slice_to neighbors k, g)) as [gradient_colors g4].
  apply bind_Ok in H. destruct H as (gradient & Hg & H).
  apply create_gradient_size in Hg; [|vm_compute; discriminate..].
  destruct Hg as (d & -> & Hd).
  inversion H; subst st'. exists d. split; [exact Hd | reflexivity].
Qed.

Lemma random_gradient_pastes rgb_colors i st st' :
  random_gradient random_randint random_sample rgb_colors i st = Ok st' ->
  exists d, len d = gradient_width * gradient_height
    /\ fst st' = Canvas (background (fst st))
                   (pastes (fst st) ++ [gradient_cell i 1 d]).
Proof.
  unfold random_gradient. destruct st as [cv g].
  destruct (random_randint 2 3 g) as [num_random_colors g1].
  destruct (random_sample rgb_colors (Z.min num_random_colors (len rgb_colors)) g1)
    as [gradient_colors g2].
  intros H. apply bind_Ok in H. destruct H as (gradient & Hg & H).
  apply create_gradient_size in Hg; [|vm_compute; discriminate..].
  destruct Hg as (d & -> & Hd).
  inversion H; subst st'. exists d. split; [exact Hd | reflexivity].
Qed.

Lemma compose_atlas_pastes rgb_colors g cv g' :
  compose_atlas random_choice random_randint random_sample rgb_colors g
  = Ok (cv, g') ->
  exists sq_height main first row1 row2,
    square_height (len rgb_colors) = Ok sq_height
    /\ len main = actual_main_gradient_width * canvas_size
    /\ Forall (fun d => len d = gradient_width * gradient_height)
              (first :: row1 ++ row2)
    /\ len row1 = num_gradients /\ len row2 = num_gradients + 1
    /\ background cv = Solid canvas_size canvas_size (255, 255, 255)
    /\ pastes cv
       = map (square_paste (len rgb_colors) sq_height) (enumerate rgb_colors)
         ++ Paste (Pixels actual_main_gradient_width canvas_size main)
                  total_gradient_width 0
         :: gradient_cell 0 0 first
         :: map (fun e => gradient_cell (fst e + 1) 0 (snd e))
                (combine (py_range 0 num_gradients) row1)
         ++ map (fun e => gradient_cell (fst e) 1 (snd e))
                (combine (py_range 0 (num_gradients + 1)) row2).
Proof.
  unfold compose_atlas. intros H.
  apply bind_Ok in H. destruct H as (sq_height & Hsq & H).
  apply bind_Ok in H. destruct H as (main_gradient & Hmain & H).
  apply create_gradient_size in Hmain; [|vm_compute; discriminate..].
  destruct Hmain as (main & -> & Hmainlen).
  apply bind_Ok in H. destruct H as ([darkest lightest] & _ & H).
  apply bind_Ok in H. destruct H as (first_gradient & Hfirst & H).
  apply create_gradient_size in Hfirst; [|vm_compute; discriminate..].
  destruct Hfirst as (first & -> & Hfirstlen).
  apply bind_Ok in H. destruct H as (st & Hrow1 & Hrow2).
  destruct (@loop_pastes rng _
              (fun i d => gradient_cell (i + 1) 0 d)
              (fun d => len d = gradient_width * gradient_height)
              (fun i st st' => @neighbor_gradient_pastes rgb_colors i st st')
              _ _ _ Hrow1) as (row1 & Hlen1 & HQ1 & Hst).
  destruct (@loop_pastes rng _
              (fun i d => gradient_cell i 1 d)
              (fun d => len d = gradient_width * gradient_height)
              (fun i st st' => @random_gradient_pastes rgb_colors i st st')
              _ _ _ Hrow2) as (row2 & Hlen2 & HQ2 & Hcv).
  exists sq_height, main, first, row1, row2.
  split; [exact Hsq|]. split; [exact Hmainlen|].
  split; [constructor; [exact Hfirstlen | apply Forall_app; split; assumption]|].
  split; [unfold len; rewrite Hlen1, py_range_length; reflexivity|].
  split; [unfold len; rewrite Hlen2, py_range_length; reflexivity|].
  simpl fst in Hcv. rewrite Hcv, Hst. simpl fst.
  rewrite draw_squares_pastes. simpl background. simpl pastes.
  split; [reflexivity|].
  unfold canvas_paste. simpl pastes.
  rewrite <- !app_assoc. reflexivity.
Qed.

(** A canvas the script completes is the white canvas with these pastes
    on it, in this order: one square for each colour of the palette, in
    the order of the palette; the main gradient; the first gradient and
    the eleven gradients of neighbours, which are the first row of a table
    of cells of [gradient_width] by [gradient_height] pixels; the twelve
    random gradients, its second row.  Every gradient image has as many
    pixels as its size says, and the pastes are [len(rgb_colors) + 25]. *)
Theorem atlas_is_squares_then_gradients :
  forall (rgb_colors : list color) (g : rng) (cv : canvas) (g' : rng),
    compose_atlas random_choice random_randint random_sample rgb_colors g
    = Ok (cv, g') ->
    (exists sq_height main first row1 row2,
        square_height (len rgb_colors) = Ok sq_height
        /\ len main = actual_main_gradient_width * canvas_size
        /\ Forall (fun d => len d = gradient_width * gradient_height)
                  (first :: row1 ++ row2)
        /\ len row1 = num_gradients /\ len row2 = num_gradients + 1
        /\ background cv = Solid canvas_size canvas_size (255, 255, 255)
        /\ pastes cv
           = map (square_paste (len rgb_colors) sq_height)
                 (enumerate rgb_colors)
             ++ Paste (Pixels actual_main_gradient_width canvas_size main)
                      total_gradient_width 0
             :: gradient_cell 0 0 first
             :: map (fun e => gradient_cell (fst e + 1) 0 (snd e))
                    (combine (py_range 0 num_gradients) row1)
             ++ map (fun e => gradient_cell (fst e) 1 (snd e))
                    (combine (py_range 0 (num_gradients + 1)) row2))
    /\ len (pastes cv) = len rgb_colors + 25.
Proof.
  intros rgb_colors g cv g' H.
  pose proof (@compose_atlas_pastes _ _ _ _ H) as Hp.
  split; [exact Hp|].
  destruct Hp as (sq & main & first & row1 & row2 & _ & _ & _ & H1 & H2 & _ & ->).
  unfold len in *.
  rewrite length_app, length_map, length_enumerate. cbn [List.length].
  rewrite length_app, !length_cells. change num_gradients with 11 in *. lia.
Qed.

End Atlas.

(** ** A run on well-formed palettes *)

Lemma create_gradient_total colors width height vertical :
  colors <> [] -> Forall byte_color colors -> len colors <= 2 ^ 40 ->
  1 <= width -> 1 <= height ->
  exists img, create_gradient colors width height vertical = Ok img.
Proof.
  intros Hne Hbytes Hlen Hw Hh. unfold create_gradient.
  destruct colors as [|c0 [|c1 colors]]; [contradiction| |].
  - rewrite gradient_pixels_single. eexists; reflexivity.
  - rewrite gradient_pixels_spec
      by (assumption || (unfold len; simpl List.length; lia)).
    destruct (@spec_buffer_byte (c0 :: c1 :: colors) width height vertical)
      as (pixels & -> & _); try assumption.
    + split; [unfold len; simpl List.length; lia | exact Hlen].
    + eexists; reflexivity.
Qed.

Lemma incl_firstn (A : Type) n (l : list A) : incl (firstn n l) l.
Proof.
  intros x Hx. rewrite <- (firstn_skipn n l). apply in_or_app. left; exact Hx.
Qed.

Lemma incl_skipn (A : Type) n (l : list A) : incl (skipn n l) l.
Proof.
  intros x Hx. rewrite <- (firstn_skipn n l). apply in_or_app. right; exact Hx.
Qed.

Lemma find_neighbors_total target_color colors max_neighbors min_distance :
  0 <= max_neighbors -> 0 <= min_distance ->
  byte_color target_color -> Forall byte_color colors ->
  exists selected,
    find_neighbors target_color colors max_neighbors min_distance = Ok selected
    /\ incl selected colors
    /\ len selected <= max_neighbors.
Proof.
  intros Hmax Hmin Ht Hc. rewrite find_neighbors_slice by assumption.
  destruct (@sorted_distances_total target_color colors Ht Hc)
    as (distances & Hd).
  rewrite Hd. cbn [bind]. eexists. split; [reflexivity|].
  destruct (@sorted_distances_spec _ _ _ Hd) as (Hperm & _ & _).
  split.
  - intros c Hin. apply in_map_iff in Hin. destruct Hin as (e & <- & He).
    apply incl_firstn, incl_skipn in He.
    apply (candidates_In target_color colors).
    apply (Permutation_in _ Hperm). apply in_map. exact He.
  - unfold len. rewrite length_map.
    pose proof (firstn_le_length (Z.to_nat max_neighbors)
                  (skipn (Z.to_nat min_distance) distances)).
    rewrite length_firstn. lia.
Qed.

Lemma for_each_total (A S' : Type) (body : A -> S' -> result S') l s :
  (forall a s1, exists s2, body a s1 = Ok s2) ->
  exists s', for_each l body s = Ok s'.
Proof.
  intros Hbody. revert s. induction l as [|a l IH]; intros s; simpl.
  - eexists; reflexivity.
  - destruct (Hbody a s) as (s1 & ->). cbn [bind]. apply IH.
Qed.

Lemma hex_line_byte s :
  hex_line s -> exists c, hex_to_rgb s = Ok c /\ byte_color c.
Proof.
  intros (c0 & c1 & c2 & c3 & c4 & c5 & -> & Hd).
  repeat match goal with
         | H : Forall _ (_ :: _) |- _ => inversion H; subst; clear H
         end.
  destruct (hex_digit c0) as [d0|] eqn:E0; [|contradiction].
  destruct (hex_digit c1) as [d1|] eqn:E1; [|contradiction].
  destruct (hex_digit c2) as [d2|] eqn:E2; [|contradiction].
  destruct (hex_digit c3) as [d3|] eqn:E3; [|contradiction].
  destruct (hex_digit c4) as [d4|] eqn:E4; [|contradiction].
  destruct (hex_digit c5) as [d5|] eqn:E5; [|contradiction].
  eexists. apply (@hex_to_rgb_six_digits _ _ _ _ _ _ _ _ _ _ _ _ E0 E1 E2 E3 E4 E5).
Qed.

Lemma load_palette_well_formed lines :
  Forall hex_line (accepted_lines lines) ->
  exists colors,
    load_palette lines = Ok colors
    /\ len colors = len (accepted_lines lines)
    /\ Forall byte_color colors.
Proof.
  intros Hlines. unfold load_palette. rewrite Forall_forall in Hlines.
  destruct (mapM_total hex_to_rgb (accepted_lines lines)) as (colors & Hc).
  { intros s Hs. destruct (@hex_line_byte _ (Hlines s Hs)) as (c & Hc & _).
    exists c. exact Hc. }
  exists colors. split; [exact Hc|]. split.
  - unfold len. rewrite (@mapM_length _ _ _ _ _ Hc). reflexivity.
  - apply Forall_forall. intros c Hin.
    destruct (@mapM_In _ _ _ _ _ _ Hc Hin) as (s & Hs & Hsc).
    destruct (@hex_line_byte _ (Hlines s Hs)) as (c' & Hc' & Hb).
    rewrite Hsc in Hc'. inversion Hc'; subst. exact Hb.
Qed.

Lemma first_random_module : random_module first_choice lowest_int first_sample.
Proof.
  split; [|split].
  - intros [|c l] g Hne; [contradiction | left; reflexivity].
  - intros a b g H. simpl. lia.
  - intros l k g Hk. simpl. split.
    + unfold len in *. rewrite length_firstn. lia.
    + apply incl_firstn.
Qed.

Section Runs.

Variable rng : Type.
Variable random_choice : list color -> rng -> color * rng.
Variable random_randint : Z -> Z -> rng -> Z * rng.
Variable random_sample : list color -> Z -> rng -> list color * rng.
Hypothesis Hrandom : random_module random_choice random_randint random_sample.

Lemma neighbor_gradient_total rgb_colors i st :
  rgb_colors <> [] -> Forall byte_color rgb_colors ->
  exists st',
    neighbor_gradient random_choice random_randint rgb_colors i st = Ok st'.
Proof.
  intros Hne Hbytes. destruct Hrandom as (Hchoice & Hint & _).
  assert (Hin : forall c, In c rgb_colors -> byte_color c)
    by (apply Forall_forall; exact Hbytes).
  unfold neighbor_gradient. destruct st as [cv g].
  pose proof (Hchoice rgb_colors g Hne) as Hstart.
  destruct (random_choice rgb_colors g) as [start_color g1]. simpl in Hstart.
  pose proof (Hint 1 3 g1 ltac:(lia)) as Hmax.
  destruct (random_randint 1 3 g1) as [max_neighbors g2]. simpl in Hmax.
  pose proof (Hint 2 4 g2 ltac:(lia)) as Hmin.
  destruct (random_randint 2 4 g2) as [min_distance g3]. simpl in Hmin.
  destruct (@find_neighbors_total start_color rgb_colors max_neighbors
              min_distance)
    as (neighbors & -> & Hincl & Hlen); try lia; auto.
  cbn [bind].
  assert (Hgc : exists gc g4,
             (if is_empty neighbors then ([start_color], g3)
              else let '(k, g) :=
                     random_randint 1 (Z.min 2 (len neighbors)) g3 in
                   (start_color :: slice_to neighbors k, g)) = (gc, g4)
             /\ gc <> [] /\ Forall byte_color gc /\ len gc <= 2 ^ 40).
  { change (2 ^ 40) with 1099511627776.
    destruct neighbors as [|n0 ns] eqn:En.
    - exists [start_color], g3. split; [reflexivity|].
      split; [discriminate|]. split; [constructor; auto|].
      unfold len. simpl. lia.
    - rewrite <- En in *. replace (is_empty neighbors) with false
        by (rewrite En; reflexivity).
      assert (Hl1 : 1 <= len neighbors)
        by (rewrite En; unfold len; simpl List.length; lia).
      pose proof (Hint 1 (Z.min 2 (len neighbors)) g3 ltac:(lia)) as Hk.
      destruct (random_randint 1 (Z.min 2 (len neighbors)) g3) as [k g4].
      simpl in Hk.
      exists (start_color :: slice_to neighbors k), g4.
      split; [reflexivity|]. split; [discriminate|]. split.
      + constructor; [auto|]. apply Forall_forall. intros c Hc.
        apply Hin, Hincl. unfold slice_to in Hc.
        apply incl_firstn in Hc. exact Hc.
      + unfold len, slice_to. simpl List.length.
        replace (k <? 0) with false by (symmetry; apply Z.ltb_ge; lia).
        pose proof (firstn_le_length (Z.to_nat k) neighbors). lia. }
  destruct Hgc as (gc & g4 & -> & Hne' & Hb' & Hl').
  destruct (@create_gradient_total gc gradient_width gradient_height true
              Hne' Hb' Hl')
    as (img & Himg); [vm_compute; discriminate..|].
  rewrite Himg. cbn [bind]. eexists; reflexivity.
Qed.

Lemma random_gradient_total rgb_colors i st :
  rgb_colors <> [] -> Forall byte_color rgb_colors ->
  exists st',
    random_gradient random_randint random_sample rgb_colors i st = Ok st'.
Proof.
  intros Hne Hbytes. destruct Hrandom as (_ & Hint & Hsample).
  assert (Hin : forall c, In c rgb_colors -> byte_color c)
    by (apply Forall_forall; exact Hbytes).
  assert (Hl1 : 1 <= len rgb_colors).
  { destruct rgb_colors; [contradiction|]. unfold len. simpl List.length. lia. }
  unfold random_gradient. destruct st as [cv g].
  pose proof (Hint 2 3 g ltac:(lia)) as Hnum.
  destruct (random_randint 2 3 g) as [num_random_colors g1]. simpl in Hnum.
  pose proof (Hsample rgb_colors (Z.min num_random_colors (len rgb_colors)) g1
                ltac:(lia)) as [Hlen Hincl].
  destruct (random_sample rgb_colors
              (Z.min num_random_colors (len rgb_colors)) g1) as [gc g2].
  simpl in Hlen, Hincl.
  assert (Hgne : gc <> [])
    by (intros ->; unfold len in Hlen, Hl1; simpl in Hlen; lia).
  assert (Hgb : Forall byte_color gc)
    by (apply Forall_forall; intros c Hc; apply Hin, Hincl, Hc).
  assert (Hgl : len gc <= 2 ^ 40)
    by (change (2 ^ 40) with 1099511627776; lia).
  destruct (@create_gradient_total gc gradient_width gradient_height true
              Hgne Hgb Hgl)
    as (img & Himg); [vm_compute; discriminate..|].
  rewrite Himg. cbn [bind]. eexists; reflexivity.
Qed.

Lemma compose_atlas_total rgb_colors g :
  rgb_colors <> [] -> Forall byte_color rgb_colors ->
  len rgb_colors <= 2 ^ 40 ->
  exists cv g',
    compose_atlas random_choice random_randint random_sample rgb_colors g
    = Ok (cv, g').
Proof.
  intros Hne Hbytes Hlen.
  assert (Hl1 : 1 <= len rgb_colors).
  { destruct rgb_colors; [contradiction|]. unfold len. simpl List.length. lia. }
  unfold compose_atlas.
  rewrite square_height_exact by lia. cbn [bind].
  destruct (@create_gradient_total rgb_colors actual_main_gradient_width
              canvas_size true Hne Hbytes Hlen)
    as (main & Hmain); [vm_compute; discriminate..|].
  rewrite Hmain. cbn [bind].
  destruct (@get_lightest_darkest_spec rgb_colors Hne Hbytes)
    as (darkest & lightest & -> & (b1 & a1 & Hd & _) & (b2 & a2 & Hl & _)).
  cbn [bind].
  assert (Hin : forall c, In c rgb_colors -> byte_color c)
    by (apply Forall_forall; exact Hbytes).
  assert (Hbd : byte_color darkest).
  { apply Hin. rewrite Hd. apply in_or_app. right; left; reflexivity. }
  assert (Hbl : byte_color lightest).
  { apply Hin. rewrite Hl. apply in_or_app. right; left; reflexivity. }
  assert (Hpair : Forall byte_color [lightest; darkest])
    by (repeat constructor; assumption).
  destruct (@create_gradient_total [lightest; darkest] gradient_width
              gradient_height true ltac:(discriminate) Hpair)
    as (first & Hfirst); [vm_compute; discriminate..|].
  rewrite Hfirst. cbn [bind].
  match goal with
  | |- context [for_each (py_range 0 num_gradients) ?body ?s] =>
      destruct (@for_each_total _ _ body (py_range 0 num_gradients) s)
        as (st & ->)
  end.
  { intros i s1. apply neighbor_gradient_total; assumption. }
  cbn [bind].
  match goal with
  | |- context [for_each ?l ?body st] =>
      destruct (@for_each_total _ _ body l st) as ([cv g'] & ->)
  end.
  { intros i s1. apply random_gradient_total; assumption. }
  exists cv, g'. reflexivity.
Qed.

Lemma process_hex_file_well_formed path lines g :
  accepted_lines lines <> [] ->
  Forall hex_line (accepted_lines lines) ->
  len (accepted_lines lines) <= 2 ^ 40 ->
  exists rgb_colors cv g',
    load_palette lines = Ok rgb_colors
    /\ len rgb_colors = len (accepted_lines lines)
    /\ Forall byte_color rgb_colors
    /\ compose_atlas random_choice random_randint random_sample rgb_colors g
       = Ok (cv, g')
    /\ process_hex_file random_choice random_randint random_sample
         path lines g
       = ([Save (output_path path) cv;
           Print ("Created texture atlas: " ++ output_path path)%string],
          Ok g').
Proof.
  intros Hne Hlines Hlen.
  destruct (@load_palette_well_formed lines Hlines)
    as (rgb_colors & Hload & Hlc & Hbytes).
  assert (Hne' : rgb_colors <> []).
  { intros ->. destruct (accepted_lines lines); [contradiction|].
    unfold len in Hlc. simpl in Hlc. lia. }
  destruct (@compose_atlas_total rgb_colors g Hne' Hbytes ltac:(lia))
    as (cv & g' & Hcv).
  exists rgb_colors, cv, g'.
  split; [exact Hload|]. split; [exact Hlc|]. split; [exact Hbytes|].
  split; [exact Hcv|].
  unfold process_hex_file. rewrite Hload.
  destruct rgb_colors; [contradiction|]. cbn [is_empty]. rewrite Hcv.
  reflexivity.
Qed.

(** A palette file with at least one accepted line, whose accepted lines
    are all six hexadecimal digits, gives exactly one atlas: with a module
    [random] that keeps to its contract, [process_hex_file] raises
    nothing, loads one byte colour per accepted line, saves the canvas it
    composed under the output path and prints the line that names it. *)
Theorem well_formed_palette_gives_one_atlas :
  forall (path : string) (lines : list string) (g : rng),
    accepted_lines lines <> [] ->
    Forall hex_line (accepted_lines lines) ->
    len (accepted_lines lines) <= 2 ^ 40 ->
    exists rgb_colors cv g',
      load_palette lines = Ok rgb_colors
      /\ len rgb_colors = len (accepted_lines lines)
      /\ Forall byte_color rgb_colors
      /\ compose_atlas random_choice random_randint random_sample rgb_colors g
         = Ok (cv, g')
      /\ process_hex_file random_choice random_randint random_sample
           path lines g
         = ([Save (output_path path) cv;
             Print ("Created texture atlas: " ++ output_path path)%string],
            Ok g').
Proof. exact process_hex_file_well_formed. Qed.

End Runs.

Lemma well_formed_palette_gives_one_atlas_witness :
  exists rgb_colors cv g',
    load_palette ["ff0000
"; "00ff00
"]%string = Ok rgb_colors
    /\ len rgb_colors = len (accepted_lines ["ff0000
"; "00ff00
"]%string)
    /\ Forall byte_color rgb_colors
    /\ compose_atlas first_choice lowest_int first_sample rgb_colors tt
       = Ok (cv, g')
    /\ process_hex_file first_choice lowest_int first_sample
         "a.hex"%string ["ff0000
"; "00ff00
"]%string tt
       = ([Save (output_path "a.hex"%string) cv;
           Print ("Created texture atlas: " ++ output_path "a.hex")%string],
          Ok g').
Proof.
  apply (@well_formed_palette_gives_one_atlas unit first_choice lowest_int
           first_sample first_random_module "a.hex"%string ["ff0000
"; "00ff00
"]%string tt).
  - vm_compute. discriminate.
  - vm_compute accepted_lines.
    repeat constructor;
      (do 6 eexists; split; [reflexivity|]; repeat constructor; discriminate).
  - vm_compute. discriminate.
Defined.

Lemma atlas_is_squares_then_gradients_witness :
  exists cv g',
    compose_atlas first_choice lowest_int first_sample [(255, 0, 0)] tt
    = Ok (cv, g')
    /\ len (pastes cv) = len [(255, 0, 0)] + 25.
Proof.
  destruct (@compose_atlas_total unit first_choice lowest_int first_sample
              first_random_module [(255, 0, 0)] tt)
    as (cv & g' & H).
  - discriminate.
  - repeat constructor; vm_compute; discriminate.
  - vm_compute. discriminate.
  - exists cv, g'. split; [exact H|].
    apply (@atlas_is_squares_then_gradients unit first_choice lowest_int
             first_sample [(255, 0, 0)] tt cv g' H).
Defined.

(** ** A whole run *)

Section WholeRun.

Variable rng : Type.
Variable random_choice : list color -> rng -> color * rng.
Variable random_randint : Z -> Z -> rng -> Z * rng.
Variable random_sample : list color -> Z -> rng -> list color * rng.
Hypothesis Hrandom : random_module random_choice random_randint random_sample.

Lemma process_files_well_formed hex_files g :
  (forall f, In f hex_files ->
     Forall hex_line (accepted_lines (snd f))
     /\ len (accepted_lines (snd f)) <= 2 ^ 40) ->
  exists g',
    snd (process_files random_choice random_randint random_sample hex_files g)
    = Ok g'
    /\ saved_paths
         (fst (process_files random_choice random_randint random_sample
                 hex_files g))
       = map (fun f => output_path (fst f))
             (filter (fun f => negb (is_empty (accepted_lines (snd f))))
                     hex_files).
Proof.
  revert g. induction hex_files as [|[path lines] rest IH]; intros g Hall.
  - exists g. split; reflexivity.
  - destruct (Hall (path, lines) (or_introl eq_refl)) as [Hlines Hlen].
    simpl snd in Hlines, Hlen.
    assert (Hrest : forall f, In f rest ->
                      Forall hex_line (accepted_lines (snd f))
                      /\ len (accepted_lines (snd f)) <= 2 ^ 40)
      by (intros f Hf; apply Hall; right; exact Hf).
    cbn [process_files filter snd].
    destruct (accepted_lines lines) as [|s0 ss] eqn:Eacc.
    + assert (Hfile : process_hex_file random_choice random_randint
                        random_sample path lines g
                      = ([Print ("No valid colors found in " ++ path)%string],
                         Ok g)).
      { unfold process_hex_file, load_palette. rewrite Eacc. reflexivity. }
      rewrite Hfile. destruct (IH g Hrest) as (g' & Hr & Hs).
      destruct (process_files random_choice random_randint random_sample
                  rest g) as [events' r].
      exists g'. split; [exact Hr|]. exact Hs.
    + rewrite <- Eacc in *.
      destruct (@process_hex_file_well_formed rng random_choice random_randint
                  random_sample Hrandom path lines g)
        as (rgb_colors & cv & g1 & _ & _ & _ & _ & Hfile);
        try assumption; [rewrite Eacc; discriminate|].
      rewrite Hfile. destruct (IH g1 Hrest) as (g' & Hr & Hs).
      destruct (process_files random_choice random_randint random_sample
                  rest g1) as [events' r].
      exists g'. split; [exact Hr|].
      replace (negb (is_empty (accepted_lines lines))) with true
        by (rewrite Eacc; reflexivity).
      cbn [map fst]. simpl in Hs |- *. f_equal. exact Hs.
Qed.

(** A run on well-formed palette files never raises and saves one atlas
    for each file that has an accepted line: with a module [random] that
    keeps to its contract, and files whose accepted lines are all six
    hexadecimal digits, [main] ends normally, and the images saved are, in
    the order of the files, the output paths of the files whose palette
    is not empty. *)
Theorem well_formed_run_saves_one_atlas_per_palette :
  forall (hex_files : list (string * list string)) (g : rng),
    (forall f, In f hex_files ->
       Forall hex_line (accepted_lines (snd f))
       /\ len (accepted_lines (snd f)) <= 2 ^ 40) ->
    exists g',
      snd (main random_choice random_randint random_sample hex_files g)
      = Ok g'
      /\ saved_paths
           (fst (main random_choice random_randint random_sample hex_files g))
         = map (fun f => output_path (fst f))
               (filter (fun f => negb (is_empty (accepted_lines (snd f))))
                       hex_files).
Proof.
  intros hex_files g Hall. unfold main.
  destruct hex_files as [|f rest].
  - exists g. split; reflexivity.
  - cbn [is_empty]. apply process_files_well_formed. exact Hall.
Qed.

End WholeRun.

Lemma well_formed_run_saves_one_atlas_per_palette_witness :
  exists g',
    snd (main first_choice lowest_int first_sample
           [("a.hex", ["ff0000
"]); ("b.hex", ["
"; "#123456
"]); ("c.d/e.hex", ["00FF00"; "0000ff"])]%string tt)
    = Ok g'
    /\ saved_paths
         (fst (main first_choice lowest_int first_sample
                 [("a.hex", ["ff0000
"]); ("b.hex", ["
"; "#123456
"]); ("c.d/e.hex", ["00FF00"; "0000ff"])]%string tt))
       = ["a-cta.png"; "e-cta.png"]%string.
Proof.
  apply (@well_formed_run_saves_one_atlas_per_palette unit first_choice
           lowest_int first_sample first_random_module
           [("a.hex", ["ff0000
"]); ("b.hex", ["
"; "#123456
"]); ("c.d/e.hex", ["00FF00"; "0000ff"])]%string tt).
  intros f [<-|[<-|[<-|[]]]]; vm_compute accepted_lines;
    (split; [|vm_compute; discriminate]);
    repeat constructor;
    (do 6 eexists; split; [reflexivity|]; repeat constructor; discriminate).
Defined.

(** ** The geometry of the atlas *)

Lemma FOP_app (A : Type) (R : A -> A -> Prop) l1 l2 :
  ForallOrdPairs R l1 -> ForallOrdPairs R l2 ->
  (forall a b, In a l1 -> In b l2 -> R a b) ->
  ForallOrdPairs R (l1 ++ l2).
Proof.
  induction l1 as [|x l1 IH]; simpl; intros H1 H2 Hx; [exact H2|].
  inversion H1 as [|? ? Hall Hrest]; subst. constructor.
  - apply Forall_app. split; [exact Hall|].
    apply Forall_forall. intros b Hb. apply Hx; [left; reflexivity | exact Hb].
  - apply IH; [exact Hrest | exact H2|].
    intros a b Ha Hb. apply Hx; [right; exact Ha | exact Hb].
Qed.

Lemma FOP_map (A B : Type) (R : B -> B -> Prop) (f : A -> B) l :
  ForallOrdPairs (fun a b => R (f a) (f b)) l -> ForallOrdPairs R (map f l).
Proof.
  induction 1 as [|x l Hall Hrest IH]; simpl; constructor.
  - apply Forall_map. exact Hall.
  - exact IH.
Qed.

Lemma FOP_impl_In (A : Type) (R R' : A -> A -> Prop) l :
  (forall a b, In a l -> In b l -> R a b -> R' a b) ->
  ForallOrdPairs R l -> ForallOrdPairs R' l.
Proof.
  intros Himpl H. induction H as [|x l Hall Hrest IH]; constructor.
  - rewrite Forall_forall in *. intros b Hb.
    apply Himpl; [left; reflexivity | right; exact Hb | apply Hall; exact Hb].
  - apply IH. intros a b Ha Hb. apply Himpl; right; assumption.
Qed.

Lemma FOP_combine_range (A : Type) (l : list A) a b :
  ForallOrdPairs (fun e1 e2 => fst e1 < fst e2) (combine (py_range a b) l).
Proof.
  revert a. induction l as [|x l IH]; intros a.
  - rewrite combine_nil. constructor.
  - destruct (Z_lt_le_dec a b) as [Hlt|Hge].
    + rewrite py_range_cons by exact Hlt. simpl combine. constructor.
      * apply Forall_forall. intros [i y] Hin. apply in_combine_l in Hin.
        apply py_range_In in Hin. simpl. lia.
      * apply IH.
    + rewrite py_range_empty by lia. constructor.
Qed.

Lemma gradient_width_value : gradient_width = 162.
Proof. reflexivity. Qed.

Lemma gradient_height_value : gradient_height = 724.
Proof. reflexivity. Qed.

Lemma in_cells (k r m : Z) (ds : list (list color)) p :
  In p (map (fun e => gradient_cell (fst e + k) r (snd e))
            (combine (py_range 0 m) ds)) ->
  exists column d, k <= column < m + k /\ p = gradient_cell column r d.
Proof.
  intros H. apply in_map_iff in H. destruct H as ([i d] & <- & Hin).
  apply in_combine_l in Hin. apply py_range_In in Hin.
  exists (i + k), d. simpl. split; [lia | reflexivity].
Qed.

Lemma cells_apart (k r m : Z) (ds : list (list color)) :
  ForallOrdPairs apart
    (map (fun e => gradient_cell (fst e + k) r (snd e))
         (combine (py_range 0 m) ds)).
Proof.
  apply FOP_map.
  apply FOP_impl_In with (R := fun e1 e2 => fst e1 < fst e2);
    [|apply FOP_combine_range].
  intros [i d] [j d'] _ _ Hlt. simpl in Hlt.
  unfold apart, gradient_cell. simpl. rewrite gradient_width_value. lia.
Qed.

Lemma in_squares n (colors : list color) p :
  1 <= n -> n = len colors ->
  In p (map (square_paste n
               (Z.min (square_width n)
                  (gradient_start_y / ((n + grid_cols n - 1) / grid_cols n))))
            (enumerate colors)) ->
  0 <= at_x p /\ 0 <= at_y p
  /\ at_x p + image_width (pasted p) <= total_gradient_width
  /\ at_y p + image_height (pasted p) <= gradient_start_y.
Proof.
  intros Hn Hlen H. apply in_map_iff in H. destruct H as ([i c] & <- & Hin).
  unfold enumerate in Hin. apply in_combine_l in Hin.
  apply py_range_In in Hin. rewrite <- Hlen in Hin.
  destruct (@square_in_band n i Hn ltac:(lia)) as (H0 & H1 & H2 & H3 & H4).
  unfold square_paste. simpl. lia.
Qed.

Lemma squares_apart n (colors : list color) sq_height :
  1 <= n -> 0 <= sq_height ->
  ForallOrdPairs apart (map (square_paste n sq_height) (enumerate colors)).
Proof.
  intros Hn Hsh. apply FOP_map.
  apply FOP_impl_In with (R := fun e1 e2 => fst e1 < fst e2);
    [|apply FOP_combine_range].
  intros [i c] [j c'] Hi _ Hlt. simpl in Hlt.
  unfold enumerate in Hi. apply in_combine_l in Hi. apply py_range_In in Hi.
  destruct (@square_rows_apart n i j sq_height Hn ltac:(lia) Hsh)
    as [[Hrow Hx]|Hy]; unfold apart, square_paste; simpl; lia.
Qed.

Section Geometry.

Variable rng : Type.
Variable random_choice : list color -> rng -> color * rng.
Variable random_randint : Z -> Z -> rng -> Z * rng.
Variable random_sample : list color -> Z -> rng -> list color * rng.

Lemma compose_atlas_not_empty rgb_colors g cv g' :
  compose_atlas random_choice random_randint random_sample rgb_colors g
  = Ok (cv, g') ->
  1 <= len rgb_colors.
Proof.
  intros H. destruct rgb_colors as [|c l];
    [|unfold len; simpl List.length; lia].
  unfold compose_atlas in H.
  apply bind_Ok in H. destruct H as (sq_height & _ & H).
  apply bind_Ok in H. destruct H as (main_gradient & Hmain & _).
  unfold create_gradient in Hmain.
  rewrite gradient_pixels_empty in Hmain by (vm_compute; discriminate).
  discriminate.
Qed.

Lemma compose_atlas_geometry rgb_colors g cv g' :
  compose_atlas random_choice random_randint random_sample rgb_colors g
  = Ok (cv, g') ->
  len rgb_colors <= 2 ^ 40 ->
  Forall inside_canvas (pastes cv) /\ ForallOrdPairs apart (pastes cv).
Proof.
  intros H Hlen.
  pose proof (@compose_atlas_not_empty rgb_colors g cv g' H) as Hn.
  destruct (@compose_atlas_pastes _ _ _ _ _ _ _ _ H)
    as (sq & main & first & row1 & row2 & Hsq & _ & _ & _ & _ & _ & ->).
  rewrite square_height_exact in Hsq by lia. inversion Hsq; subst sq. clear Hsq.
  set (n := len rgb_colors) in *.
  set (sq := Z.min (square_width n)
               (gradient_start_y / ((n + grid_cols n - 1) / grid_cols n))).
  set (squares := map (square_paste n sq) (enumerate rgb_colors)).
  set (main_paste := Paste (Pixels actual_main_gradient_width canvas_size main)
                           total_gradient_width 0).
  set (cells1 := map (fun e => gradient_cell (fst e + 1) 0 (snd e))
                     (combine (py_range 0 num_gradients) row1)).
  set (cells2 := map (fun e => gradient_cell (fst e) 1 (snd e))
                     (combine (py_range 0 (num_gradients + 1)) row2)).
  assert (Hsquares : forall p, In p squares ->
             0 <= at_x p /\ 0 <= at_y p
             /\ at_x p + image_width (pasted p) <= 1944
             /\ at_y p + image_height (pasted p) <= 600)
    by (intros p Hp; apply (@in_squares n rgb_colors p Hn eq_refl Hp)).
  assert (Hcells1 : forall p, In p cells1 ->
             exists column d, 1 <= column < 12 /\ p = gradient_cell column 0 d).
  { intros p Hp. destruct (in_cells _ _ _ _ _ Hp) as (col & d & Hc & ->).
    exists col, d. change num_gradients with 11 in Hc. split; [lia|reflexivity]. }
  assert (Hcells2 : forall p, In p cells2 ->
             exists column d, 0 <= column < 12 /\ p = gradient_cell column 1 d).
  { intros p Hp.
    assert (Hp' : In p (map (fun e => gradient_cell (fst e + 0) 1 (snd e))
                            (combine (py_range 0 (num_gradients + 1)) row2))).
    { unfold cells2 in Hp. erewrite map_ext; [exact Hp|].
      intros [i d]. simpl. rewrite Z.add_0_r. reflexivity. }
    destruct (in_cells _ _ _ _ _ Hp') as (col & d & Hc & ->).
    exists col, d. change (num_gradients + 1) with 12 in Hc.
    split; [lia|reflexivity]. }
  assert (Hsq0 : 0 <= sq)
    by (destruct (@square_in_band n 0 Hn ltac:(lia)) as (H0 & _); exact H0).
  split.
  - apply Forall_app. split; [|constructor; [|constructor]].
    + apply Forall_forall. intros p Hp.
      destruct (Hsquares p Hp) as (H1 & H2 & H3 & H4). geom.
    + subst main_paste. geom.
    + geom.
    + apply Forall_app. split; apply Forall_forall; intros p Hp.
      * destruct (Hcells1 p Hp) as (col & d & Hc & ->). geom.
      * destruct (Hcells2 p Hp) as (col & d & Hc & ->). geom.
  - apply FOP_app.
    + apply squares_apart; assumption.
    + constructor; [|constructor].
      * constructor; [subst main_paste; geom|].
        apply Forall_app. split; apply Forall_forall; intros p Hp.
        -- destruct (Hcells1 p Hp) as (col & d & Hc & ->).
           subst main_paste. geom.
        -- destruct (Hcells2 p Hp) as (col & d & Hc & ->).
           subst main_paste. geom.
      * apply Forall_app. split; apply Forall_forall; intros p Hp.
        -- destruct (Hcells1 p Hp) as (col & d & Hc & ->). geom.
        -- destruct (Hcells2 p Hp) as (col & d & Hc & ->). geom.
      * apply FOP_app.
        -- apply cells_apart.
        -- unfold cells2.
           erewrite map_ext
             with (g := fun e => gradient_cell (fst e + 0) 1 (snd e));
             [apply cells_apart|].
           intros [i d]. simpl. rewrite Z.add_0_r. reflexivity.
        -- intros p q Hp Hq.
           destruct (Hcells1 p Hp) as (col & d & Hc & ->).
           destruct (Hcells2 q Hq) as (col' & d' & Hc' & ->). geom.
    + intros p q Hp Hq. destruct (Hsquares p Hp) as (H1 & H2 & H3 & H4).
      destruct Hq as [<-|[<-|Hq]].
      * subst main_paste. geom.
      * geom.
      * apply in_app_or in Hq. destruct Hq as [Hq|Hq].
        -- destruct (Hcells1 q Hq) as (col & d & Hc & ->). geom.
        -- destruct (Hcells2 q Hq) as (col & d & Hc & ->). geom.
Qed.

(** On a canvas the script completes, for a palette of at most [2^40]
    colours, every paste lies within the canvas and no two pastes have a
    pixel in common: the squares, the main gradient and the cells of the
    two rows of bottom gradients cover disjoint rectangles, so that no
    image is painted over another. *)
Theorem pastes_are_inside_and_disjoint :
  forall (rgb_colors : list color) (g : rng) (cv : canvas) (g' : rng),
    compose_atlas random_choice random_randint random_sample rgb_colors g
    = Ok (cv, g') ->
    len rgb_colors <= 2 ^ 40 ->
    Forall inside_canvas (pastes cv) /\ ForallOrdPairs apart (pastes cv).
Proof. exact compose_atlas_geometry. Qed.

End Geometry.

Lemma pastes_are_inside_and_disjoint_witness :
  exists cv g',
    compose_atlas first_choice lowest_int first_sample
      [(255, 0, 0); (0, 0, 255)] tt
    = Ok (cv, g')
    /\ Forall inside_canvas (pastes cv)
    /\ ForallOrdPairs apart (pastes cv).
Proof.
  destruct (@compose_atlas_total unit first_choice lowest_int first_sample
              first_random_module [(255, 0, 0); (0, 0, 255)] tt)
    as (cv & g' & H).
  - discriminate.
  - repeat constructor; vm_compute; discriminate.
  - vm_compute. discriminate.
  - exists cv, g'. split; [exact H|].
    apply (@pastes_are_inside_and_disjoint unit first_choice lowest_int
             first_sample [(255, 0, 0); (0, 0, 255)] tt cv g' H).
    vm_compute. discriminate.
Defined.

(** ** The name of the atlas *)

Lemma list_ascii_app s1 s2 :
  list_ascii_of_string (s1 ++ s2)
  = list_ascii_of_string s1 ++ list_ascii_of_string s2.
Proof. induction s1 as [|c s1 IH]; simpl; [reflexivity | f_equal; exact IH]. Qed.

Lemma string_of_list_app l1 l2 :
  string_of_list_ascii (l1 ++ l2)
  = (string_of_list_ascii l1 ++ string_of_list_ascii l2)%string.
Proof. induction l1 as [|c l1 IH]; simpl; [reflexivity | f_equal; exact IH]. Qed.

Lemma take_until_all p l :
  Forall (fun c => p c = false) l -> take_until p l = l.
Proof.
  induction 1 as [|c l Hc Hl IH]; simpl; [reflexivity|].
  rewrite Hc, IH. reflexivity.
Qed.

Lemma take_until_stop p l1 c l2 :
  Forall (fun c => p c = false) l1 -> p c = true ->
  take_until p (l1 ++ c :: l2) = l1.
Proof.
  induction 1 as [|x l Hx Hl IH]; simpl; intros Hc.
  - rewrite Hc. reflexivity.
  - rewrite Hx, IH by exact Hc. reflexivity.
Qed.

Lemma Forall_rev_iff (A : Type) (P : A -> Prop) l :
  Forall P l -> Forall P (rev l).
Proof.
  intros H. apply Forall_forall. intros x Hx. apply in_rev in Hx.
  rewrite Forall_forall in H. auto.
Qed.

Lemma rev_middle (A : Type) (l1 l2 : list A) c :
  rev (l1 ++ c :: l2) = rev l2 ++ c :: rev l1.
Proof.
  rewrite rev_app_distr. simpl. rewrite <- app_assoc. reflexivity.
Qed.

Lemma basename_plain name : without 47 name -> basename name = name.
Proof.
  intros H. unfold basename.
  rewrite take_until_all by (apply Forall_rev_iff; exact H).
  rewrite rev_involutive. apply string_of_list_ascii_of_string.
Qed.

Lemma basename_of_path dir name :
  without 47 name -> basename (dir ++ "/" ++ name) = name.
Proof.
  intros H. unfold basename.
  rewrite !list_ascii_app. change (list_ascii_of_string "/") with ["/"%char].
  cbn [app]. rewrite rev_middle.
  rewrite take_until_stop; [| apply Forall_rev_iff; exact H | reflexivity].
  rewrite rev_involutive. apply string_of_list_ascii_of_string.
Qed.

Lemma splitext_root_plain name : without 46 name -> splitext_root name = name.
Proof.
  intros H. unfold splitext_root.
  rewrite take_until_all by (apply Forall_rev_iff; exact H).
  rewrite skipn_all. reflexivity.
Qed.

Lemma splitext_root_ext base ext :
  Exists (fun c => is_char 46 c = false) (list_ascii_of_string base) ->
  without 46 ext ->
  splitext_root (base ++ "." ++ ext) = base.
Proof.
  intros Hbase Hext. unfold splitext_root.
  rewrite !list_ascii_app. change (list_ascii_of_string ".") with ["."%char].
  cbn [app]. rewrite rev_middle.
  rewrite take_until_stop; [| apply Forall_rev_iff; exact Hext | reflexivity].
  rewrite skipn_app, skipn_all, Nat.sub_diag. cbn [app skipn].
  assert (Hnot : forallb (is_char 46) (rev (list_ascii_of_string base)) = false).
  { apply Exists_exists in Hbase. destruct Hbase as (c & Hc & Hdot).
    destruct (forallb (is_char 46) (rev (list_ascii_of_string base))) eqn:E;
      [|reflexivity].
    rewrite forallb_forall in E. rewrite (E c) in Hdot; [discriminate|].
    apply in_rev. rewrite rev_involutive. exact Hc. }
  rewrite Hnot, rev_involutive. apply string_of_list_ascii_of_string.
Qed.

(** The atlas is written in the current directory, under the name of the
    palette file: the directories of the path are dropped, and so is the
    extension, what follows the last dot of the name, unless only dots
    come before that dot; then [-cta.png] is appended. *)
Theorem atlas_is_named_after_palette_file :
  (forall dir name : string,
      without 47 name -> output_path (dir ++ "/" ++ name) = output_path name)
  /\ (forall base ext : string,
         without 47 base -> without 47 ext -> without 46 ext ->
         Exists (fun c => is_char 46 c = false) (list_ascii_of_string base) ->
         output_path (base ++ "." ++ ext) = (base ++ "-cta.png")%string)
  /\ (forall name : string,
         without 47 name -> without 46 name ->
         output_path name = (name ++ "-cta.png")%string).
Proof.
  split; [|split].
  - intros dir name H. unfold output_path.
    rewrite basename_of_path, basename_plain by exact H. reflexivity.
  - intros base ext Hb He Hd Hex. unfold output_path.
    rewrite basename_plain.
    + rewrite splitext_root_ext by assumption. reflexivity.
    + unfold without. rewrite !list_ascii_app.
      apply Forall_app. split; [exact Hb|].
      apply Forall_app. split; [repeat constructor | exact He].
  - intros name Hs Hd. unfold output_path.
    rewrite basename_plain, splitext_root_plain by assumption. reflexivity.
Qed.

Lemma atlas_is_named_after_palette_file_witness :
  output_path ("palettes/v1.2" ++ "/" ++ "my.colors.hex")
  = output_path "my.colors.hex"
  /\ output_path ("my.colors" ++ "." ++ "hex") = ("my.colors" ++ "-cta.png")%string.
Proof.
  destruct atlas_is_named_after_palette_file as (H1 & H2 & _). split.
  - apply (H1 "palettes/v1.2"%string "my.colors.hex"%string).
    repeat constructor.
  - apply (H2 "my.colors"%string "hex"%string); repeat constructor.
Defined.

(** ** The channels of a loaded colour *)

(** [hex_to_rgb] raises nothing but [ValueError], and what it returns are
    channels from -15 to 255: each is [int(s, 16)] of at most two
    characters, of which the first may be a sign or a blank.  So the
    palette loader raises nothing but [ValueError], and gives one colour
    per accepted line, with channels in that range; a channel below 0 is
    possible. *)
Theorem loaded_channels_are_from_minus_15_to_255 :
  (forall s, match hex_to_rgb s with
             | Ok c => wide_color c
             | Raise e => e = ValueError
             end)
  /\ (forall lines,
         match load_palette lines with
         | Ok rgb_colors =>
             len rgb_colors = len (accepted_lines lines)
             /\ Forall wide_color rgb_colors
         | Raise e => e = ValueError
         end)
  /\ hex_to_rgb "-f+a 9" = Ok (-15, 10, 9).
Proof.
  split; [exact hex_to_rgb_range|]. split; [|reflexivity].
  intros lines. unfold load_palette.
  destruct (mapM hex_to_rgb (accepted_lines lines)) as [colors|e] eqn:E.
  - split.
    + unfold len. rewrite (@mapM_length _ _ _ _ _ E). reflexivity.
    + apply Forall_forall. intros c Hc.
      destruct (@mapM_In _ _ _ _ _ _ E Hc) as (s & _ & Hs).
      pose proof (hex_to_rgb_range s) as Hr. rewrite Hs in Hr. exact Hr.
  - apply mapM_Raise_In in E. destruct E as (s & _ & Hs).
    apply (@hex_to_rgb_raises _ _ Hs).
Qed.

(** ** White space and dropped lines *)

Lemma lstrip_idem l : lstrip (lstrip l) = lstrip l.
Proof.
  induction l as [|c l IH]; simpl; [reflexivity|].
  destruct (is_space c) eqn:E; [exact IH|]. simpl. rewrite E. reflexivity.
Qed.

Lemma lstrip_snoc l c :
  is_space c = false -> lstrip (l ++ [c]) = lstrip l ++ [c].
Proof.
  intros Hc. induction l as [|x l IH]; simpl.
  - rewrite Hc. reflexivity.
  - destruct (is_space x); [exact IH | reflexivity].
Qed.

Lemma lstrip_head l :
  lstrip l = [] \/ exists c t, lstrip l = c :: t /\ is_space c = false.
Proof.
  induction l as [|x l IH]; simpl; [left; reflexivity|].
  destruct (is_space x) eqn:E; [exact IH|].
  right. exists x, l. split; [reflexivity | exact E].
Qed.

Lemma strip_chars_idem l : strip_chars (strip_chars l) = strip_chars l.
Proof.
  unfold strip_chars.
  destruct (lstrip_head l) as [E|(c & t & E & Hc)]; rewrite E.
  - reflexivity.
  - cbn [rev]. rewrite lstrip_snoc by exact Hc.
    rewrite rev_app_distr. cbn [rev app].
    cbn [lstrip]. rewrite Hc. cbn [rev].
    rewrite rev_involutive, lstrip_snoc, lstrip_idem by exact Hc.
    rewrite rev_app_distr. reflexivity.
Qed.

Lemma strip_idem s : strip (strip s) = strip s.
Proof.
  unfold strip. rewrite list_ascii_of_string_of_list_ascii, strip_chars_idem.
  reflexivity.
Qed.

Lemma accepted_lines_app l1 l2 :
  accepted_lines (l1 ++ l2) = accepted_lines l1 ++ accepted_lines l2.
Proof. rewrite !accepted_lines_filter, map_app, filter_app. reflexivity. Qed.

(** The loader does not see the white space around a line, nor the lines
    that do not have six characters once stripped: stripping the lines
    beforehand, or removing such a line anywhere in the file, changes
    neither the palette nor the exception of [load_palette]. *)
Theorem loader_ignores_white_space_and_other_lines :
  (forall s, strip (strip s) = strip s)
  /\ (forall lines, load_palette (map strip lines) = load_palette lines)
  /\ (forall lines1 line lines2,
         str_len (strip line) <> 6 ->
         load_palette (lines1 ++ line :: lines2)
         = load_palette (lines1 ++ lines2)).
Proof.
  split; [exact strip_idem|]. split.
  - intros lines. unfold load_palette. f_equal.
    rewrite !accepted_lines_filter, map_map. f_equal.
    apply map_ext. intros s. apply strip_idem.
  - intros lines1 line lines2 Hlen. unfold load_palette. f_equal.
    rewrite !accepted_lines_app. f_equal.
    change (line :: lines2) with ([line] ++ lines2).
    rewrite accepted_lines_app.
    replace (accepted_lines [line]) with (@nil string); [reflexivity|].
    rewrite accepted_lines_filter. simpl.
    destruct (Z.eqb_spec (str_len (strip line)) 6); [contradiction|reflexivity].
Qed.

Lemma loader_ignores_white_space_and_other_lines_witness :
  load_palette
    (["ff0000"%string] ++ "# red, then green"%string :: ["00ff00"%string])%list
  = load_palette (["ff0000"%string] ++ ["00ff00"%string])%list.
Proof.
  destruct loader_ignores_white_space_and_other_lines as (_ & _ & H).
  apply (H ["ff0000"%string] "# red, then green"%string ["00ff00"%string]).
  vm_compute. discriminate.
Defined.

(** ** The gradients of the atlas *)

Lemma Ok_inj (A : Type) (a b : A) : Ok a = Ok b -> a = b.
Proof. intros H. injection H. auto. Qed.

Lemma Pixels_inj w h d w' h' d' : Pixels w h d = Pixels w' h' d' -> d = d'.
Proof. intros H. injection H. auto. Qed.


Section AtlasGradients.

Variable rng : Type.
Variable random_choice : list color -> rng -> color * rng.
Variable random_randint : Z -> Z -> rng -> Z * rng.
Variable random_sample : list color -> Z -> rng -> list color * rng.

(** The two gradients that do not depend on [random], on a completed
    canvas. *)
Lemma compose_atlas_gradients rgb_colors g cv g' :
  compose_atlas random_choice random_randint random_sample rgb_colors g
  = Ok (cv, g') ->
  exists main darkest lightest first,
    create_gradient rgb_colors actual_main_gradient_width canvas_size true
    = Ok (Pixels actual_main_gradient_width canvas_size main)
    /\ get_lightest_darkest rgb_colors = Ok (darkest, lightest)
    /\ create_gradient [lightest; darkest] gradient_width gradient_height true
       = Ok (Pixels gradient_width gradient_height first)
    /\ In (Paste (Pixels actual_main_gradient_width canvas_size main)
                 total_gradient_width 0)
          (pastes cv)
    /\ In (gradient_cell 0 0 first) (pastes cv).
Proof.
  unfold compose_atlas. intros H.
  apply bind_Ok in H. destruct H as (sq_height & _ & H).
  apply bind_Ok in H. destruct H as (main_gradient & Hmain & H).
  pose proof Hmain as Hmain'.
  apply create_gradient_size in Hmain'; [|vm_compute; discriminate..].
  destruct Hmain' as (main & -> & _).
  apply bind_Ok in H. destruct H as ([darkest lightest] & Hld & H).
  apply bind_Ok in H. destruct H as (first_gradient & Hfirst & H).
  pose proof Hfirst as Hfirst'.
  apply create_gradient_size in Hfirst'; [|vm_compute; discriminate..].
  destruct Hfirst' as (first & -> & _).
  apply bind_Ok in H. destruct H as (st & Hrow1 & Hrow2).
  exists main, darkest, lightest, first.
  split; [exact Hmain|]. split; [exact Hld|]. split; [exact Hfirst|].
  assert (Hkeep : forall p,
             In p (pastes (fst (canvas_paste
                                  (canvas_paste
                                     (fold_left
                                        (fun cv entry =>
                                           draw_square (len rgb_colors)
                                             sq_height entry cv)
                                        (enumerate rgb_colors) new_canvas)
                                     (Pixels actual_main_gradient_width
                                        canvas_size main)
                                     total_gradient_width 0)
                                  (Pixels gradient_width gradient_height first)
                                  0 gradient_start_y, g))) ->
             In p (pastes cv)).
  { intros p Hp. change cv with (fst (cv, g')).
    eapply for_each_invariant with (P := fun st => In p (pastes (fst st)));
      [ | | exact Hrow2].
    - intros a s1 s2 Hb. apply random_gradient_keeps with (1 := Hb).
    - eapply for_each_invariant with (P := fun st => In p (pastes (fst st)));
        [ | | exact Hrow1].
      + intros a s1 s2 Hb. apply neighbor_gradient_keeps with (1 := Hb).
      + exact Hp. }
  split; apply Hkeep; simpl; apply in_or_app.
  - left. apply in_or_app. right. left. reflexivity.
  - right. left. reflexivity.
Qed.

Lemma atlas_gradient_ends rgb_colors g cv g' :
  compose_atlas random_choice random_randint random_sample rgb_colors g
  = Ok (cv, g') ->
  Forall byte_color rgb_colors -> len rgb_colors <= 2 ^ 40 ->
  exists main darkest lightest first,
    get_lightest_darkest rgb_colors = Ok (darkest, lightest)
    /\ In (Paste (Pixels actual_main_gradient_width canvas_size main)
                 total_gradient_width 0)
          (pastes cv)
    /\ In (gradient_cell 0 0 first) (pastes cv)
    /\ (forall x, 0 <= x < actual_main_gradient_width ->
          py_getitem main x = py_getitem rgb_colors 0)
    /\ (forall x, 0 <= x < gradient_width ->
          py_getitem first x = Ok lightest
          /\ py_getitem first ((gradient_height - 1) * gradient_width + x)
             = Ok darkest).
Proof.
  intros H Hbytes Hlen.
  pose proof (@compose_atlas_not_empty _ _ _ _ _ _ _ _ H) as Hn.
  destruct (compose_atlas_gradients _ _ H)
    as (main & darkest & lightest & first & Hmain & Hld & Hfirst & Hin1 & Hin2).
  exists main, darkest, lightest, first.
  split; [exact Hld|]. split; [exact Hin1|]. split; [exact Hin2|].
  assert (Hne : rgb_colors <> []).
  { intros ->. unfold len in Hn. simpl in Hn. lia. }
  destruct (@get_lightest_darkest_spec rgb_colors Hne Hbytes)
    as (d & l & Hld' & (b1 & a1 & Hd & _) & (b2 & a2 & Hl & _)).
  rewrite Hld in Hld'. inversion Hld'; subst d l. clear Hld'.
  assert (Hin : forall c, In c rgb_colors -> byte_color c)
    by (apply Forall_forall; exact Hbytes).
  assert (Hbd : byte_color darkest).
  { apply Hin. rewrite Hd. apply in_or_app. right; left; reflexivity. }
  assert (Hbl : byte_color lightest).
  { apply Hin. rewrite Hl. apply in_or_app. right; left; reflexivity. }
  assert (Hpair : Forall byte_color [lightest; darkest])
    by (repeat constructor; assumption).
  split.
  - intros x Hx. destruct (Z.eq_dec (len rgb_colors) 1) as [Hone|Hmany].
    + destruct rgb_colors as [|c [|c' l]];
        try (unfold len in Hone; simpl in Hone; lia).
      unfold create_gradient in Hmain.
      rewrite gradient_pixels_single in Hmain. cbn [bind] in Hmain.
      apply Ok_inj, Pixels_inj in Hmain. subst main.
      rewrite py_getitem_repeat, py_getitem_first; [reflexivity|].
      revert Hx. layout_numbers. lia.
    + destruct (@create_gradient_start rgb_colors actual_main_gradient_width
                  canvas_size true Hbytes ltac:(lia)
                  ltac:(vm_compute; discriminate)
                  ltac:(vm_compute; discriminate))
        as (pixels & Hp & Hstart).
      rewrite Hmain in Hp. inversion Hp; subst pixels.
      rewrite <- (Hstart x 0 Hx ltac:(layout_numbers; lia) eq_refl).
      f_equal.
  - intros x Hx.
    destruct (@create_gradient_start [lightest; darkest] gradient_width
                gradient_height true Hpair
                ltac:(vm_compute; split; discriminate)
                ltac:(vm_compute; discriminate)
                ltac:(vm_compute; discriminate))
      as (pixels & Hp & Hstart).
    rewrite Hfirst in Hp. inversion Hp; subst pixels.
    destruct (@create_gradient_end [lightest; darkest] gradient_width
                gradient_height true Hpair (or_introl eq_refl)
                ltac:(vm_compute; discriminate)
                ltac:(vm_compute; discriminate))
      as (pixels & Hp' & Hend).
    rewrite Hfirst in Hp'. inversion Hp'; subst pixels.
    split.
    + rewrite <- (py_getitem_first lightest [darkest]).
      rewrite <- (Hstart x 0 Hx ltac:(layout_numbers; lia) eq_refl).
      f_equal.
    + change (Ok darkest) with (py_getitem [lightest; darkest] (-1)).
      apply (Hend x (gradient_height - 1) Hx);
        vm_compute; split; (discriminate || reflexivity).
Qed.

(** On a canvas completed for a palette of at most [2^40] byte colours,
    the main gradient begins with the first colour of the palette, and
    the first cell of the table of gradients runs from the lightest colour
    of the palette, its first row, to the darkest, its last row, both
    exactly. *)
Theorem atlas_gradients_begin_and_end_on_palette_colours :
  forall (rgb_colors : list color) (g : rng) (cv : canvas) (g' : rng),
    compose_atlas random_choice random_randint random_sample rgb_colors g
    = Ok (cv, g') ->
    Forall byte_color rgb_colors -> len rgb_colors <= 2 ^ 40 ->
    exists main darkest lightest first,
      get_lightest_darkest rgb_colors = Ok (darkest, lightest)
      /\ In (Paste (Pixels actual_main_gradient_width canvas_size main)
                   total_gradient_width 0)
            (pastes cv)
      /\ In (gradient_cell 0 0 first) (pastes cv)
      /\ (forall x, 0 <= x < actual_main_gradient_width ->
            py_getitem main x = py_getitem rgb_colors 0)
      /\ (forall x, 0 <= x < gradient_width ->
            py_getitem first x = Ok lightest
            /\ py_getitem first ((gradient_height - 1) * gradient_width + x)
               = Ok darkest).
Proof. exact atlas_gradient_ends. Qed.

End AtlasGradients.

Lemma atlas_gradients_begin_and_end_on_palette_colours_witness :
  exists cv g' main darkest lightest first,
    compose_atlas first_choice lowest_int first_sample
      [(10, 20, 30); (250, 240, 230); (0, 0, 0)] tt
    = Ok (cv, g')
    /\ get_lightest_darkest [(10, 20, 30); (250, 240, 230); (0, 0, 0)]
       = Ok (darkest, lightest)
    /\ In (Paste (Pixels actual_main_gradient_width canvas_size main)
                 total_gradient_width 0)
          (pastes cv)
    /\ In (gradient_cell 0 0 first) (pastes cv)
    /\ (forall x, 0 <= x < actual_main_gradient_width ->
          py_getitem main x
          = py_getitem [(10, 20, 30); (250, 240, 230); (0, 0, 0)] 0)
    /\ (forall x, 0 <= x < gradient_width ->
          py_getitem first x = Ok lightest
          /\ py_getitem first ((gradient_height - 1) * gradient_width + x)
             = Ok darkest).
Proof.
  assert (Hbytes : Forall byte_color [(10, 20, 30); (250, 240, 230); (0, 0, 0)])
    by (repeat constructor; vm_compute; discriminate).
  assert (Hlen : len [(10, 20, 30); (250, 240, 230); (0, 0, 0)] <= 2 ^ 40)
    by (vm_compute; discriminate).
  destruct (@compose_atlas_total unit first_choice lowest_int first_sample
              first_random_module [(10, 20, 30); (250, 240, 230); (0, 0, 0)] tt
              ltac:(discriminate) Hbytes Hlen)
    as (cv & g' & H).
  destruct (@atlas_gradients_begin_and_end_on_palette_colours unit first_choice
              lowest_int first_sample
              [(10, 20, 30); (250, 240, 230); (0, 0, 0)] tt cv g' H Hbytes Hlen)
    as (main & darkest & lightest & first & H1 & H2 & H3 & H4 & H5).
  exists cv, g', main, darkest, lightest, first.
  exact (conj H (conj H1 (conj H2 (conj H3 (conj H4 H5))))).
Defined.

(** ** The colours of the bottom gradients *)

Lemma find_neighbors_incl target_color colors max_neighbors min_distance selected :
  0 <= max_neighbors -> 0 <= min_distance ->
  find_neighbors target_color colors max_neighbors min_distance = Ok selected ->
  incl selected colors
  /\ len selected
     = Z.max 0 (Z.min max_neighbors
                  (len (candidates target_color colors) - min_distance)).
Proof.
  intros Hmax Hmin H. rewrite find_neighbors_slice in H by assumption.
  apply bind_Ok in H. destruct H as (distances & Hd & Hsel).
  apply Ok_inj in Hsel. subst selected.
  destruct (@sorted_distances_spec _ _ _ Hd) as (Hperm & _ & _).
  split.
  - intros c Hin. apply in_map_iff in Hin. destruct Hin as (e & <- & He).
    apply incl_firstn, incl_skipn in He.
    apply (candidates_In target_color colors).
    apply (Permutation_in _ Hperm). apply in_map. exact He.
  - apply Permutation_length in Hperm. rewrite length_map in Hperm.
    unfold len. rewrite length_map, length_firstn, length_skipn, <- Hperm. lia.
Qed.

Lemma candidates_fewer target_color colors :
  In target_color colors ->
  (List.length (candidates target_color colors) < List.length colors)%nat.
Proof.
  unfold candidates. induction colors as [|c l IH]; [contradiction|].
  intros Hin. cbn [filter].
  destruct (color_eqb c target_color) eqn:E; cbn [negb List.length].
  - pose proof (filter_length_le
                  (fun c => negb (color_eqb c target_color)) l). lia.
  - destruct Hin as [->|Hin].
    + assert (color_eqb target_color target_color = true)
        by (apply color_eqb_eq; reflexivity).
      congruence.
    + specialize (IH Hin). lia.
Qed.

Section BottomGradients.

Variable rng : Type.
Variable random_choice : list color -> rng -> color * rng.
Variable random_randint : Z -> Z -> rng -> Z * rng.
Variable random_sample : list color -> Z -> rng -> list color * rng.
Hypothesis Hrandom : random_module random_choice random_randint random_sample.

Lemma neighbor_gradient_colors rgb_colors i cv g st' :
  rgb_colors <> [] ->
  neighbor_gradient random_choice random_randint rgb_colors i (cv, g) = Ok st' ->
  exists gradient_colors data,
    1 <= len gradient_colors <= 3
    /\ incl gradient_colors rgb_colors
    /\ (len rgb_colors <= 3 -> len gradient_colors = 1)
    /\ create_gradient gradient_colors gradient_width gradient_height true
       = Ok (Pixels gradient_width gradient_height data)
    /\ fst st' = canvas_paste cv (Pixels gradient_width gradient_height data)
                   ((i + 1) * gradient_width) gradient_start_y.
Proof.
  intros Hne. destruct Hrandom as (Hchoice & Hint & _).
  unfold neighbor_gradient.
  pose proof (Hchoice rgb_colors g Hne) as Hstart.
  destruct (random_choice rgb_colors g) as [start_color g1]. simpl in Hstart.
  pose proof (Hint 1 3 g1 ltac:(lia)) as Hmax.
  destruct (random_randint 1 3 g1) as [max_neighbors g2]. simpl in Hmax.
  pose proof (Hint 2 4 g2 ltac:(lia)) as Hmin.
  destruct (random_randint 2 4 g2) as [min_distance g3]. simpl in Hmin.
  intros H. apply bind_Ok in H. destruct H as (neighbors & Hn & H).
  destruct (@find_neighbors_incl start_color rgb_colors max_neighbors
              min_distance neighbors ltac:(lia) ltac:(lia) Hn)
    as [Hincl Hcount].
  pose proof (@candidates_fewer _ _ Hstart) as Hfew.
  assert (Hgc : exists gc g4,
             (if is_empty neighbors then ([start_color], g3)
              else let '(k, g) :=
                     random_randint 1 (Z.min 2 (len neighbors)) g3 in
                   (start_color :: slice_to neighbors k, g)) = (gc, g4)
             /\ 1 <= len gc <= 3 /\ incl gc rgb_colors
             /\ (len rgb_colors <= 3 -> len gc = 1)).
  { destruct neighbors as [|n0 ns] eqn:En.
    - exists [start_color], g3. split; [reflexivity|].
      split; [unfold len; simpl; lia|].
      split; [intros c [<-|[]]; exact Hstart | reflexivity].
    - rewrite <- En in *. replace (is_empty neighbors) with false
        by (rewrite En; reflexivity).
      assert (Hl1 : 1 <= len neighbors)
        by (rewrite En; unfold len; simpl List.length; lia).
      pose proof (Hint 1 (Z.min 2 (len neighbors)) g3 ltac:(lia)) as Hk.
      destruct (random_randint 1 (Z.min 2 (len neighbors)) g3) as [k g4].
      simpl in Hk.
      exists (start_color :: slice_to neighbors k), g4.
      split; [reflexivity|].
      assert (Hslice : len (slice_to neighbors k) <= 2).
      { unfold len, slice_to.
        replace (k <? 0) with false by (symmetry; apply Z.ltb_ge; lia).
        pose proof (firstn_le_length (Z.to_nat k) neighbors). lia. }
      split; [|split].
      + unfold len in *. simpl List.length. lia.
      + intros c [<-|Hc]; [exact Hstart|].
        apply Hincl. unfold slice_to in Hc. apply incl_firstn in Hc. exact Hc.
      + intros Hsmall. unfold len in *. lia. }
  destruct Hgc as (gc & g4 & Egc & Hlen & Hinc & Hsolid).
  rewrite Egc in H.
  apply bind_Ok in H. destruct H as (gradient & Hg & H).
  pose proof Hg as Hg'.
  apply create_gradient_size in Hg'; [|vm_compute; discriminate..].
  destruct Hg' as (data & -> & _).
  apply Ok_inj in H. subst st'.
  exists gc, data. repeat split; try assumption; apply Hlen.
Qed.

Lemma random_gradient_colors rgb_colors i cv g st' :
  rgb_colors <> [] ->
  random_gradient random_randint random_sample rgb_colors i (cv, g) = Ok st' ->
  exists gradient_colors data,
    1 <= len gradient_colors <= 3
    /\ incl gradient_colors rgb_colors
    /\ (len gradient_colors = 1 <-> len rgb_colors = 1)
    /\ create_gradient gradient_colors gradient_width gradient_height true
       = Ok (Pixels gradient_width gradient_height data)
    /\ fst st' = canvas_paste cv (Pixels gradient_width gradient_height data)
                   (i * gradient_width) (gradient_start_y + gradient_height).
Proof.
  intros Hne. destruct Hrandom as (_ & Hint & Hsample).
  assert (Hl1 : 1 <= len rgb_colors).
  { destruct rgb_colors; [contradiction|]. unfold len. simpl List.length. lia. }
  unfold random_gradient.
  pose proof (Hint 2 3 g ltac:(lia)) as Hnum.
  destruct (random_randint 2 3 g) as [num_random_colors g1]. simpl in Hnum.
  pose proof (Hsample rgb_colors (Z.min num_random_colors (len rgb_colors)) g1
                ltac:(lia)) as [Hlen Hincl].
  destruct (random_sample rgb_colors
              (Z.min num_random_colors (len rgb_colors)) g1) as [gc g2].
  simpl in Hlen, Hincl.
  intros H. apply bind_Ok in H. destruct H as (gradient & Hg & H).
  pose proof Hg as Hg'.
  apply create_gradient_size in Hg'; [|vm_compute; discriminate..].
  destruct Hg' as (data & -> & _).
  apply Ok_inj in H. subst st'.
  exists gc, data.
  split; [lia|]. split; [exact Hincl|]. split; [lia|].
  split; [exact Hg | reflexivity].
Qed.

(** With a module [random] that keeps to its contract, each turn of the
    two loops over the bottom gradients pastes, in its cell, a vertical
    gradient of one to three colours of the palette.  A gradient of
    neighbours is of a single colour whenever the palette has three
    colours or fewer, since [find_neighbors] then skips every candidate;
    a random gradient is of a single colour exactly when the palette
    is. *)
Theorem bottom_gradients_use_one_to_three_palette_colours :
  forall (rgb_colors : list color) (i : Z) (cv : canvas) (g : rng)
         (st' : canvas * rng),
    rgb_colors <> [] ->
    (neighbor_gradient random_choice random_randint rgb_colors i (cv, g)
     = Ok st' ->
     exists gradient_colors data,
       1 <= len gradient_colors <= 3
       /\ incl gradient_colors rgb_colors
       /\ (len rgb_colors <= 3 -> len gradient_colors = 1)
       /\ create_gradient gradient_colors gradient_width gradient_height true
          = Ok (Pixels gradient_width gradient_height data)
       /\ fst st' = canvas_paste cv
                      (Pixels gradient_width gradient_height data)
                      ((i + 1) * gradient_width) gradient_start_y)
    /\ (random_gradient random_randint random_sample rgb_colors i (cv, g)
        = Ok st' ->
        exists gradient_colors data,
          1 <= len gradient_colors <= 3
          /\ incl gradient_colors rgb_colors
          /\ (len gradient_colors = 1 <-> len rgb_colors = 1)
          /\ create_gradient gradient_colors gradient_width gradient_height
               true
             = Ok (Pixels gradient_width gradient_height data)
          /\ fst st' = canvas_paste cv
                         (Pixels gradient_width gradient_height data)
                         (i * gradient_width)
                         (gradient_start_y + gradient_height)).
Proof.
  intros rgb_colors i cv g st' Hne. split.
  - apply neighbor_gradient_colors. exact Hne.
  - apply random_gradient_colors. exact Hne.
Qed.

End BottomGradients.

Lemma bottom_gradients_use_one_to_three_palette_colours_witness :
  exists st' gradient_colors data,
    neighbor_gradient first_choice lowest_int
      [(255, 0, 0); (0, 255, 0); (0, 0, 255)] 0 (new_canvas, tt)
    = Ok st'
    /\ 1 <= len gradient_colors <= 3
    /\ incl gradient_colors [(255, 0, 0); (0, 255, 0); (0, 0, 255)]
    /\ (len [(255, 0, 0); (0, 255, 0); (0, 0, 255)] <= 3 ->
        len gradient_colors = 1)
    /\ create_gradient gradient_colors gradient_width gradient_height true
       = Ok (Pixels gradient_width gradient_height data)
    /\ fst st' = canvas_paste new_canvas
                   (Pixels gradient_width gradient_height data)
                   ((0 + 1) * gradient_width) gradient_start_y.
Proof.
  assert (Hne : [(255, 0, 0); (0, 255, 0); (0, 0, 255)] <> @nil color)
    by discriminate.
  destruct (@neighbor_gradient_total unit first_choice lowest_int first_sample
              first_random_module [(255, 0, 0); (0, 255, 0); (0, 0, 255)] 0
              (new_canvas, tt) Hne
              ltac:(repeat constructor; vm_compute; discriminate))
    as (st' & H).
  destruct (proj1 (@bottom_gradients_use_one_to_three_palette_colours unit
                     first_choice lowest_int first_sample first_random_module
                     [(255, 0, 0); (0, 255, 0); (0, 0, 255)] 0 new_canvas tt
                     st' Hne) H)
    as (gradient_colors & data & H1).
  exists st', gradient_colors, data. exact (conj H H1).
Defined.
